(** * FileFinder: the file-discovery and distance/comparison engine

    A shallow embedding of [gameLogic.js] and the properties of its
    functions: [getDirectoryDepth], [getParentDirectory],
    [calculateDistance], [compareGuesses], [scanDirectory],
    [scanCommonDirectories] and [selectTargetFile].

    Conventions of the embedding.
    - A JavaScript string is a [string] (a sequence of 8-bit code units).
    - Numbers that the code subtracts ([charCodeAt] results, depths) are [Z];
      numbers that only count or cap (array lengths, [maxDepth],
      [currentDepth], [maxFiles]) are [nat].
    - Node's [path] module and [String.prototype.toLowerCase] are host
      services: the class [Host] is their interface, [posix] an instance
      that follows Node's POSIX implementation and runs inside Rocq.
    - The file system is an oracle [FileSystem]; [readdir] may fail.
    - [Math.random()] is an argument, a rational of [[0, 1)]; the module
      [Binary64] rounds its product with the length as the machine does.
    - Exceptions, the shared [fileList] array and the progress callback are
      threaded by a small state-and-exception monad [M]. *)

From Stdlib Require Import String Ascii List ZArith QArith Qround Bool Arith Lia.
From Stdlib Require Import Qabs Qpower Lqa DecimalString.

#[local] Set Warnings "-abstract-large-number".
Import ListNotations.

Local Close Scope Q_scope.
Local Close Scope Z_scope.
Local Open Scope string_scope.
Local Open Scope list_scope.
Local Open Scope nat_scope.

(* ------------------------------------------------------------------ *)
(** ** Host services *)

(** The part of Node's [path] module the program calls, and the string
    method [toLowerCase].  [sep] is [path.sep], always one character. *)
Class Host : Type := {
  sep : ascii;
  normalize : string -> string;
  dirname : string -> string;
  basename : string -> string;
  join : string -> string -> string;
  toLowerCase : string -> string
}.

(** [s.length > 0] *)
Definition nonEmpty (s : string) : bool :=
  match s with
  | EmptyString => false
  | String _ _ => true
  end.

(** [s.split(c)] for a one-character separator: never the empty list,
    ["".split(c)] is [[""]]. *)
Fixpoint split (c : ascii) (s : string) : list string :=
  match s with
  | EmptyString => [EmptyString]
  | String a s' =>
      if Ascii.eqb a c then EmptyString :: split c s'
      else match split c s' with
           | [] => [String a EmptyString]
           | part :: parts => String a part :: parts
           end
  end.

(** [s.charCodeAt(0)]: [None] stands for [NaN] (the string is empty). *)
Definition charCodeAt0 (s : string) : option Z :=
  match s with
  | EmptyString => None
  | String a _ => Some (Z.of_N (N_of_ascii a))
  end.

(** [x || 0] on a number: [NaN] and [0] are falsy. *)
Definition orZero (x : option Z) : Z :=
  match x with
  | Some z => z
  | None => 0%Z
  end.

(** [a === b] on strings. *)
Definition strictEq (a b : string) : bool := String.eqb a b.

(* ------------------------------------------------------------------ *)
(** ** PathDepth, DistanceCalculator, GuessComparator *)

Inductive Method : Type := alphabetical | depth.

Definition Method_eqb (a b : Method) : bool :=
  match a, b with
  | alphabetical, alphabetical => true
  | depth, depth => true
  | _, _ => false
  end.

(** The object [calculateDistance] returns: its [method], its [distance]
    and the fields that come with the method. *)
Inductive Distance : Type :=
| ByName (distance : Z) (guessParent targetParent : string)
| ByDepth (distance : Z) (guessDepth targetDepth : Z).

Definition method (d : Distance) : Method :=
  match d with
  | ByName _ _ _ => alphabetical
  | ByDepth _ _ _ => depth
  end.

Definition distance (d : Distance) : Z :=
  match d with
  | ByName n _ _ => n
  | ByDepth n _ _ => n
  end.

Inductive Verdict : Type := first | closer | farther | same.

(** Truthiness of a value that is a string, [null] or [undefined]: only a
    non-empty string is truthy.  [truthy v] is the string when [v] is
    truthy, so [!v] holds exactly when [truthy v = None]. *)
Definition truthy (v : option string) : option string :=
  match v with
  | Some p => if nonEmpty p then Some p else None
  | None => None
  end.

Section GameLogic.

Context {host : Host}.

Definition getDirectoryDepth (filePath : string) : Z :=
  let normalized := normalize filePath in
  let parts := filter nonEmpty (split sep normalized) in
  Z.max 0 (Z.of_nat (length parts) - 1).

Definition getParentDirectory (filePath : string) : string :=
  dirname filePath.

Definition calculateDistance (guessPath targetPath : string) : Distance :=
  let guessParent := getParentDirectory guessPath in
  let targetParent := getParentDirectory targetPath in
  if strictEq (toLowerCase guessParent) (toLowerCase targetParent) then
    let guessName := toLowerCase (basename guessPath) in
    let targetName := toLowerCase (basename targetPath) in
    let guessChar := orZero (charCodeAt0 guessName) in
    let targetChar := orZero (charCodeAt0 targetName) in
    let alphabeticalDistance := Z.abs (guessChar - targetChar) in
    ByName alphabeticalDistance guessParent targetParent
  else
    let guessDepth := getDirectoryDepth guessPath in
    let targetDepth := getDirectoryDepth targetPath in
    let depthDifference := Z.abs (guessDepth - targetDepth) in
    ByDepth depthDifference guessDepth targetDepth.

Definition compareGuesses (newGuessPath : string)
    (previousGuessPath : option string) (targetPath : string) : Verdict :=
  match truthy previousGuessPath with
  | None => first
  | Some previousGuess =>
      let newDistance := calculateDistance newGuessPath targetPath in
      let previousDistance := calculateDistance previousGuess targetPath in
      if Method_eqb (method newDistance) (method previousDistance) then
        if (distance newDistance <? distance previousDistance)%Z then closer
        else if (distance newDistance >? distance previousDistance)%Z then farther
        else same
      else if Method_eqb (method newDistance) alphabetical then closer
      else if Method_eqb (method previousDistance) alphabetical then farther
      else if (distance newDistance <? distance previousDistance)%Z then closer
      else if (distance newDistance >? distance previousDistance)%Z then farther
      else same
  end.

End GameLogic.

(* ------------------------------------------------------------------ *)
(** ** Node's POSIX [path] as an instance of [Host]

    These definitions follow [path.posix] of Node (library code, not part
    of the repository) so that the program can be run on concrete paths. *)

Module Posix.

Definition slash : ascii := "/"%char.

Definition isSlash (a : ascii) : bool := Ascii.eqb a slash.

Definition startsWithSlash (s : string) : bool :=
  match s with
  | String a _ => isSlash a
  | EmptyString => false
  end.

Fixpoint endsWithSlash (s : string) : bool :=
  match s with
  | EmptyString => false
  | String a EmptyString => isSlash a
  | String _ s' => endsWithSlash s'
  end.

(** [normalizeString]: the segments kept so far are a stack, last one on
    top; empty segments and ["."] are dropped, [".."] removes the segment
    on top unless there is none or it is [".."] itself, in which case
    [".."] is kept only when [allowAboveRoot]. *)
Fixpoint normalizeSegments (allowAboveRoot : bool) (res segs : list string)
  : list string :=
  match segs with
  | [] => rev res
  | s :: segs' =>
      if String.eqb s "" || String.eqb s "." then
        normalizeSegments allowAboveRoot res segs'
      else if String.eqb s ".." then
        match res with
        | top :: res' =>
            if String.eqb top ".." then
              normalizeSegments allowAboveRoot
                (if allowAboveRoot then ".." :: res else res) segs'
            else normalizeSegments allowAboveRoot res' segs'
        | [] =>
            normalizeSegments allowAboveRoot
              (if allowAboveRoot then [".."] else []) segs'
        end
      else normalizeSegments allowAboveRoot (s :: res) segs'
  end.

Definition normalizeString (path : string) (allowAboveRoot : bool) : string :=
  String.concat "/" (normalizeSegments allowAboveRoot [] (split slash path)).

Definition normalize (path : string) : string :=
  if negb (nonEmpty path) then "."
  else
    let isAbsolute := startsWithSlash path in
    let trailingSeparator := endsWithSlash path in
    let body := normalizeString path (negb isAbsolute) in
    if negb (nonEmpty body) then
      if isAbsolute then "/" else if trailingSeparator then "./" else "."
    else
      let body := if trailingSeparator then (body ++ "/")%string else body in
      if isAbsolute then ("/" ++ body)%string else body.

(** The loop of [dirname], [i] running from [path.length - 1] down to 1
    over the characters in reverse order: the index of the slash that
    ends the parent, once a character that is not a slash was seen. *)
Fixpoint dirnameScan (rs : list ascii) (i : nat) (matchedSlash : bool)
  : option nat :=
  match rs with
  | [] => None
  | a :: rs' =>
      if Nat.eqb i 0 then None
      else if isSlash a then
        if matchedSlash then dirnameScan rs' (i - 1) true else Some i
      else dirnameScan rs' (i - 1) false
  end.

Definition dirname (path : string) : string :=
  if negb (nonEmpty path) then "."
  else
    let hasRoot := startsWithSlash path in
    match dirnameScan (rev (list_ascii_of_string path))
            (String.length path - 1) true with
    | None => if hasRoot then "/" else "."
    | Some e =>
        if hasRoot && Nat.eqb e 1 then "//" else substring 0 e path
    end.

(** The loop of [basename] (no suffix), [i] running from
    [path.length - 1] down to 0: the pair [(start, end)]; [end] is [None]
    while only slashes were seen. *)
Fixpoint basenameScan (rs : list ascii) (i : nat) (e : option nat)
  : nat * option nat :=
  match rs with
  | [] => (0, e)
  | a :: rs' =>
      if isSlash a then
        match e with
        | Some _ => (i + 1, e)
        | None => basenameScan rs' (i - 1) None
        end
      else
        match e with
        | None => basenameScan rs' (i - 1) (Some (i + 1))
        | Some _ => basenameScan rs' (i - 1) e
        end
  end.

Definition basename (path : string) : string :=
  match basenameScan (rev (list_ascii_of_string path))
          (String.length path - 1) None with
  | (_, None) => ""
  | (start, Some e) => substring start (e - start) path
  end.

(** [path.join(a, b)]: the non-empty arguments joined by a slash, then
    normalized; ["."] when both are empty. *)
Definition join (a b : string) : string :=
  match nonEmpty a, nonEmpty b with
  | false, false => "."
  | true, false => normalize a
  | false, true => normalize b
  | true, true => normalize (a ++ "/" ++ b)%string
  end.

(** [toLowerCase] on the letters A to Z. *)
Definition lowerAscii (a : ascii) : ascii :=
  let n := nat_of_ascii a in
  if Nat.leb 65 n && Nat.leb n 90 then ascii_of_nat (n + 32) else a.

Fixpoint toLowerCase (s : string) : string :=
  match s with
  | EmptyString => EmptyString
  | String a s' => String (lowerAscii a) (toLowerCase s')
  end.

End Posix.

Definition posix : Host := {|
  sep := Posix.slash;
  normalize := Posix.normalize;
  dirname := Posix.dirname;
  basename := Posix.basename;
  join := Posix.join;
  toLowerCase := Posix.toLowerCase
|}.

(* ------------------------------------------------------------------ *)
(** ** Exceptions and mutable state *)

(** [new Error(message)] *)
Inductive JsError : Type := Error (message : string).

(** How a call ends: it returns, it throws, or the model ran out of fuel.
    [catch] handles [Throws] only, so a lack of fuel is never hidden. *)
Inductive Outcome (A : Type) : Type :=
| Returns (a : A)
| Throws (e : JsError)
| OutOfFuel.

Arguments Returns {A} a.
Arguments Throws {A} e.
Arguments OutOfFuel {A}.

(** A computation over a mutable state [S]; the state survives a throw. *)
Definition M (S A : Type) : Type := S -> Outcome A * S.

Definition ret {S A} (a : A) : M S A := fun s => (Returns a, s).

Definition bind {S A B} (m : M S A) (k : A -> M S B) : M S B :=
  fun s =>
    match m s with
    | (Returns a, s') => k a s'
    | (Throws e, s') => (Throws e, s')
    | (OutOfFuel, s') => (OutOfFuel, s')
    end.

Definition throw {S A} (e : JsError) : M S A := fun s => (Throws e, s).

Definition outOfFuel {S A} : M S A := fun s => (OutOfFuel, s).

(** [try { m } catch (err) { handler err }] *)
Definition tryCatch {S A} (m : M S A) (handler : JsError -> M S A) : M S A :=
  fun s =>
    match m s with
    | (Throws e, s') => handler e s'
    | r => r
    end.

(** A host call that returns or throws. *)
Definition liftE {S A} (r : JsError + A) : M S A :=
  match r with
  | inl e => throw e
  | inr a => ret a
  end.

Definition when {S} (b : bool) (m : M S unit) : M S unit :=
  if b then m else ret tt.

Declare Scope js_scope.
Delimit Scope js_scope with js.

Notation "x <- m ;; k" := (bind m (fun x => k))
  (at level 100, m at next level, right associativity) : js_scope.
Notation "m ;; k" := (bind m (fun _ => k))
  (at level 100, right associativity) : js_scope.

Local Open Scope js_scope.

(* ------------------------------------------------------------------ *)
(** ** The file system *)

(** An [fs.Dirent]: its name and what its two type queries answer (or
    throw). *)
Record Dirent : Type := {
  name : string;
  isFile : JsError + bool;
  isDirectory : JsError + bool
}.

(** [fs.promises.readdir(dir, { withFileTypes: true })] and
    [fs.existsSync(dir)]. *)
Record FileSystem : Type := {
  readdir : string -> JsError + list Dirent;
  existsSync : string -> bool
}.

(** [process.env] *)
Record Env : Type := {
  HOME : option string;
  USERPROFILE : option string
}.

(** One call of the progress callback: [(currentPath, fileCount)]. *)
Definition ProgressCall : Type := (string * nat)%type.

(** What a running [scanDirectory] shares across its recursive calls: the
    [fileList] array and the calls made to the progress callback so far. *)
Record ScanState : Type := {
  fileList : list string;
  calls : list ProgressCall
}.

Definition skipDirs : list string :=
  ["$Recycle.Bin"; "System Volume Information"; "Windows"; "node_modules";
   ".git"].

(** [list.includes(x)] *)
Definition includes (l : list string) (x : string) : bool :=
  existsb (String.eqb x) l.

(** Decimal digits of a number, as a template literal prints it. *)
Definition decimal (n : nat) : string := NilZero.string_of_uint (Nat.to_uint n).

Definition totalMaxFiles : nat := 20000.

Section Scanner.

Context {host : Host}.
Variable fs : FileSystem.
Variable env : Env.

(** Whether the caller passed a [progressCallback] (it defaults to
    [null]).  A callback records its arguments and returns. *)
Variable progressCallback : bool.

(** [fileList.length] *)
Definition fileListLength : M ScanState nat :=
  fun st => (Returns (length (fileList st)), st).

(** [fileList.push(p)] *)
Definition push (p : string) : M ScanState unit :=
  fun st =>
    (Returns tt, {| fileList := fileList st ++ [p]; calls := calls st |}).

(** [progressCallback(label, fileList.length)] *)
Definition report (label : string) : M ScanState unit :=
  fun st =>
    (Returns tt,
     {| fileList := fileList st;
        calls := calls st ++ [(label, length (fileList st))] |}).

(** [return fileList] *)
Definition returnFileList : M ScanState (list string) :=
  fun st => (Returns (fileList st), st).

(** The body of the [for (const entry of entries)] loop after the
    [break] test: the inner [try] and its [catch], which goes on to the
    next entry.  [recurse fullPath] is the recursive call on a
    subdirectory. *)
Definition visitEntry (recurse : string -> M ScanState unit)
    (dirPath : string) (currentDepth : nat) (entry : Dirent)
  : M ScanState unit :=
  let fullPath := join dirPath (name entry) in
  tryCatch
    (entryIsFile <- liftE (isFile entry) ;;
     if entryIsFile then
       push fullPath ;;
       len <- fileListLength ;;
       when (progressCallback && ((len mod 5 =? 0) || (currentDepth =? 0)))
         (report fullPath)
     else
       entryIsDirectory <- liftE (isDirectory entry) ;;
       if entryIsDirectory then
         if negb (includes skipDirs (name entry)) then recurse fullPath
         else ret tt
       else ret tt)
    (fun _ => ret tt).

(** The [for (const entry of entries)] loop of [scanDirectory]. *)
Fixpoint forEntries (recurse : string -> M ScanState unit)
    (dirPath : string) (currentDepth maxFiles : nat)
    (entries : list Dirent) : M ScanState unit :=
  match entries with
  | [] => ret tt
  | entry :: rest =>
      len <- fileListLength ;;
      if maxFiles <=? len then ret tt
      else
        visitEntry recurse dirPath currentDepth entry ;;
        forEntries recurse dirPath currentDepth maxFiles rest
  end.

(** [scanDirectory] on the shared state.  The recursion is on
    [maxDepth - currentDepth]; [fuel] stands for it. *)
Fixpoint scanDirectoryM (fuel : nat) (dirPath : string)
    (maxDepth currentDepth maxFiles : nat) {struct fuel}
  : M ScanState (list string) :=
  len <- fileListLength ;;
  if (maxDepth <=? currentDepth) || (maxFiles <=? len) then returnFileList
  else
    match fuel with
    | O => outOfFuel
    | S fuel' =>
        when (progressCallback && (currentDepth =? 0)) (report dirPath) ;;
        tryCatch
          (entries <- liftE (readdir fs dirPath) ;;
           forEntries
             (fun fullPath =>
                scanDirectoryM fuel' fullPath maxDepth (currentDepth + 1)
                  maxFiles ;;
                ret tt)
             dirPath currentDepth maxFiles entries)
          (fun _ => ret tt) ;;
        returnFileList
    end.

(** [scanDirectory(dirPath, maxDepth, currentDepth, fileList, maxFiles,
    progressCallback)]: the state is the array passed in and the callback
    calls made before. *)
Definition scanDirectory (dirPath : string) (maxDepth currentDepth : nat)
    (fileList : list string) (maxFiles : nat)
  : M (list ProgressCall) (list string) :=
  fun log =>
    let (r, st) :=
      scanDirectoryM (maxDepth - currentDepth) dirPath maxDepth currentDepth
        maxFiles {| fileList := fileList; calls := log |} in
    (r, calls st).

(** [progressCallback(label, count)] in [scanCommonDirectories] *)
Definition notify (label : string) (count : nat)
  : M (list ProgressCall) unit :=
  fun log => (Returns tt, log ++ [(label, count)]).

(** [process.env.HOME || process.env.USERPROFILE || 'C:\\'] *)
Definition userProfile : string :=
  match truthy (HOME env) with
  | Some home => home
  | None =>
      match truthy (USERPROFILE env) with
      | Some profile => profile
      | None => "C:\"
      end
  end.

Definition commonDirs : list string :=
  [join userProfile "Documents"; join userProfile "Desktop";
   join userProfile "Downloads"; join userProfile "Pictures";
   join userProfile "Music"; join userProfile "Videos"].

Definition existingDirs : list string := filter (existsSync fs) commonDirs.

(** The [for (let i = 0; i < existingDirs.length; i++)] loop, from index
    [i] on: [dirs] are the directories from [existingDirs[i]] on, [total]
    is [existingDirs.length]. *)
Fixpoint scanRoots (dirs : list string) (total i : nat)
    (allFiles : list string) : M (list ProgressCall) (list string) :=
  match dirs with
  | [] => ret allFiles
  | dir :: rest =>
      let dirName := basename dir in
      when progressCallback
        (notify ("Scanning " ++ dirName ++ "... (" ++ decimal (i + 1) ++ "/"
                 ++ decimal total ++ ")")%string (length allFiles)) ;;
      if totalMaxFiles <=? length allFiles then ret allFiles
      else
        allFiles' <-
          tryCatch
            (let remainingSlots := totalMaxFiles - length allFiles in
             files <- scanDirectory dir 7 0 [] remainingSlots ;;
             let allFiles := allFiles ++ files in
             when progressCallback
               (notify ("Completed " ++ dirName ++ " - Found "
                        ++ decimal (length files) ++ " files")%string
                  (length allFiles)) ;;
             ret allFiles)
            (fun _ =>
               when progressCallback
                 (notify ("Skipped " ++ dirName ++ " (access denied)")%string
                    (length allFiles)) ;;
               ret allFiles) ;;
        scanRoots rest total (i + 1) allFiles'
  end.

Definition scanCommonDirectories : M (list ProgressCall) (list string) :=
  if length existingDirs =? 0 then
    throw (Error "No accessible directories found")
  else
    allFiles <- scanRoots existingDirs (length existingDirs) 0 [] ;;
    if length allFiles =? 0 then
      throw (Error "No files found in any accessible directories")
    else ret allFiles.

End Scanner.

(* ------------------------------------------------------------------ *)
(** ** TargetSelector *)

(** [Math.floor(random * length)], [random] being what [Math.random()]
    answers: a number in [[0, 1)], here an exact rational, multiplied
    exactly.  The product as the machine rounds it is in [Binary64]
    below. *)
Definition randomIndexOf (random : Q) (length : nat) : Z :=
  Qfloor (random * inject_Z (Z.of_nat length)).

(** [list[index]]; [None] is [undefined], what an index outside the array
    reads. *)
Definition at_index (list : list string) (index : Z) : option string :=
  if (index <? 0)%Z then None else nth_error list (Z.to_nat index).

Definition selectTargetFile (random : Q) (fileList : list string)
  : Outcome (option string) :=
  if length fileList =? 0 then
    Throws (Error "No files available to select as target")
  else
    let randomIndex := randomIndexOf random (length fileList) in
    Returns (at_index fileList randomIndex).

(* ------------------------------------------------------------------ *)
(** ** TargetSelector in binary64 *)

(** [Math.random()] answers a binary64 number and [*] rounds the product
    to binary64 before [Math.floor] sees it.  [Binary64] is the selector
    with that rounding written out; the numbers are rationals, and the
    rounding is to the nearest representable one, a tie going to the even
    significand.  Overflow is left out: the products here are below the
    array length. *)
Module Binary64.

(** The nearest integer, a tie going to the even one. *)
Definition roundHalfEven (q : Q) : Z :=
  let f := Qfloor q in
  match Qcompare (q - inject_Z f) (1 # 2) with
  | Lt => f
  | Eq => if Z.even f then f else (f + 1)%Z
  | Gt => (f + 1)%Z
  end.

(** The exponent of the last place of a positive [x]: the [e] with
    [2^52 <= x / 2^e < 2^53], and [-1074] where that would be smaller
    (the subnormal numbers). *)
Definition ulpExponent (x : Q) : Z :=
  let l := (Z.log2 (Qnum x) - Z.log2 (Zpos (Qden x)))%Z in
  Z.max (-1074) (if Qle_bool (2 ^ l) x then l - 52 else l - 53).

(** The binary64 number nearest to [x]. *)
Definition roundDouble (x : Q) : Q :=
  let e := ulpExponent (Qabs x) in
  (inject_Z (roundHalfEven (x / 2 ^ e)) * 2 ^ e)%Q.

(** The binary64 numbers are the rationals that rounding leaves alone. *)
Definition isDouble (x : Q) : bool := Qeq_bool (roundDouble x) x.

(** [Math.floor(Math.random() * fileList.length)]. *)
Definition randomIndex (random : Q) (length : nat) : Z :=
  Qfloor (roundDouble (random * inject_Z (Z.of_nat length))).

Definition selectTargetFile (random : Q) (fileList : list string)
  : Outcome (option string) :=
  if length fileList =? 0 then
    Throws (Error "No files available to select as target")
  else
    let randomIndex := randomIndex random (length fileList) in
    Returns (at_index fileList randomIndex).

End Binary64.

(* ================================================================== *)
(** * Properties *)

(* ------------------------------------------------------------------ *)
(** ** Guess comparison *)

Lemma truthy_nonempty (p : string) : p <> "" -> truthy (Some p) = Some p.
Proof. destruct p; [congruence | reflexivity]. Qed.

Lemma truthy_Some (v : option string) (p : string) :
  truthy v = Some p -> v = Some p /\ p <> "".
Proof.
  destruct v as [q|]; simpl; [|discriminate].
  destruct q; simpl; [discriminate|].
  intros E; inversion E; subst. split; [reflexivity | discriminate].
Qed.

Lemma Method_eqb_eq (a b : Method) : Method_eqb a b = true <-> a = b.
Proof. destruct a, b; simpl; split; congruence. Qed.

(** The verdict on two distances, as a table: the method decides when the
    methods differ, the magnitudes decide otherwise. *)
Definition verdictOf (newDistance previousDistance : Distance) : Verdict :=
  match method newDistance, method previousDistance with
  | alphabetical, depth => closer
  | depth, alphabetical => farther
  | _, _ =>
      match (distance newDistance ?= distance previousDistance)%Z with
      | Lt => closer
      | Gt => farther
      | Eq => same
      end
  end.

Section GuessProperties.

Context {host : Host}.

Lemma compareGuesses_present (g p t : string) :
  p <> "" ->
  compareGuesses g (Some p) t
  = verdictOf (calculateDistance g t) (calculateDistance p t).
Proof.
  intros Hp. unfold compareGuesses, verdictOf.
  rewrite (truthy_nonempty p Hp).
  set (dn := calculateDistance g t). set (dp := calculateDistance p t).
  destruct (method dn), (method dp); simpl; unfold Z.gtb, Z.ltb;
    destruct (distance dn ?= distance dp)%Z; reflexivity.
Qed.

Lemma verdictOf_not_first (d e : Distance) : verdictOf d e <> first.
Proof.
  unfold verdictOf.
  destruct (method d), (method e); try discriminate;
    destruct (distance d ?= distance e)%Z; discriminate.
Qed.

Lemma verdictOf_swap_closer (d e : Distance) :
  verdictOf d e = closer <-> verdictOf e d = farther.
Proof.
  unfold verdictOf.
  destruct (method d), (method e);
    try rewrite (Z.compare_antisym (distance d) (distance e));
    try destruct (distance d ?= distance e)%Z; simpl;
    split; congruence.
Qed.

Lemma verdictOf_swap_same (d e : Distance) :
  verdictOf d e = same <-> verdictOf e d = same.
Proof.
  unfold verdictOf.
  destruct (method d), (method e);
    try rewrite (Z.compare_antisym (distance d) (distance e));
    try destruct (distance d ?= distance e)%Z; simpl;
    split; congruence.
Qed.

Lemma verdictOf_refl (d : Distance) : verdictOf d d = same.
Proof.
  unfold verdictOf. destruct (method d); rewrite Z.compare_refl; reflexivity.
Qed.

(** C1. When the two distances use different methods, the alphabetical
    one wins whatever the magnitudes: the verdict is [closer] if the new
    guess is the alphabetical one and [farther] if the previous guess
    is. *)
Theorem compareGuesses_methods_differ (newGuess previousGuess target : string) :
  previousGuess <> "" ->
  method (calculateDistance newGuess target)
    <> method (calculateDistance previousGuess target) ->
  (method (calculateDistance newGuess target) = alphabetical ->
   compareGuesses newGuess (Some previousGuess) target = closer)
  /\ (method (calculateDistance previousGuess target) = alphabetical ->
      compareGuesses newGuess (Some previousGuess) target = farther).
Proof.
  intros Hp Hdiff. rewrite (compareGuesses_present _ _ _ Hp).
  unfold verdictOf.
  destruct (method (calculateDistance newGuess target)),
           (method (calculateDistance previousGuess target));
    split; intros; congruence.
Qed.

(** [first] is the verdict exactly when the guard [!previousGuessPath]
    holds: for [null] and for the empty string, which is no path. *)
Lemma compareGuesses_first_iff (g t : string) (previous : option string) :
  compareGuesses g previous t = first <-> truthy previous = None.
Proof.
split.
- destruct (truthy previous) as [p|] eqn:E; [|reflexivity].
  apply truthy_Some in E. destruct E as [-> Hp].
  rewrite (compareGuesses_present _ _ _ Hp). intros H.
  exfalso. exact (verdictOf_not_first _ _ H).
- intros E. unfold compareGuesses. rewrite E. reflexivity.
Qed.

(** C9. Without a previous guess the verdict is [first]; with a previous
    guess (a path, hence not the empty string) it never is. *)
Theorem compareGuesses_first (g t : string) :
  compareGuesses g None t = first
  /\ forall previous : string,
       previous <> "" -> compareGuesses g (Some previous) t <> first.
Proof.
split; [reflexivity|].
intros previous Hp. rewrite (compareGuesses_present _ _ _ Hp).
apply verdictOf_not_first.
Qed.

(** C10. Swapping the new and the previous guess turns [closer] into
    [farther] and keeps [same]; a guess compared with itself is
    [same]. *)
Theorem compareGuesses_swap (a b t : string) :
  a <> "" -> b <> "" ->
  (compareGuesses a (Some b) t = closer
     <-> compareGuesses b (Some a) t = farther)
  /\ (compareGuesses a (Some b) t = same
        <-> compareGuesses b (Some a) t = same)
  /\ compareGuesses a (Some a) t = same.
Proof.
  intros Ha Hb.
  rewrite (compareGuesses_present a b t Hb), (compareGuesses_present b a t Ha),
          (compareGuesses_present a a t Ha).
  split; [apply verdictOf_swap_closer|].
  split; [apply verdictOf_swap_same | apply verdictOf_refl].
Qed.

(* ---------------------------------------------------------------- *)
(** ** Distance *)

Lemma strictEq_refl (s : string) : strictEq s s = true.
Proof. apply String.eqb_refl. Qed.

(** C7. A path is at alphabetical distance 0 from itself; and for every
    pair of paths [calculateDistance] yields a distance object, of one
    of the two methods, whose magnitude is not negative. *)
Theorem calculateDistance_self_and_total :
  (forall p : string,
      method (calculateDistance p p) = alphabetical
      /\ distance (calculateDistance p p) = 0%Z)
  /\ (forall guess target : string,
        exists d : Distance,
          calculateDistance guess target = d /\ (0 <= distance d)%Z).
Proof.
  split.
  - intros p. unfold calculateDistance. rewrite strictEq_refl. simpl.
    split; [reflexivity|]. rewrite Z.sub_diag. reflexivity.
  - intros guess target. eexists. split; [reflexivity|].
    unfold calculateDistance.
    destruct (strictEq _ _); simpl; apply Z.abs_nonneg.
Qed.

End GuessProperties.

(* ------------------------------------------------------------------ *)
(** ** Directory depth *)

(** No character of [w] is the separator [c]. *)
Fixpoint sepFree (c : ascii) (w : string) : bool :=
  match w with
  | EmptyString => true
  | String a w' => negb (Ascii.eqb a c) && sepFree c w'
  end.

(** [Segments c s l]: the string [s] reads as the non-empty,
    separator-free segments [l], in order, with one or more separators
    between them and any number of separators before and after. *)
Inductive Segments (c : ascii) : string -> list string -> Prop :=
| seg_none : Segments c "" []
| seg_sep s l : Segments c s l -> Segments c (String c s) l
| seg_last w : sepFree c w = true -> w <> "" -> Segments c w [w]
| seg_more w s l :
    sepFree c w = true -> w <> "" -> Segments c s l ->
    Segments c (w ++ String c s)%string (w :: l).

Lemma split_sepFree (c : ascii) (w : string) :
  sepFree c w = true -> split c w = [w].
Proof.
  induction w as [|a w IH]; simpl; [reflexivity|].
  intros H. apply andb_prop in H. destruct H as [Ha Hw].
  apply negb_true_iff in Ha. rewrite Ha, (IH Hw). reflexivity.
Qed.

Lemma split_sepFree_app (c : ascii) (w s : string) :
  sepFree c w = true -> split c (w ++ String c s)%string = w :: split c s.
Proof.
  induction w as [|a w IH]; simpl.
  - intros _. rewrite Ascii.eqb_refl. reflexivity.
  - intros H. apply andb_prop in H. destruct H as [Ha Hw].
    apply negb_true_iff in Ha. rewrite Ha, (IH Hw). reflexivity.
Qed.

Lemma nonEmpty_true (w : string) : w <> "" -> nonEmpty w = true.
Proof. destruct w; [congruence | reflexivity]. Qed.

Lemma split_Segments (c : ascii) (s : string) (l : list string) :
  Segments c s l -> filter nonEmpty (split c s) = l.
Proof.
  induction 1 as [|s l _ IH|w Hw Hne|w s l Hw Hne _ IH].
  - reflexivity.
  - simpl. rewrite Ascii.eqb_refl. simpl. exact IH.
  - rewrite (split_sepFree _ _ Hw). simpl. rewrite (nonEmpty_true _ Hne).
    reflexivity.
  - rewrite (split_sepFree_app _ _ _ Hw). simpl. rewrite (nonEmpty_true _ Hne).
    rewrite IH. reflexivity.
Qed.

(** The first piece [split] cuts off is separator-free, and the rest of
    the string is what follows the separator after it. *)
Lemma split_shape (c : ascii) (s : string) :
  exists part parts,
    split c s = part :: parts /\ sepFree c part = true
    /\ ((parts = [] /\ s = part)
        \/ exists s', s = (part ++ String c s')%string /\ split c s' = parts
                      /\ String.length s' < String.length s).
Proof.
  induction s as [|a s IH].
  - exists "", []. simpl. auto.
  - destruct IH as (part & parts & E & Hfree & Hshape). simpl.
    destruct (Ascii.eqb a c) eqn:Ea.
    + apply Ascii.eqb_eq in Ea. subst a.
      exists "", (split c s). split; [reflexivity|]. split; [reflexivity|].
      right. exists s. simpl. auto.
    + rewrite E. exists (String a part), parts. split; [reflexivity|]. split.
      * simpl. rewrite Ea, Hfree. reflexivity.
      * destruct Hshape as [[-> ->]|(s' & -> & E' & Hlen)]; [left; auto|].
        right. exists s'. simpl. split; [reflexivity|]. split; [exact E'|].
        simpl in Hlen. lia.
Qed.

Lemma Segments_split (c : ascii) (s : string) :
  Segments c s (filter nonEmpty (split c s)).
Proof.
  remember (String.length s) as n eqn:En.
  revert s En. induction n as [n IH] using lt_wf_ind. intros s En.
  destruct (split_shape c s) as (part & parts & E & Hfree & Hshape).
  destruct Hshape as [[-> ->]|(s' & -> & E' & Hlen)].
  - rewrite (split_sepFree _ _ Hfree). simpl.
    destruct part as [|a part]; simpl; [constructor|].
    apply seg_last; [exact Hfree | discriminate].
  - rewrite (split_sepFree_app _ _ _ Hfree). simpl.
    assert (Hs' : Segments c s' (filter nonEmpty (split c s'))).
    { apply (IH (String.length s')); [subst n; exact Hlen | reflexivity]. }
    destruct part as [|a part]; simpl.
    + apply seg_sep. exact Hs'.
    + apply (seg_more c (String a part)); [exact Hfree | discriminate | exact Hs'].
Qed.

Section DepthProperties.

Context {host : Host}.

(** C8. When the normalized path reads as the segments [a; b; ...; name]
    (empty segments, that is repeated, leading or trailing separators,
    not counting), [getDirectoryDepth] is the number of segments minus
    one, and 0 when there is no segment; every path reads as some list of
    segments, and the depth is never negative. *)
Theorem getDirectoryDepth_segments (filePath : string) :
  (forall segments : list string,
      Segments sep (normalize filePath) segments ->
      getDirectoryDepth filePath
      = Z.max 0 (Z.of_nat (length segments) - 1))
  /\ (exists segments : list string,
        Segments sep (normalize filePath) segments)
  /\ (0 <= getDirectoryDepth filePath)%Z.
Proof.
  split; [|split].
  - intros segments H. unfold getDirectoryDepth.
    rewrite (split_Segments _ _ _ H). reflexivity.
  - eexists. apply Segments_split.
  - unfold getDirectoryDepth. apply Z.le_max_l.
Qed.

(** A path whose normalized form is a single segment, a file directly
    under the root, has depth 0; one more segment is one more level. *)
Corollary getDirectoryDepth_cons (filePath name : string) (dirs : list string) :
  Segments sep (normalize filePath) (dirs ++ [name]) ->
  getDirectoryDepth filePath = Z.of_nat (length dirs).
Proof.
  intros H. unfold getDirectoryDepth.
  rewrite (split_Segments _ _ _ H), length_app. simpl. lia.
Qed.

End DepthProperties.

(* ------------------------------------------------------------------ *)
(** ** Directory scanning *)

Section ScannerProperties.

Context {host : Host}.
Variable fs : FileSystem.
Variable progressCallback : bool.

(** [Found dir dirs p]: the file [p] is listed in the directory reached
    from [dir] through the subdirectories named [dirs], each of them a
    directory entry that is not skip-listed. *)
Inductive Found (dir : string) : list string -> string -> Prop :=
| found_here entries entry :
    readdir fs dir = inr entries -> In entry entries ->
    isFile entry = inr true ->
    Found dir [] (join dir (name entry))
| found_below entries entry dirs p :
    readdir fs dir = inr entries -> In entry entries ->
    isFile entry = inr false -> isDirectory entry = inr true ->
    includes skipDirs (name entry) = false ->
    Found (join dir (name entry)) dirs p ->
    Found dir (name entry :: dirs) p.

(** What a scan of [dir] at depth [currentDepth] may add to the list. *)
Definition FoundWithin (maxDepth : nat) (dir : string) (currentDepth : nat)
    (p : string) : Prop :=
  exists dirs, Found dir dirs p /\ currentDepth + length dirs < maxDepth.

(** [Extends maxFiles P st st']: the array only grew, by paths that
    satisfy [P], and not beyond [maxFiles] unless it was already. *)
Definition Extends (maxFiles : nat) (P : string -> Prop)
    (st st' : ScanState) : Prop :=
  exists new,
    fileList st' = fileList st ++ new /\ Forall P new
    /\ length (fileList st') <= Nat.max (length (fileList st)) maxFiles.

Lemma Extends_refl maxFiles P st : Extends maxFiles P st st.
Proof.
  exists []. rewrite app_nil_r. repeat split; [constructor | lia].
Qed.

Lemma Extends_calls maxFiles P st log :
  Extends maxFiles P st {| fileList := fileList st; calls := log |}.
Proof.
  exists []. simpl. rewrite app_nil_r. repeat split; [constructor | lia].
Qed.

Lemma Extends_trans maxFiles P st1 st2 st3 :
  Extends maxFiles P st1 st2 -> Extends maxFiles P st2 st3 ->
  Extends maxFiles P st1 st3.
Proof.
  intros (n1 & E1 & F1 & L1) (n2 & E2 & F2 & L2).
  exists (n1 ++ n2). repeat split.
  - rewrite E2, E1, app_assoc. reflexivity.
  - apply Forall_app. split; assumption.
  - lia.
Qed.

Lemma Extends_impl maxFiles (P Q : string -> Prop) st st' :
  (forall p, P p -> Q p) -> Extends maxFiles P st st' ->
  Extends maxFiles Q st st'.
Proof.
  intros HPQ (n & E & F & L). exists n. repeat split; try assumption.
  eapply Forall_impl; [exact HPQ | exact F].
Qed.

Lemma when_report (b : bool) (label : string) (st : ScanState) :
  exists log,
    when b (report label) st
    = (Returns tt, {| fileList := fileList st; calls := log |}).
Proof.
  destruct b; simpl.
  - eexists. reflexivity.
  - exists (calls st). destruct st; reflexivity.
Qed.

Section OneDirectory.

Variables (maxDepth maxFiles currentDepth : nat) (dirPath : string).
Variable entries : list Dirent.
Variable recurse : string -> M ScanState unit.

Hypothesis listed : readdir fs dirPath = inr entries.
Hypothesis shallow : currentDepth < maxDepth.

(** The recursive call on a subdirectory that passes the tests returns
    and extends the list as a scan one level down may. *)
Hypothesis recurse_ok :
  forall entry, In entry entries ->
    isFile entry = inr false -> isDirectory entry = inr true ->
    includes skipDirs (name entry) = false ->
    forall st, exists st',
      recurse (join dirPath (name entry)) st = (Returns tt, st')
      /\ Extends maxFiles
           (FoundWithin maxDepth (join dirPath (name entry))
              (currentDepth + 1)) st st'.

Lemma visitEntry_ok (entry : Dirent) (st : ScanState) :
  In entry entries -> length (fileList st) < maxFiles ->
  exists st',
    visitEntry progressCallback recurse dirPath currentDepth entry st
    = (Returns tt, st')
    /\ Extends maxFiles (FoundWithin maxDepth dirPath currentDepth) st st'.
Proof.
  intros Hin Hroom. unfold visitEntry, tryCatch, bind.
  destruct (isFile entry) as [e|[|]] eqn:EF; cbn [liftE throw ret].
  - exists st. split; [reflexivity | apply Extends_refl].
  - unfold push at 1, fileListLength at 1.
    match goal with |- context [when ?b (report ?l) ?s] =>
      destruct (when_report b l s) as [log ->] end.
    eexists. split; [reflexivity|].
    exists [join dirPath (name entry)]. cbn [fileList]. repeat split.
    + constructor; [|constructor]. exists []. split.
      * eapply found_here; eassumption.
      * simpl. lia.
    + rewrite length_app. simpl. lia.
  - destruct (isDirectory entry) as [e|[|]] eqn:ED; cbn [liftE throw ret].
    + exists st. split; [reflexivity | apply Extends_refl].
    + destruct (includes skipDirs (name entry)) eqn:ES; cbn [negb].
      * exists st. split; [reflexivity | apply Extends_refl].
      * destruct (recurse_ok entry Hin EF ED ES st) as (st' & -> & Hext).
        exists st'. split; [reflexivity|].
        revert Hext. apply Extends_impl.
        intros p (dirs & Hf & Hd). exists (name entry :: dirs). split.
        -- eapply found_below; eassumption.
        -- simpl. lia.
    + exists st. split; [reflexivity | apply Extends_refl].
Qed.

Lemma forEntries_ok (rest : list Dirent) :
  incl rest entries ->
  forall st, exists st',
    forEntries progressCallback recurse dirPath currentDepth maxFiles rest st
    = (Returns tt, st')
    /\ Extends maxFiles (FoundWithin maxDepth dirPath currentDepth) st st'.
Proof.
  induction rest as [|entry rest IH]; intros Hincl st.
  - exists st. split; [reflexivity | apply Extends_refl].
  - cbn [forEntries]. unfold bind at 1, fileListLength at 1.
    destruct (maxFiles <=? length (fileList st)) eqn:Efull.
    + exists st. split; [reflexivity | apply Extends_refl].
    + apply Nat.leb_gt in Efull. unfold bind at 1.
      destruct (visitEntry_ok entry st) as (st1 & -> & H1);
        [apply Hincl; left; reflexivity | exact Efull |].
      destruct (IH (fun e He => Hincl e (or_intror He)) st1)
        as (st2 & -> & H2).
      exists st2. split; [reflexivity|].
      eapply Extends_trans; eassumption.
Qed.

End OneDirectory.

(** With fuel for the levels that remain, [scanDirectoryM] returns the
    shared array, extended by files found within the depth limit. *)
Lemma scanDirectoryM_ok (maxDepth maxFiles : nat) :
  forall fuel dirPath currentDepth st,
    maxDepth - currentDepth <= fuel ->
    exists st',
      scanDirectoryM fs progressCallback fuel dirPath maxDepth currentDepth
        maxFiles st
      = (Returns (fileList st'), st')
      /\ Extends maxFiles (FoundWithin maxDepth dirPath currentDepth) st st'.
Proof.
  induction fuel as [|fuel IH]; intros dirPath currentDepth st Hfuel.
  - cbn [scanDirectoryM]. unfold bind at 1, fileListLength at 1.
    assert (E : (maxDepth <=? currentDepth) = true)
      by (apply Nat.leb_le; lia).
    rewrite E. cbn [orb]. exists st. split; [reflexivity | apply Extends_refl].
  - cbn [scanDirectoryM]. unfold bind at 1, fileListLength at 1.
    destruct ((maxDepth <=? currentDepth)
              || (maxFiles <=? length (fileList st))) eqn:Eguard.
    + exists st. split; [reflexivity | apply Extends_refl].
    + apply orb_false_iff in Eguard. destruct Eguard as [Edepth _].
      apply Nat.leb_gt in Edepth.
      unfold bind at 1.
      destruct (when_report (progressCallback && (currentDepth =? 0))
                  dirPath st) as [log ->].
      set (st0 := {| fileList := fileList st; calls := log |}).
      assert (H0 : Extends maxFiles
                     (FoundWithin maxDepth dirPath currentDepth) st st0)
        by apply Extends_calls.
      unfold bind at 1, tryCatch at 1, bind at 1.
      destruct (readdir fs dirPath) as [e|entries] eqn:Edir;
        cbn [liftE throw ret].
      * exists st0. split; [reflexivity | exact H0].
      * set (recurse := fun fullPath : string =>
                          bind (scanDirectoryM fs progressCallback fuel fullPath
                                  maxDepth (currentDepth + 1) maxFiles)
                               (fun _ => ret tt)).
        assert (Hrec : forall entry, In entry entries ->
                  isFile entry = inr false -> isDirectory entry = inr true ->
                  includes skipDirs (name entry) = false ->
                  forall st2, exists st3,
                    recurse (join dirPath (name entry)) st2 = (Returns tt, st3)
                    /\ Extends maxFiles
                         (FoundWithin maxDepth (join dirPath (name entry))
                            (currentDepth + 1)) st2 st3).
        { intros entry _ _ _ _ st2. unfold recurse, bind.
          destruct (IH (join dirPath (name entry)) (currentDepth + 1) st2)
            as (st3 & -> & H3); [lia|].
          exists st3. split; [reflexivity | exact H3]. }
        destruct (forEntries_ok maxDepth maxFiles currentDepth dirPath
                    entries recurse Edir Edepth Hrec entries
                    (incl_refl entries) st0) as (st1 & -> & H1).
        exists st1. split; [reflexivity|].
        exact (Extends_trans _ _ _ _ _ H0 H1).
Qed.

(** [scanDirectory] returns; what it returns is the array it was given
    followed by files found within the depth limit, and is no longer
    than [maxFiles] unless the array given already was. *)
Lemma scanDirectory_ok (dirPath : string) (maxDepth currentDepth : nat)
    (given : list string) (maxFiles : nat) (log : list ProgressCall) :
  exists files log',
    scanDirectory fs progressCallback dirPath maxDepth currentDepth given
      maxFiles log
    = (Returns files, log')
    /\ exists new,
         files = given ++ new
         /\ Forall (FoundWithin maxDepth dirPath currentDepth) new
         /\ length files <= Nat.max (length given) maxFiles.
Proof.
  unfold scanDirectory.
  destruct (scanDirectoryM_ok maxDepth maxFiles (maxDepth - currentDepth)
              dirPath currentDepth {| fileList := given; calls := log |}
              (le_n _)) as (st' & -> & new & E & F & L).
  exists (fileList st'), (calls st'). split; [reflexivity|].
  exists new. simpl in E, L. auto.
Qed.

(** [LevelsBelow dir k p]: the entry [p] is [k] directory levels below
    [dir], that is [p] is listed in [dir] ([k = 1]) or lies [k - 1]
    levels below an entry listed in [dir]. *)
Inductive LevelsBelow (dir : string) : nat -> string -> Prop :=
| level_one entries entry :
    readdir fs dir = inr entries -> In entry entries ->
    LevelsBelow dir 1 (join dir (name entry))
| level_more entries entry k p :
    readdir fs dir = inr entries -> In entry entries ->
    LevelsBelow (join dir (name entry)) k p ->
    LevelsBelow dir (S k) p.

(** [Inside dir dirs p]: the entry [p] is located inside the
    directories named [dirs], nested in that order below [dir]. *)
Inductive Inside (dir : string) : list string -> string -> Prop :=
| inside_none entries entry :
    readdir fs dir = inr entries -> In entry entries ->
    Inside dir [] (join dir (name entry))
| inside_more entries entry dirs p :
    readdir fs dir = inr entries -> In entry entries ->
    Inside (join dir (name entry)) dirs p ->
    Inside dir (name entry :: dirs) p.

Lemma Found_LevelsBelow dir dirs p :
  Found dir dirs p -> LevelsBelow dir (S (length dirs)) p.
Proof.
  induction 1.
  - eapply level_one; eassumption.
  - simpl. eapply level_more; eassumption.
Qed.

Lemma includes_false (l : list string) (x : string) :
  includes l x = false -> ~ In x l.
Proof.
  unfold includes. intros H Hin.
  assert (E : existsb (String.eqb x) l = true).
  { apply existsb_exists. exists x. split; [exact Hin | apply String.eqb_refl]. }
  congruence.
Qed.

Lemma Found_Inside dir dirs p :
  Found dir dirs p ->
  Inside dir dirs p /\ forall d, In d dirs -> ~ In d skipDirs.
Proof.
  induction 1 as [dir entries entry Hd Hin Hf
                 |dir entries entry dirs p Hd Hin Hf Hdir Hskip _ [IH1 IH2]].
  - split; [eapply inside_none; eassumption | intros d []].
  - split; [eapply inside_more; eassumption|].
    intros d [<-|Hd']; [apply includes_false; exact Hskip | apply IH2; exact Hd'].
Qed.

(** C2. Started on an empty list, [scanDirectory] returns a list of at
    most [maxFiles] paths, whatever the shape of the tree (the count is
    the length of the one list all recursive calls share), and every path
    in it is at most [maxDepth] levels below the root. *)
Theorem scanDirectory_bounds (root : string) (maxDepth maxFiles : nat)
    (log : list ProgressCall) :
  exists files log',
    scanDirectory fs progressCallback root maxDepth 0 [] maxFiles log
    = (Returns files, log')
    /\ length files <= maxFiles
    /\ forall p, In p files ->
         exists k, k <= maxDepth /\ LevelsBelow root k p.
Proof.
  destruct (scanDirectory_ok root maxDepth 0 [] maxFiles log)
    as (files & log' & E & new & -> & F & L).
  exists ([] ++ new), log'. split; [exact E|]. split; [simpl in *; lia|].
  intros p Hp. rewrite Forall_forall in F.
  destruct (F p Hp) as (dirs & Hf & Hd).
  exists (S (length dirs)). split; [simpl in Hd; lia|].
  apply Found_LevelsBelow. exact Hf.
Qed.

(** C6. Every path [scanDirectory] returns is located below the root
    inside directories none of which has a skip-listed name: the scan
    recursed into no skip-listed directory, at any depth. *)
Theorem scanDirectory_skips (root : string) (maxDepth maxFiles : nat)
    (log : list ProgressCall) :
  exists files log',
    scanDirectory fs progressCallback root maxDepth 0 [] maxFiles log
    = (Returns files, log')
    /\ forall p, In p files ->
         exists dirs,
           Inside root dirs p /\ forall d, In d dirs -> ~ In d skipDirs.
Proof.
  destruct (scanDirectory_ok root maxDepth 0 [] maxFiles log)
    as (files & log' & E & new & -> & F & _).
  exists ([] ++ new), log'. split; [exact E|].
  intros p Hp. rewrite Forall_forall in F.
  destruct (F p Hp) as (dirs & Hf & _).
  exists dirs. apply Found_Inside. exact Hf.
Qed.

End ScannerProperties.

(* ------------------------------------------------------------------ *)
(** ** Returned paths, read as strings

    Where directory listings hold plain names and joining a directory with
    a plain name appends the name after a separator, the path of a returned
    file is the root followed by the directories it lies in and its own
    name, and the bounds can be read off the path itself. *)

Lemma string_app_nil_r (s : string) : (s ++ "")%string = s.
Proof. induction s as [|a s IH]; simpl; [reflexivity | rewrite IH; reflexivity]. Qed.

Lemma string_app_assoc (s t u : string) :
  ((s ++ t) ++ u)%string = (s ++ (t ++ u))%string.
Proof. induction s as [|a s IH]; simpl; [reflexivity | rewrite IH; reflexivity]. Qed.

Lemma Segments_iff (c : ascii) (s : string) (l : list string) :
  Segments c s l <-> filter nonEmpty (split c s) = l.
Proof.
split; [apply split_Segments | intros <-; apply Segments_split].
Qed.

Section PlainPaths.

Context {host : Host}.
Variable fs : FileSystem.
Variable progressCallback : bool.

(** A name as a directory listing holds it: not empty, no separator. *)
Definition plain (n : string) : Prop := sepFree sep n = true /\ n <> "".

Definition PlainListings : Prop :=
  forall dir entries entry,
    readdir fs dir = inr entries -> In entry entries ->
    plain (name entry)
    /\ join dir (name entry) = (dir ++ String sep (name entry))%string.

(** [below [n1; ...; nk]] is [/n1/.../nk], with [sep] for the slash. *)
Fixpoint below (names : list string) : string :=
  match names with
  | [] => ""
  | n :: names' => String sep (n ++ below names')
  end.

Lemma split_below (names : list string) :
  Forall plain names -> filter nonEmpty (split sep (below names)) = names.
Proof.
induction 1 as [|n names [Hfree Hne] _ IH]; [reflexivity|].
cbn [below split]. rewrite Ascii.eqb_refl. cbn [filter nonEmpty].
destruct names as [|n' names].
- cbn [below]. rewrite string_app_nil_r, (split_sepFree _ _ Hfree).
  cbn [filter]. rewrite (nonEmpty_true _ Hne). reflexivity.
- cbn [below] in *. rewrite (split_sepFree_app _ _ _ Hfree).
  cbn [filter]. rewrite (nonEmpty_true _ Hne). f_equal.
  cbn [split] in IH. rewrite Ascii.eqb_refl in IH. exact IH.
Qed.

Lemma Found_below (dir : string) (dirs : list string) (p : string) :
  PlainListings -> Found fs dir dirs p ->
  exists file,
    Forall plain (dirs ++ [file]) /\ p = (dir ++ below (dirs ++ [file]))%string.
Proof.
intros Hplain.
induction 1 as [dir entries entry Hd Hin _
               |dir entries entry dirs p Hd Hin _ _ _ _ (file & Hall & ->)];
  destruct (Hplain dir entries entry Hd Hin) as [Hn ->].
- exists (name entry). split; [constructor; [exact Hn | constructor]|].
  cbn [app below]. rewrite string_app_nil_r. reflexivity.
- exists file. split; [constructor; assumption|].
  cbn [app below]. rewrite string_app_assoc. reflexivity.
Qed.

Lemma removelast_snoc {A} (l : list A) (x : A) : removelast (l ++ [x]) = l.
Proof. rewrite removelast_app by discriminate. simpl. apply app_nil_r. Qed.

(** With plain listings, every returned path is the root followed by a
    suffix which, however it is cut into segments, has at most [maxDepth]
    of them, none but the last (the file name) skip-listed. *)
Lemma scanDirectory_plain_paths (root : string) (maxDepth maxFiles : nat)
    (log log' : list ProgressCall) (files : list string) (p : string) :
  PlainListings ->
  scanDirectory fs progressCallback root maxDepth 0 [] maxFiles log
  = (Returns files, log') ->
  In p files ->
  exists rest,
    p = (root ++ rest)%string
    /\ forall segments,
         Segments sep rest segments ->
         length segments <= maxDepth
         /\ forall d, In d (removelast segments) -> ~ In d skipDirs.
Proof.
intros Hplain Hscan Hp.
destruct (scanDirectory_ok fs progressCallback root maxDepth 0 [] maxFiles log)
  as (files' & log'' & E & new & -> & F & _).
rewrite E in Hscan. inversion Hscan; subst. clear Hscan.
rewrite Forall_forall in F. destruct (F p Hp) as (dirs & Hf & Hd).
destruct (Found_below root dirs p Hplain Hf) as (file & Hall & ->).
exists (below (dirs ++ [file])). split; [reflexivity|].
intros segments Hseg. apply Segments_iff in Hseg.
rewrite (split_below _ Hall) in Hseg. subst segments.
rewrite removelast_snoc, length_app. simpl in *. split; [lia|].
apply (Found_Inside fs root dirs _ Hf).
Qed.

End PlainPaths.

(* ------------------------------------------------------------------ *)
(** ** Scanning the well-known directories *)

Section RootSetProperties.

Context {host : Host}.
Variable fs : FileSystem.
Variable env : Env.
Variable progressCallback : bool.

(** [ScansInOrder cap roots collected aggregated]: going through [roots]
    in order with [collected] in hand, each root is scanned by
    [scanDirectory] (depth limit 7, a fresh list) with the capacity that
    remains, [cap - length collected], and its files are appended; no
    further root is scanned once [cap] files are collected; [aggregated]
    is what is in hand at the end. *)
Inductive ScansInOrder (cap : nat)
  : list string -> list string -> list string -> Prop :=
| scans_done collected : ScansInOrder cap [] collected collected
| scans_full root roots collected :
    cap <= length collected ->
    ScansInOrder cap (root :: roots) collected collected
| scans_root root roots collected files aggregated log log' :
    length collected < cap ->
    scanDirectory fs progressCallback root 7 0 [] (cap - length collected) log
    = (Returns files, log') ->
    ScansInOrder cap roots (collected ++ files) aggregated ->
    ScansInOrder cap (root :: roots) collected aggregated.

#[local] Opaque totalMaxFiles.

Lemma when_notify (b : bool) (label : string) (count : nat)
    (log : list ProgressCall) :
  exists log', when b (notify label count) log = (Returns tt, log').
Proof. destruct b; eexists; reflexivity. Qed.

(** The loop over the roots returns; it proceeds as [ScansInOrder] says
    and never holds more than [totalMaxFiles] files. *)
Lemma scanRoots_ok (dirs : list string) :
  forall total i allFiles log,
    length allFiles <= totalMaxFiles ->
    exists aggregated log',
      scanRoots fs progressCallback dirs total i allFiles log
      = (Returns aggregated, log')
      /\ ScansInOrder totalMaxFiles dirs allFiles aggregated
      /\ length aggregated <= totalMaxFiles.
Proof.
  induction dirs as [|dir rest IH]; intros total i allFiles log Hlen.
  - exists allFiles, log. split; [reflexivity|]. split; [constructor | exact Hlen].
  - cbn [scanRoots]. unfold bind at 1.
    match goal with |- context [when ?b (notify ?l ?c) ?s] =>
      destruct (when_notify b l c s) as [log1 ->] end.
    destruct (totalMaxFiles <=? length allFiles) eqn:Efull.
    + apply Nat.leb_le in Efull.
      exists allFiles, log1. split; [reflexivity|].
      split; [apply scans_full; exact Efull | exact Hlen].
    + apply Nat.leb_gt in Efull.
      unfold bind at 1, tryCatch at 1, bind at 1.
      destruct (scanDirectory_ok fs progressCallback dir 7 0 []
                  (totalMaxFiles - length allFiles) log1)
        as (files & log2 & E & new & _ & _ & L).
      rewrite E. unfold bind at 1.
      match goal with |- context [when ?b (notify ?l ?c) ?s] =>
        destruct (when_notify b l c s) as [log3 ->] end.
      cbn [ret].
      assert (Hlen' : length (allFiles ++ files) <= totalMaxFiles).
      { rewrite length_app. cbn [length] in L. rewrite Nat.max_0_l in L. lia. }
      destruct (IH total (i + 1) (allFiles ++ files) log3 Hlen')
        as (aggregated & log4 & -> & Hs & Ha).
      exists aggregated, log4. split; [reflexivity|].
      split; [|exact Ha].
      eapply scans_root; eassumption.
Qed.

Definition noAccessibleDirectories : JsError :=
  Error "No accessible directories found".

Definition noFilesFound : JsError :=
  Error "No files found in any accessible directories".

Lemma length_eqb_0 {A} (l : list A) : (length l =? 0) = true <-> l = [].
Proof. destruct l; simpl; split; congruence. Qed.

(** How [scanCommonDirectories] ends, in terms of the roots that exist
    and of what the loop over them aggregates. *)
Lemma scanCommonDirectories_cases (log : list ProgressCall) :
  (existingDirs fs env = []
   /\ scanCommonDirectories fs env progressCallback log
      = (Throws noAccessibleDirectories, log))
  \/ (existingDirs fs env <> []
      /\ exists aggregated log',
           scanRoots fs progressCallback (existingDirs fs env)
             (length (existingDirs fs env)) 0 [] log
           = (Returns aggregated, log')
           /\ ScansInOrder totalMaxFiles (existingDirs fs env) [] aggregated
           /\ length aggregated <= totalMaxFiles
           /\ scanCommonDirectories fs env progressCallback log
              = (match aggregated with
                 | [] => Throws noFilesFound
                 | _ :: _ => Returns aggregated
                 end, log')).
Proof.
  unfold scanCommonDirectories.
  destruct (length (existingDirs fs env) =? 0) eqn:E0.
  - left. apply length_eqb_0 in E0. split; [exact E0 | reflexivity].
  - right. split.
    { intros H. apply length_eqb_0 in H. congruence. }
    destruct (scanRoots_ok (existingDirs fs env)
                (length (existingDirs fs env)) 0 [] log (Nat.le_0_l _))
      as (aggregated & log' & E & Hs & Ha).
    exists aggregated, log'. repeat split; try assumption.
    unfold bind. rewrite E. destruct aggregated; reflexivity.
Qed.

#[local] Transparent totalMaxFiles.

(** What the loop over the existing roots has in hand when it ends. *)
Definition aggregated (log : list ProgressCall) : list string :=
  match fst (scanRoots fs progressCallback (existingDirs fs env)
               (length (existingDirs fs env)) 0 [] log) with
  | Returns allFiles => allFiles
  | _ => []
  end.

(** C3. The existing roots are scanned in their order, each with the
    capacity that remains of the global cap, and no further root once the
    cap is reached; so what is aggregated, and what
    [scanCommonDirectories] returns, has at most 20000 entries. *)
Theorem scanCommonDirectories_cap (log : list ProgressCall) :
  fst (scanRoots fs progressCallback (existingDirs fs env)
         (length (existingDirs fs env)) 0 [] log)
  = Returns (aggregated log)
  /\ ScansInOrder 20000 (existingDirs fs env) [] (aggregated log)
  /\ length (aggregated log) <= 20000
  /\ forall files log',
       scanCommonDirectories fs env progressCallback log = (Returns files, log') ->
       files = aggregated log /\ length files <= 20000.
Proof.
change 20000 with totalMaxFiles. unfold aggregated.
destruct (scanCommonDirectories_cases log)
  as [[E0 Ethrow]|(Hne & agg & log1 & E & Hs & Ha & Eret)].
- rewrite E0 in *. simpl. split; [reflexivity|]. split; [constructor|].
  split; [apply Nat.le_0_l|].
  intros files log' H. rewrite Ethrow in H. discriminate.
- rewrite E. simpl. split; [reflexivity|]. split; [exact Hs|]. split; [exact Ha|].
  intros files log' H. rewrite Eret in H.
  destruct agg; inversion H; subst. split; [reflexivity | exact Ha].
Qed.

(** C4. [scanCommonDirectories] throws "No accessible directories found"
    exactly when none of the well-known directories exists, throws "No
    files found in any accessible directories" exactly when some exist and
    the scan of them aggregates nothing, and returns what was aggregated
    otherwise; it ends in no other way, and [scanDirectory] itself always
    returns, whatever [readdir] and the entries' type queries throw. *)
Theorem scanCommonDirectories_outcome (log : list ProgressCall) :
  let r := fst (scanCommonDirectories fs env progressCallback log) in
  (r = Throws noAccessibleDirectories <-> existingDirs fs env = [])
  /\ (r = Throws noFilesFound
      <-> existingDirs fs env <> [] /\ aggregated log = [])
  /\ (existingDirs fs env <> [] -> aggregated log <> [] ->
      r = Returns (aggregated log))
  /\ (r = Throws noAccessibleDirectories \/ r = Throws noFilesFound
      \/ r = Returns (aggregated log))
  /\ (forall dir maxDepth currentDepth given maxFiles log0,
        exists files log1,
          scanDirectory fs progressCallback dir maxDepth currentDepth given
            maxFiles log0
          = (Returns files, log1)).
Proof.
  cbv zeta. unfold aggregated.
  destruct (scanCommonDirectories_cases log)
    as [[E0 Ethrow]|(Hne & agg & log1 & E & _ & _ & Eret)].
  - rewrite Ethrow. simpl. split; [tauto|]. split.
    { split; [discriminate | intros [H _]; contradiction]. }
    split; [intros H; contradiction|]. split; [left; reflexivity|].
    intros. destruct (scanDirectory_ok fs progressCallback dir maxDepth
                        currentDepth given maxFiles log0)
      as (files & log1 & H & _).
    eauto.
  - rewrite Eret, E. simpl. split.
    { split; [|intros H; contradiction].
      destruct agg; discriminate. }
    split.
    { split.
      - destruct agg; [auto | discriminate].
      - intros [_ ->]. reflexivity. }
    split.
    { intros _ H. destruct agg; [contradiction | reflexivity]. }
    split.
    { destruct agg; auto. }
    intros. destruct (scanDirectory_ok fs progressCallback dir maxDepth
                        currentDepth given maxFiles log0)
      as (files & log2 & H & _).
    eauto.
Qed.

End RootSetProperties.

(* ------------------------------------------------------------------ *)
(** ** Target selection *)

Section SelectionProperties.

Local Open Scope Q_scope.

Lemma inject_Z_pos (n : nat) : (0 < n)%nat -> 0 < inject_Z (Z.of_nat n).
Proof.
  intros H. change 0 with (inject_Z 0). rewrite <- Zlt_Qlt. lia.
Qed.

(** For [random] in [[0, 1)] the index is one of [0 .. length - 1]. *)
Lemma randomIndexOf_range (random : Q) (n : nat) :
  (0 < n)%nat -> 0 <= random -> random < 1 ->
  (0 <= randomIndexOf random n < Z.of_nat n)%Z.
Proof.
  intros Hn H0 H1. unfold randomIndexOf.
  pose proof (inject_Z_pos n Hn) as Hpos.
  split.
  - change 0%Z with (Qfloor 0). apply Qfloor_resp_le.
    apply Qmult_le_0_compat; [exact H0 | apply Qlt_le_weak; exact Hpos].
  - rewrite Zlt_Qlt.
    apply Qle_lt_trans with (random * inject_Z (Z.of_nat n)).
    + apply Qfloor_le.
    + rewrite <- (Qmult_1_l (inject_Z (Z.of_nat n))) at 2.
      apply Qmult_lt_compat_r; assumption.
Qed.

(** With the exact product the index is [j] exactly when [random] lies in
    the [j]-th of the [length] intervals of width [1 / length] that divide
    [[0, 1)]. *)
Lemma randomIndexOf_interval (random : Q) (n : nat) (j : Z) :
  (0 < n)%nat ->
  randomIndexOf random n = j
  <-> inject_Z j / inject_Z (Z.of_nat n) <= random
      /\ random < inject_Z (j + 1) / inject_Z (Z.of_nat n).
Proof.
  intros Hn. unfold randomIndexOf.
  pose proof (inject_Z_pos n Hn) as Hpos.
  set (N := inject_Z (Z.of_nat n)) in *.
  assert (HN : ~ N == 0) by (intros E; rewrite E in Hpos; discriminate).
  split.
  - intros <-. split.
    + apply Qle_shift_div_r; [exact Hpos | apply Qfloor_le].
    + apply Qlt_shift_div_l; [exact Hpos | apply Qlt_floor].
  - intros [Hlo Hhi].
    assert (Hlo' : inject_Z j <= random * N).
    { rewrite <- (Qmult_div_r (inject_Z j) N HN), (Qmult_comm N).
      apply Qmult_le_compat_r; [exact Hlo | apply Qlt_le_weak; exact Hpos]. }
    assert (Hhi' : random * N < inject_Z (j + 1)).
    { rewrite <- (Qmult_div_r (inject_Z (j + 1)) N HN), (Qmult_comm N (_ / _)).
      apply Qmult_lt_compat_r; assumption. }
    apply Qfloor_resp_le in Hlo'. rewrite Qfloor_Z in Hlo'.
    assert (Qfloor (random * N) < j + 1)%Z.
    { rewrite Zlt_Qlt. eapply Qle_lt_trans; [apply Qfloor_le | exact Hhi']. }
    lia.
Qed.

Lemma at_index_nth (l : list string) (i : Z) :
  (0 <= i < Z.of_nat (length l))%Z ->
  exists x, at_index l i = Some x /\ nth_error l (Z.to_nat i) = Some x.
Proof.
  intros [H0 H1]. unfold at_index.
  destruct (i <? 0)%Z eqn:E; [apply Z.ltb_lt in E; lia|].
  destruct (nth_error l (Z.to_nat i)) as [x|] eqn:En; [eauto|].
  apply nth_error_None in En. lia.
Qed.

End SelectionProperties.

(* ------------------------------------------------------------------ *)
(** ** Target selection in binary64 *)

Section Binary64Properties.

Local Open Scope Q_scope.

Lemma pow2_pos (e : Z) : 0 < 2 ^ e.
Proof. apply Qpower_0_lt. reflexivity. Qed.

Lemma pow2_add (a b : Z) : 2 ^ (a + b) == 2 ^ a * 2 ^ b.
Proof. apply Qpower_plus. discriminate. Qed.

Lemma pow2_le (a b : Z) : (a <= b)%Z -> 2 ^ a <= 2 ^ b.
Proof. intros H. apply Qpower_le_compat_l; [exact H | discriminate]. Qed.

Lemma pow2_lt_inv (a b : Z) : 2 ^ a < 2 ^ b -> (a < b)%Z.
Proof.
  intros H. apply (Qpower_lt_compat_l_inv 2); [exact H | reflexivity].
Qed.

Lemma pow2_inject (e : Z) : (0 <= e)%Z -> 2 ^ e == inject_Z (2 ^ e).
Proof. intros H. symmetry. apply (Zpower_Qpower 2). exact H. Qed.

(** *** Rounding to an integer *)

Lemma roundHalfEven_floor (q : Q) :
  Binary64.roundHalfEven q = Qfloor q
  \/ Binary64.roundHalfEven q = (Qfloor q + 1)%Z.
Proof.
  unfold Binary64.roundHalfEven.
  destruct (Qcompare _ _); [destruct (Z.even _)|..]; auto.
Qed.

Lemma roundHalfEven_error (q : Q) :
  inject_Z (Binary64.roundHalfEven q) - q <= 1 # 2
  /\ q - inject_Z (Binary64.roundHalfEven q) <= 1 # 2.
Proof.
  pose proof (Qfloor_le q) as Hlo. pose proof (Qlt_floor q) as Hhi.
  rewrite inject_Z_plus in Hhi. change (inject_Z 1) with 1 in Hhi.
  unfold Binary64.roundHalfEven.
  destruct (Qcompare_spec (q - inject_Z (Qfloor q)) (1 # 2)) as [E|E|E].
  - destruct (Z.even _);
      [|rewrite inject_Z_plus; change (inject_Z 1) with 1]; lra.
  - lra.
  - rewrite inject_Z_plus. change (inject_Z 1) with 1. lra.
Qed.

(** Rounding does not cross an integer. *)
Lemma roundHalfEven_ge (q : Q) (k : Z) :
  inject_Z k <= q -> (k <= Binary64.roundHalfEven q)%Z.
Proof.
  intros H. apply Qfloor_resp_le in H. rewrite Qfloor_Z in H.
  destruct (roundHalfEven_floor q); lia.
Qed.

Lemma roundHalfEven_le (q : Q) (k : Z) :
  q <= inject_Z k -> (Binary64.roundHalfEven q <= k)%Z.
Proof.
  intros H. pose proof (Qfloor_resp_le _ _ H) as Hf. rewrite Qfloor_Z in Hf.
  destruct (Z.eq_dec (Qfloor q) k) as [E|E].
  - assert (Hd : q - inject_Z (Qfloor q) <= 0) by (rewrite E; lra).
    unfold Binary64.roundHalfEven.
    destruct (Qcompare_spec (q - inject_Z (Qfloor q)) (1 # 2)) as [E'|E'|E'];
      [lra | lia | lra].
  - destruct (roundHalfEven_floor q); lia.
Qed.

(** *** The last place *)

(** A positive rational lies within a factor of two of the power of two
    that the bit lengths of its numerator and denominator give. *)
Lemma log2_bracket (x : Q) :
  0 < x ->
  let l := (Z.log2 (Qnum x) - Z.log2 (Zpos (Qden x)))%Z in
  2 ^ (l - 1) < x /\ x < 2 ^ (l + 1).
Proof.
  destruct x as [a b]. intros Ha l. cbn [Qnum Qden] in l.
  unfold Qlt in Ha. cbn [Qnum Qden] in Ha. rewrite Z.mul_1_r in Ha.
  change (0 * Z.pos b)%Z with 0%Z in Ha.
  pose proof (Z.log2_spec a Ha) as [Ha1 Ha2].
  pose proof (Z.log2_spec (Z.pos b) (Pos2Z.is_pos b)) as [Hb1 Hb2].
  pose proof (Z.log2_nonneg a) as Hla.
  pose proof (Z.log2_nonneg (Z.pos b)) as Hlb.
  set (la := Z.log2 a) in *. set (lb := Z.log2 (Z.pos b)) in *.
  assert (Hpa : (0 < 2 ^ la)%Z) by (apply Z.pow_pos_nonneg; lia).
  assert (Hpb : (0 < 2 ^ lb)%Z) by (apply Z.pow_pos_nonneg; lia).
  split.
  - apply (Qmult_lt_r _ _ (2 ^ Z.succ lb)); [apply pow2_pos|].
    rewrite <- pow2_add.
    replace (l - 1 + Z.succ lb)%Z with la by (unfold l; lia).
    rewrite !pow2_inject by lia.
    unfold Qlt, Qmult, inject_Z. cbn [Qnum Qden].
    rewrite Pos.mul_1_r, Z.mul_1_r. nia.
  - apply (Qmult_lt_r _ _ (2 ^ lb)); [apply pow2_pos|].
    rewrite <- pow2_add.
    replace (l + 1 + lb)%Z with (Z.succ la) by (unfold l; lia).
    rewrite !pow2_inject by lia.
    unfold Qlt, Qmult, inject_Z. cbn [Qnum Qden].
    rewrite Pos.mul_1_r, Z.mul_1_r. nia.
Qed.

(** [ulpExponent x] is the exponent of the last place of the binary64
    numbers around [x]: [x / 2^e] has at most 53 bits, and exactly 53
    unless [x] is subnormal. *)
Lemma ulpExponent_spec (x : Q) :
  0 < x ->
  let e := Binary64.ulpExponent x in
  (-1074 <= e)%Z
  /\ x < 2 ^ (e + 53)
  /\ (e = (-1074)%Z \/ 2 ^ (e + 52) <= x).
Proof.
  intros Hx. pose proof (log2_bracket x Hx) as Hb. cbv zeta in Hb.
  unfold Binary64.ulpExponent.
  set (l := (Z.log2 (Qnum x) - Z.log2 (Z.pos (Qden x)))%Z) in *.
  destruct Hb as [Hlo Hhi].
  set (c := if Qle_bool (2 ^ l) x then (l - 52)%Z else (l - 53)%Z).
  assert (Hc : 2 ^ (c + 52) <= x /\ x < 2 ^ (c + 53)).
  { unfold c. destruct (Qle_bool (2 ^ l) x) eqn:E.
    - apply Qle_bool_iff in E.
      replace (l - 52 + 52)%Z with l by lia.
      replace (l - 52 + 53)%Z with (l + 1)%Z by lia. split; assumption.
    - assert (E' : x < 2 ^ l).
      { apply Qnot_le_lt. intros H. apply Qle_bool_iff in H. congruence. }
      replace (l - 53 + 52)%Z with (l - 1)%Z by lia.
      replace (l - 53 + 53)%Z with l by lia.
      split; [apply Qlt_le_weak|]; assumption. }
  destruct Hc as [Hc1 Hc2]. cbv zeta.
  split; [lia|]. split.
  - eapply Qlt_le_trans; [exact Hc2 | apply pow2_le; lia].
  - destruct (Z.max_spec (-1074) c) as [[_ E]|[_ E]]; rewrite E; auto.
Qed.

(** *** Rounding to binary64 *)

Lemma Qabs_of_nonneg (x : Q) : 0 <= x -> Qabs x = x.
Proof.
  destruct x as [a b]. unfold Qle. cbn [Qnum Qden]. intros H.
  unfold Qabs. rewrite Z.abs_eq by lia. reflexivity.
Qed.

Lemma roundDouble_unfold (x : Q) :
  0 <= x ->
  Binary64.roundDouble x
  = inject_Z (Binary64.roundHalfEven (x / 2 ^ Binary64.ulpExponent x))
    * 2 ^ Binary64.ulpExponent x.
Proof.
  intros H. unfold Binary64.roundDouble. rewrite (Qabs_of_nonneg x H).
  reflexivity.
Qed.

Lemma div_pow2 (x : Q) (e : Z) : x / 2 ^ e * 2 ^ e == x.
Proof.
  pose proof (pow2_pos e) as H. field. intros E. rewrite E in H.
  discriminate.
Qed.

(** The result is within half a unit of the last place. *)
Lemma roundDouble_error (x : Q) :
  0 <= x ->
  Binary64.roundDouble x - x <= 2 ^ Binary64.ulpExponent x * (1 # 2)
  /\ x - Binary64.roundDouble x <= 2 ^ Binary64.ulpExponent x * (1 # 2).
Proof.
  intros Hx. rewrite (roundDouble_unfold x Hx).
  set (e := Binary64.ulpExponent x).
  pose proof (pow2_pos e) as Hp. pose proof (div_pow2 x e) as Hq.
  destruct (roundHalfEven_error (x / 2 ^ e)) as [H1 H2].
  set (q := x / 2 ^ e) in *.
  set (m := inject_Z (Binary64.roundHalfEven q)) in *.
  set (p := 2 ^ e) in *.
  split.
  - setoid_replace (m * p - x) with ((m - q) * p) by (rewrite <- Hq; ring).
    rewrite (Qmult_comm p).
    apply Qmult_le_compat_r; [exact H1 | apply Qlt_le_weak; exact Hp].
  - setoid_replace (x - m * p) with ((q - m) * p) by (rewrite <- Hq; ring).
    rewrite (Qmult_comm p).
    apply Qmult_le_compat_r; [exact H2 | apply Qlt_le_weak; exact Hp].
Qed.

Lemma roundDouble_nonneg (x : Q) : 0 <= x -> 0 <= Binary64.roundDouble x.
Proof.
  intros Hx. rewrite (roundDouble_unfold x Hx).
  set (e := Binary64.ulpExponent x). pose proof (pow2_pos e) as Hp.
  apply Qmult_le_0_compat; [|apply Qlt_le_weak; exact Hp].
  change 0 with (inject_Z 0). rewrite <- Zle_Qle.
  apply roundHalfEven_ge. change (inject_Z 0) with 0.
  apply Qle_shift_div_l; [exact Hp|]. rewrite Qmult_0_l. exact Hx.
Qed.

(** Below [2^53] the last place is at most the units: the integers are
    binary64 numbers. *)
Lemma ulpExponent_small (x : Q) :
  0 < x -> x < 2 ^ 53 -> (Binary64.ulpExponent x <= 0)%Z.
Proof.
  intros Hx Hb. destruct (ulpExponent_spec x Hx) as (_ & _ & [E|E]).
  - rewrite E. lia.
  - assert (H : 2 ^ (Binary64.ulpExponent x + 52) < 2 ^ 53)
      by (eapply Qle_lt_trans; eassumption).
    apply pow2_lt_inv in H. lia.
Qed.

Lemma inject_Z_scaled (k e : Z) :
  (e <= 0)%Z -> inject_Z (k * 2 ^ (- e)) * 2 ^ e == inject_Z k.
Proof.
  intros He. rewrite inject_Z_mult, <- pow2_inject by lia.
  rewrite <- Qmult_assoc, <- pow2_add.
  replace (- e + e)%Z with 0%Z by lia. change (2 ^ 0) with 1. ring.
Qed.

(** Rounding a number below [2^53] does not cross an integer. *)
Lemma roundDouble_ge_Z (x : Q) (k : Z) :
  0 < x -> x < 2 ^ 53 -> inject_Z k <= x ->
  inject_Z k <= Binary64.roundDouble x.
Proof.
  intros Hx Hb Hk. rewrite (roundDouble_unfold x (Qlt_le_weak _ _ Hx)).
  pose proof (ulpExponent_small x Hx Hb) as He.
  set (e := Binary64.ulpExponent x) in *. pose proof (pow2_pos e) as Hp.
  rewrite <- (inject_Z_scaled k e He).
  apply Qmult_le_compat_r; [|apply Qlt_le_weak; exact Hp].
  rewrite <- Zle_Qle. apply roundHalfEven_ge.
  apply Qle_shift_div_l; [exact Hp|].
  rewrite (inject_Z_scaled k e He). exact Hk.
Qed.

Lemma roundDouble_le_Z (x : Q) (k : Z) :
  0 < x -> x < 2 ^ 53 -> x <= inject_Z k ->
  Binary64.roundDouble x <= inject_Z k.
Proof.
  intros Hx Hb Hk. rewrite (roundDouble_unfold x (Qlt_le_weak _ _ Hx)).
  pose proof (ulpExponent_small x Hx Hb) as He.
  set (e := Binary64.ulpExponent x) in *. pose proof (pow2_pos e) as Hp.
  rewrite <- (inject_Z_scaled k e He).
  apply Qmult_le_compat_r; [|apply Qlt_le_weak; exact Hp].
  rewrite <- Zle_Qle. apply roundHalfEven_le.
  apply Qle_shift_div_r; [exact Hp|].
  rewrite (inject_Z_scaled k e He). exact Hk.
Qed.

Lemma roundDouble_zero (x : Q) : x == 0 -> Binary64.roundDouble x == 0.
Proof.
  intros E. assert (Hx : 0 <= x) by (rewrite E; apply Qle_refl).
  rewrite (roundDouble_unfold x Hx).
  set (e := Binary64.ulpExponent x). pose proof (pow2_pos e) as Hp.
  assert (Hq : x / 2 ^ e == 0) by (rewrite E; apply Qmult_0_l).
  assert (H0 : Binary64.roundHalfEven (x / 2 ^ e) = 0%Z).
  { apply Z.le_antisymm.
    - apply roundHalfEven_le. rewrite Hq. apply Qle_refl.
    - apply roundHalfEven_ge. rewrite Hq. apply Qle_refl. }
  rewrite H0. apply Qmult_0_l.
Qed.

(** The binary64 numbers below [1] end at [1 - 2^-53]. *)
Lemma isDouble_below_one (r : Q) :
  Binary64.isDouble r = true -> 0 <= r -> r < 1 -> r <= 1 - 2 ^ (-53).
Proof.
  intros Hd H0 H1. apply Qeq_bool_iff in Hd.
  assert (E53 : 2 ^ (-53) == 1 # 9007199254740992) by reflexivity.
  destruct (Qlt_le_dec 0 r) as [Hpos|Hz]; [|rewrite E53; lra].
  rewrite (roundDouble_unfold r H0) in Hd.
  destruct (ulpExponent_spec r Hpos) as (_ & Hhi & Hlo). cbv zeta in *.
  set (e := Binary64.ulpExponent r) in *.
  destruct (Z_le_gt_dec e (-54)) as [He|He].
  - assert (H : 2 ^ (e + 53) <= 2 ^ (-1)) by (apply pow2_le; lia).
    assert (E1 : 2 ^ (-1) == 1 # 2) by reflexivity.
    rewrite E1 in H. rewrite E53. lra.
  - destruct Hlo as [E|Hlo]; [lia|].
    assert (H : 2 ^ (e + 52) < 2 ^ 0)
      by (eapply Qle_lt_trans; [exact Hlo | exact H1]).
    apply pow2_lt_inv in H.
    assert (Ee : e = (-53)%Z) by lia.
    rewrite Ee in Hd.
    set (m := Binary64.roundHalfEven (r / 2 ^ (-53))) in *.
    rewrite E53 in Hd. rewrite E53.
    assert (Hm : inject_Z m < inject_Z 9007199254740992).
    { change (inject_Z 9007199254740992) with 9007199254740992. lra. }
    rewrite <- Zlt_Qlt in Hm.
    assert (Hm' : inject_Z m <= inject_Z 9007199254740991)
      by (rewrite <- Zle_Qle; lia).
    change (inject_Z 9007199254740991) with 9007199254740991 in Hm'. lra.
Qed.

(** *** The index *)

Lemma inject_Z_of_nat_pos (n : nat) :
  (0 < n)%nat -> 1 <= inject_Z (Z.of_nat n).
Proof.
  intros H. change 1 with (inject_Z 1). rewrite <- Zle_Qle. lia.
Qed.

(** For a binary64 [random] in [[0, 1)] the rounded product stays below
    the length. *)
Lemma roundDouble_below_length (random : Q) (n : nat) :
  (0 < n)%nat ->
  Binary64.isDouble random = true -> 0 <= random -> random < 1 ->
  Binary64.roundDouble (random * inject_Z (Z.of_nat n))
  < inject_Z (Z.of_nat n).
Proof.
  intros Hn Hd H0 H1.
  pose proof (isDouble_below_one random Hd H0 H1) as Hr.
  pose proof (inject_Z_of_nat_pos n Hn) as HN.
  set (N := inject_Z (Z.of_nat n)) in *.
  assert (E53 : 2 ^ (-53) == 1 # 9007199254740992) by reflexivity.
  rewrite E53 in Hr.
  assert (Hx0 : 0 <= random * N) by (apply Qmult_le_0_compat; lra).
  assert (Hx1 : random * N <= (1 - (1 # 9007199254740992)) * N)
    by (apply Qmult_le_compat_r; lra).
  set (x := random * N) in *.
  destruct (Qlt_le_dec 0 x) as [Hpos|Hz].
  - destruct (roundDouble_error x Hx0) as [Herr _].
    destruct (ulpExponent_spec x Hpos) as (_ & Hhi & Hlo). cbv zeta in *.
    set (e := Binary64.ulpExponent x) in *.
    destruct Hlo as [E|Hlo].
    + rewrite E in Hhi, Herr.
      assert (Ha : 2 ^ (-1074 + 53) <= 2 ^ (-1)) by (apply pow2_le; lia).
      assert (Hb : 2 ^ (-1074) <= 2 ^ 0) by (apply pow2_le; lia).
      assert (E1 : 2 ^ (-1) == 1 # 2) by reflexivity.
      rewrite E1 in Ha. change (2 ^ 0) with 1 in Hb.
      set (u := 2 ^ (-1074)) in *. lra.
    + rewrite pow2_add in Hlo.
      assert (E52 : 2 ^ 52 == 4503599627370496) by reflexivity.
      rewrite E52 in Hlo. set (u := 2 ^ e) in *. lra.
  - assert (E : Binary64.roundDouble x == 0) by (apply roundDouble_zero; lra).
    rewrite E. lra.
Qed.

Lemma randomIndex_range (random : Q) (n : nat) :
  (0 < n)%nat ->
  Binary64.isDouble random = true -> 0 <= random -> random < 1 ->
  (0 <= Binary64.randomIndex random n < Z.of_nat n)%Z.
Proof.
  intros Hn Hd H0 H1. unfold Binary64.randomIndex.
  pose proof (roundDouble_below_length random n Hn Hd H0 H1) as Hb.
  pose proof (inject_Z_of_nat_pos n Hn) as HN.
  split.
  - change 0%Z with (Qfloor 0). apply Qfloor_resp_le.
    apply roundDouble_nonneg. apply Qmult_le_0_compat; lra.
  - rewrite Zlt_Qlt. eapply Qle_lt_trans; [apply Qfloor_le | exact Hb].
Qed.

(** The index is the integer part of the exact product, or one more when
    the product rounds up to that integer. *)
Lemma randomIndex_rounds (random : Q) (n : nat) :
  (0 < n)%nat -> (Z.of_nat n <= 2 ^ 53)%Z -> 0 <= random -> random < 1 ->
  Binary64.randomIndex random n = randomIndexOf random n
  \/ Binary64.randomIndex random n = (randomIndexOf random n + 1)%Z
     /\ Binary64.roundDouble (random * inject_Z (Z.of_nat n))
        == inject_Z (Binary64.randomIndex random n).
Proof.
  intros Hn Hmax H0 H1. unfold Binary64.randomIndex, randomIndexOf.
  pose proof (inject_Z_of_nat_pos n Hn) as HN.
  assert (Hmax' : inject_Z (Z.of_nat n) <= 2 ^ 53).
  { rewrite (pow2_inject 53) by lia. rewrite <- Zle_Qle. exact Hmax. }
  set (N := inject_Z (Z.of_nat n)) in *.
  assert (Hx0 : 0 <= random * N) by (apply Qmult_le_0_compat; lra).
  assert (Hx1 : random * N < 1 * N) by (apply Qmult_lt_compat_r; lra).
  set (x := random * N) in *.
  destruct (Qlt_le_dec 0 x) as [Hpos|Hz].
  - assert (Hb : x < 2 ^ 53) by lra.
    pose proof (roundDouble_ge_Z x (Qfloor x) Hpos Hb (Qfloor_le x)) as Hlo.
    pose proof (roundDouble_le_Z x (Qfloor x + 1) Hpos Hb
                  (Qlt_le_weak _ _ (Qlt_floor x))) as Hhi.
    pose proof (Qfloor_resp_le _ _ Hlo) as Hlo'. rewrite Qfloor_Z in Hlo'.
    pose proof (Qfloor_resp_le _ _ Hhi) as Hhi'. rewrite Qfloor_Z in Hhi'.
    destruct (Z.eq_dec (Qfloor (Binary64.roundDouble x)) (Qfloor x)) as [E|E];
      [left; exact E | right].
    assert (E' : Qfloor (Binary64.roundDouble x) = (Qfloor x + 1)%Z) by lia.
    split; [exact E'|]. rewrite E'. apply Qle_antisym; [exact Hhi|].
    rewrite <- E'. apply Qfloor_le.
  - left. assert (Ex : x == 0) by lra.
    rewrite (roundDouble_zero x Ex), Ex. reflexivity.
Qed.

(** What the rounded selector does, the exact one does for another random
    number of [[0, 1)]: a property of [selectTargetFile] that holds for
    every random number of [[0, 1)] holds of the rounded selector. *)
Lemma selectTargetFile_abstracts (random : Q) (fileList : list string) :
  fileList <> [] ->
  Binary64.isDouble random = true -> 0 <= random -> random < 1 ->
  exists random',
    0 <= random' /\ random' < 1
    /\ Binary64.selectTargetFile random fileList
       = selectTargetFile random' fileList.
Proof.
  intros Hne Hd H0 H1.
  assert (Hn : (0 < length fileList)%nat).
  { destruct fileList; [congruence | simpl; lia]. }
  pose proof (randomIndex_range random _ Hn Hd H0 H1) as [Hi0 Hi1].
  pose proof (inject_Z_of_nat_pos _ Hn) as HN.
  set (i := Binary64.randomIndex random (length fileList)) in *.
  set (N := inject_Z (Z.of_nat (length fileList))) in *.
  assert (HN0 : 0 < N) by lra.
  exists (inject_Z i / N). split; [|split].
  - apply Qle_shift_div_l; [exact HN0|]. rewrite Qmult_0_l.
    change 0 with (inject_Z 0). rewrite <- Zle_Qle. exact Hi0.
  - apply Qlt_shift_div_r; [exact HN0|]. rewrite Qmult_1_l.
    unfold N. rewrite <- Zlt_Qlt. exact Hi1.
  - unfold Binary64.selectTargetFile, selectTargetFile.
    destruct (length fileList =? 0)%nat; [reflexivity|].
    cbv zeta. fold i. f_equal. f_equal.
    change (i = Qfloor (inject_Z i / N * N)).
    assert (E : inject_Z i / N * N == inject_Z i) by (field; lra).
    rewrite (Qfloor_comp _ _ E). symmetry. apply Qfloor_Z.
Qed.

(** C5. [selectTargetFile] throws on the empty list; on a list of one
    element it returns that element whatever binary64 number of [[0, 1)]
    [Math.random()] answered; in general it returns the element at an
    index within the list, and that index is the integer part of the exact
    product [random * length], or one more when the binary64 product
    rounds up to that integer. *)
Theorem selectTargetFile_rounded :
  (forall random,
      Binary64.selectTargetFile random []
      = Throws (Error "No files available to select as target"))
  /\ (forall random x,
        Binary64.isDouble random = true -> 0 <= random -> random < 1 ->
        Binary64.selectTargetFile random [x] = Returns (Some x))
  /\ (forall random fileList,
        fileList <> [] -> (Z.of_nat (length fileList) < 2 ^ 32)%Z ->
        Binary64.isDouble random = true -> 0 <= random -> random < 1 ->
        let index := Binary64.randomIndex random (length fileList) in
        (0 <= index < Z.of_nat (length fileList))%Z
        /\ (exists x,
              nth_error fileList (Z.to_nat index) = Some x
              /\ Binary64.selectTargetFile random fileList
                 = Returns (Some x))
        /\ (index = randomIndexOf random (length fileList)
            \/ index = (randomIndexOf random (length fileList) + 1)%Z
               /\ Binary64.roundDouble
                    (random * inject_Z (Z.of_nat (length fileList)))
                  == inject_Z index)).
Proof.
  split; [reflexivity|]. split.
  - intros random x Hd H0 H1.
    pose proof (randomIndex_range random 1 Nat.lt_0_1 Hd H0 H1) as Hr.
    unfold Binary64.selectTargetFile. cbn [length Nat.eqb].
    assert (E : Binary64.randomIndex random 1 = 0%Z) by lia.
    rewrite E. reflexivity.
  - intros random fileList Hne Hlen Hd H0 H1 index.
    assert (Hn : (0 < length fileList)%nat).
    { destruct fileList; [congruence | simpl; lia]. }
    pose proof (randomIndex_range random _ Hn Hd H0 H1) as Hr.
    split; [exact Hr|]. split.
    + destruct (at_index_nth fileList index Hr) as (x & Ea & En).
      exists x. split; [exact En|].
      unfold Binary64.selectTargetFile.
      destruct (length fileList =? 0)%nat eqn:E0;
        [apply Nat.eqb_eq in E0; lia|].
      fold index. rewrite Ea. reflexivity.
    + apply randomIndex_rounds; [exact Hn | | exact H0 | exact H1].
      apply Z.lt_le_incl. eapply Z.lt_trans; [exact Hlen | reflexivity].
Qed.

End Binary64Properties.

(* ------------------------------------------------------------------ *)
(** ** The program on POSIX paths *)

Section PosixFacts.

Lemma endsWithSlash_sepFree (a : ascii) (w : string) :
  sepFree Posix.slash w = true -> w <> "" ->
  Posix.endsWithSlash (String a w) = false.
Proof.
  revert a. induction w as [|b w IH]; intros a Hfree Hne; [congruence|].
  simpl in Hfree. apply andb_prop in Hfree. destruct Hfree as [Hb Hw].
  apply negb_true_iff in Hb.
  destruct w as [|c w].
  - simpl. exact Hb.
  - change (Posix.endsWithSlash (String b (String c w)) = false).
    apply IH; [exact Hw | discriminate].
Qed.

(** On POSIX a file directly under the root has depth 0. *)
Lemma posix_root_level_depth (name : string) :
  sepFree Posix.slash name = true ->
  getDirectoryDepth (host := posix) (String Posix.slash name) = 0%Z.
Proof.
  intros Hfree. unfold getDirectoryDepth.
  cbn [normalize sep posix].
  assert (Hsplit : split Posix.slash (String Posix.slash name) = [""; name]).
  { cbn [split]. rewrite Ascii.eqb_refl, (split_sepFree _ _ Hfree). reflexivity. }
  assert (Hnorm : Posix.normalize (String Posix.slash name) = "/"
                  \/ (name <> ""
                      /\ Posix.normalize (String Posix.slash name)
                         = String Posix.slash name)).
  { unfold Posix.normalize, Posix.normalizeString. rewrite Hsplit.
    cbn [nonEmpty negb Posix.startsWithSlash].
    change (Posix.isSlash Posix.slash) with true.
    cbn [negb Posix.normalizeSegments].
    change (String.eqb "" "") with true. cbn [orb].
    destruct (String.eqb_spec name "") as [->|Hne]; [left; reflexivity|].
    cbn [orb].
    destruct (String.eqb_spec name ".") as [->|Hdot]; [left; reflexivity|].
    destruct (String.eqb_spec name "..") as [->|Hdots]; [left; reflexivity|].
    right. split; [exact Hne|].
    cbn [rev app String.concat].
    rewrite (nonEmpty_true _ Hne). cbn [negb].
    rewrite (endsWithSlash_sepFree _ _ Hfree Hne). reflexivity. }
  destruct Hnorm as [->|[Hne ->]].
  - reflexivity.
  - rewrite Hsplit. cbn [filter nonEmpty]. rewrite (nonEmpty_true _ Hne).
    reflexivity.
Qed.

End PosixFacts.

(** The scenarios of the game on POSIX paths. *)
Example scenario_first :
  compareGuesses (host := posix) "/home/docs/b.txt" None "/home/docs/z.txt"
  = first.
Proof. reflexivity. Qed.

Example scenario_same_folder :
  calculateDistance (host := posix) "/home/docs/a.txt" "/home/docs/m.txt"
  = ByName 12 "/home/docs" "/home/docs"
  /\ calculateDistance (host := posix) "/home/docs/k.txt" "/home/docs/m.txt"
     = ByName 2 "/home/docs" "/home/docs"
  /\ compareGuesses (host := posix) "/home/docs/k.txt"
       (Some "/home/docs/a.txt") "/home/docs/m.txt" = closer.
Proof. vm_compute. auto. Qed.

Example scenario_other_folder :
  calculateDistance (host := posix) "/x/file.txt" "/a/b/c/file.txt"
  = ByDepth 2 1 3
  /\ compareGuesses (host := posix) "/a/b/c/other.txt"
       (Some "/x/file.txt") "/a/b/c/file.txt" = closer.
Proof. vm_compute. auto. Qed.

(** C1, on an instance: the previous guess is in another folder at the
    same depth as the target (depth distance 0), the new guess in the
    target's folder, 25 letters away. *)
Lemma compareGuesses_methods_differ_witness :
  calculateDistance (host := posix) "/x/y/f.txt" "/a/b/z.txt" = ByDepth 0 2 2
  /\ calculateDistance (host := posix) "/a/b/a.txt" "/a/b/z.txt"
     = ByName 25 "/a/b" "/a/b"
  /\ compareGuesses (host := posix) "/a/b/a.txt" (Some "/x/y/f.txt") "/a/b/z.txt"
     = closer.
Proof.
  split; [vm_compute; reflexivity|]. split; [vm_compute; reflexivity|].
  refine (proj1 (compareGuesses_methods_differ (host := posix)
                   "/a/b/a.txt" "/x/y/f.txt" "/a/b/z.txt" _ _) _).
  - discriminate.
  - vm_compute. discriminate.
  - vm_compute. reflexivity.
Defined.

(** C10, on an instance. *)
Lemma compareGuesses_swap_witness :
  (compareGuesses (host := posix) "/a/b/a.txt" (Some "/x/y/f.txt") "/a/b/z.txt"
   = closer
   <-> compareGuesses (host := posix) "/x/y/f.txt" (Some "/a/b/a.txt")
         "/a/b/z.txt" = farther)
  /\ (compareGuesses (host := posix) "/a/b/a.txt" (Some "/x/y/f.txt") "/a/b/z.txt"
      = same
      <-> compareGuesses (host := posix) "/x/y/f.txt" (Some "/a/b/a.txt")
            "/a/b/z.txt" = same)
  /\ compareGuesses (host := posix) "/a/b/a.txt" (Some "/a/b/a.txt") "/a/b/z.txt"
     = same.
Proof.
  apply (compareGuesses_swap (host := posix) "/a/b/a.txt" "/x/y/f.txt" "/a/b/z.txt");
    discriminate.
Defined.

(** C8, on an instance: four segments, depth 3. *)
Lemma getDirectoryDepth_segments_witness :
  getDirectoryDepth (host := posix) "/a//b/./c/file.txt" = 3%Z.
Proof.
  apply (proj1 (getDirectoryDepth_segments (host := posix) "/a//b/./c/file.txt")
           ["a"; "b"; "c"; "file.txt"]).
  change (normalize (Host := posix) "/a//b/./c/file.txt") with "/a/b/c/file.txt".
  apply seg_sep.
  apply (seg_more _ "a"); [reflexivity | discriminate|].
  apply (seg_more _ "b"); [reflexivity | discriminate|].
  apply (seg_more _ "c"); [reflexivity | discriminate|].
  apply seg_last; [reflexivity | discriminate].
Defined.

(** C5, on an instance: three candidates, [Math.random()] answering
    [0.6666666666666666]. *)
Lemma selectTargetFile_rounded_witness :
  Binary64.selectTargetFile
    (6004799503160661 # 9007199254740992)%Q ["a"; "b"; "c"]
  = Returns (Some "c")
  /\ exists x,
       nth_error ["a"; "b"; "c"]
         (Z.to_nat (Binary64.randomIndex
                      (6004799503160661 # 9007199254740992)%Q 3)) = Some x
       /\ Binary64.selectTargetFile
            (6004799503160661 # 9007199254740992)%Q ["a"; "b"; "c"]
          = Returns (Some x).
Proof.
  split; [vm_compute; reflexivity|].
  refine (proj1 (proj2 (proj2 (proj2 selectTargetFile_rounded)
                          (6004799503160661 # 9007199254740992)%Q
                          ["a"; "b"; "c"] _ _ _ _ _))).
  - discriminate.
  - reflexivity.
  - vm_compute. reflexivity.
  - discriminate.
  - reflexivity.
Defined.

(** The index is not spread evenly over [[0, 1)]: [0.6666666666666666]
    is a binary64 number of the middle third, its exact product with [3]
    is below [2], and the binary64 product is [2]: the last of three
    candidates is selected, not the middle one. *)
Lemma selectTargetFile_not_uniform :
  Binary64.isDouble (6004799503160661 # 9007199254740992)%Q = true
  /\ (inject_Z 1 / inject_Z 3
      <= (6004799503160661 # 9007199254740992))%Q
  /\ ((6004799503160661 # 9007199254740992)
      < inject_Z 2 / inject_Z 3)%Q
  /\ randomIndexOf (6004799503160661 # 9007199254740992)%Q 3 = 1%Z
  /\ Binary64.randomIndex (6004799503160661 # 9007199254740992)%Q 3 = 2%Z
  /\ Binary64.selectTargetFile
       (6004799503160661 # 9007199254740992)%Q ["a"; "b"; "c"]
     = Returns (Some "c").
Proof.
  repeat split; try (vm_compute; reflexivity); vm_compute; discriminate.
Qed.

(* ------------------------------------------------------------------ *)
(** ** A small file system *)

Definition fileEntry (n : string) : Dirent :=
  {| name := n; isFile := inr true; isDirectory := inr false |}.

Definition dirEntry (n : string) : Dirent :=
  {| name := n; isFile := inr false; isDirectory := inr true |}.

(** An entry whose type queries throw. *)
Definition brokenEntry (n : string) : Dirent :=
  {| name := n; isFile := inl (Error "EIO"); isDirectory := inl (Error "EIO") |}.

(** [Documents] holds two files, a subdirectory, a [.git] directory and a
    broken entry; [Music] exists and cannot be listed. *)
Definition demoFs : FileSystem := {|
  readdir := fun dir =>
    if String.eqb dir "/home/u/Documents" then
      inr [fileEntry "a.txt"; dirEntry "sub"; dirEntry ".git";
           brokenEntry "broken"; fileEntry "z.txt"]
    else if String.eqb dir "/home/u/Documents/sub" then
      inr [fileEntry "b.txt"; dirEntry "deep"]
    else if String.eqb dir "/home/u/Documents/sub/deep" then
      inr [fileEntry "c.txt"]
    else if String.eqb dir "/home/u/Documents/.git" then
      inr [fileEntry "HEAD"]
    else if String.eqb dir "/home/u/Music" then inl (Error "EACCES")
    else inl (Error "ENOENT");
  existsSync := fun dir =>
    String.eqb dir "/home/u/Documents" || String.eqb dir "/home/u/Music"
|}.

Definition demoEnv : Env := {| HOME := Some "/home/u"; USERPROFILE := None |}.

Example demo_scanCommonDirectories :
  fst (scanCommonDirectories (host := posix) demoFs demoEnv false [])
  = Returns ["/home/u/Documents/a.txt"; "/home/u/Documents/sub/b.txt";
             "/home/u/Documents/sub/deep/c.txt"; "/home/u/Documents/z.txt"].
Proof. vm_compute. reflexivity. Qed.

Example demo_progress :
  snd (scanDirectory (host := posix) demoFs true "/home/u/Documents" 1 0 [] 5 [])
  = [("/home/u/Documents", 0); ("/home/u/Documents/a.txt", 1);
     ("/home/u/Documents/z.txt", 2)].
Proof. vm_compute. reflexivity. Qed.

Example demo_depth_limit :
  fst (scanDirectory (host := posix) demoFs false "/home/u/Documents" 2 0 [] 5 [])
  = Returns ["/home/u/Documents/a.txt"; "/home/u/Documents/sub/b.txt";
             "/home/u/Documents/z.txt"].
Proof. vm_compute. reflexivity. Qed.

Example demo_file_cap :
  fst (scanDirectory (host := posix) demoFs false "/home/u/Documents" 7 0 [] 2 [])
  = Returns ["/home/u/Documents/a.txt"; "/home/u/Documents/sub/b.txt"].
Proof. vm_compute. reflexivity. Qed.

Example demo_no_files :
  fst (scanCommonDirectories (host := posix)
         {| readdir := readdir demoFs;
            existsSync := fun dir => String.eqb dir "/home/u/Music" |}
         demoEnv false [])
  = Throws (Error "No files found in any accessible directories").
Proof. vm_compute. reflexivity. Qed.

Example demo_no_roots :
  fst (scanCommonDirectories (host := posix) demoFs
         {| HOME := None; USERPROFILE := Some "" |} false [])
  = Throws (Error "No accessible directories found").
Proof. vm_compute. reflexivity. Qed.

Lemma demoFs_plain : PlainListings (host := posix) demoFs.
Proof.
intros dir entries entry. unfold demoFs, readdir.
repeat match goal with
       | |- context [String.eqb dir ?s] =>
           destruct (String.eqb_spec dir s) as [->|_]
       end;
  intros E; inversion E; subst; clear E; cbn [In];
  intros H; repeat (destruct H as [<-|H]); try contradiction;
  (split; [split; [reflexivity | discriminate] | vm_compute; reflexivity]).
Qed.

Example demo_plain_paths (p : string) :
  In p ["/home/u/Documents/a.txt"; "/home/u/Documents/sub/b.txt";
        "/home/u/Documents/sub/deep/c.txt"; "/home/u/Documents/z.txt"] ->
  exists rest,
    p = ("/home/u/Documents" ++ rest)%string
    /\ forall segments,
         Segments "/" rest segments ->
         length segments <= 7
         /\ forall d, In d (removelast segments) -> ~ In d skipDirs.
Proof.
apply (scanDirectory_plain_paths (host := posix) demoFs false
         "/home/u/Documents" 7 20000 [] []).
- exact demoFs_plain.
- vm_compute. reflexivity.
Qed.

(** C9, on an instance: a second guess is never [first]. *)
Lemma compareGuesses_first_witness :
  compareGuesses (host := posix) "/home/docs/b.txt" None "/home/docs/z.txt"
  = first
  /\ compareGuesses (host := posix) "/home/docs/k.txt" (Some "/home/docs/a.txt")
       "/home/docs/m.txt" <> first.
Proof.
split.
- exact (proj1 (compareGuesses_first (host := posix) "/home/docs/b.txt"
                  "/home/docs/z.txt")).
- apply (proj2 (compareGuesses_first (host := posix) "/home/docs/k.txt"
                  "/home/docs/m.txt")).
  discriminate.
Defined.

(* ================================================================== *)
(** * Further properties of the engine *)

(* ------------------------------------------------------------------ *)
(** ** The order behind the verdicts *)

Lemma verdictOf_closer_trans (d e f : Distance) :
  verdictOf d e = closer -> verdictOf e f = closer -> verdictOf d f = closer.
Proof.
unfold verdictOf.
destruct (method d), (method e), (method f); try discriminate; try reflexivity;
  destruct (distance d ?= distance e)%Z eqn:E1; try discriminate;
  destruct (distance e ?= distance f)%Z eqn:E2; try discriminate;
  intros _ _;
  rewrite Z.compare_lt_iff in E1, E2;
  assert (E3 : (distance d ?= distance f)%Z = Lt)
    by (apply Z.compare_lt_iff; lia);
  rewrite E3; reflexivity.
Qed.

Lemma verdictOf_same_trans (d e f : Distance) :
  verdictOf d e = same -> verdictOf e f = same -> verdictOf d f = same.
Proof.
unfold verdictOf.
destruct (method d), (method e), (method f); try discriminate;
  destruct (distance d ?= distance e)%Z eqn:E1; try discriminate;
  destruct (distance e ?= distance f)%Z eqn:E2; try discriminate;
  intros _ _;
  rewrite Z.compare_eq_iff in E1, E2;
  assert (E3 : (distance d ?= distance f)%Z = Eq)
    by (apply Z.compare_eq_iff; lia);
  rewrite E3; reflexivity.
Qed.

Lemma verdictOf_same_closer (d e f : Distance) :
  verdictOf d e = same -> verdictOf e f = closer -> verdictOf d f = closer.
Proof.
unfold verdictOf.
destruct (method d), (method e), (method f); try discriminate; try reflexivity;
  destruct (distance d ?= distance e)%Z eqn:E1; try discriminate;
  destruct (distance e ?= distance f)%Z eqn:E2; try discriminate;
  intros _ _;
  rewrite Z.compare_eq_iff in E1; rewrite Z.compare_lt_iff in E2;
  assert (E3 : (distance d ?= distance f)%Z = Lt)
    by (apply Z.compare_lt_iff; lia);
  rewrite E3; reflexivity.
Qed.

Lemma verdictOf_same_method (d e : Distance) :
  method d = method e ->
  (verdictOf d e = closer <-> (distance d < distance e)%Z)
  /\ (verdictOf d e = farther <-> (distance d > distance e)%Z)
  /\ (verdictOf d e = same <-> distance d = distance e).
Proof.
unfold verdictOf.
destruct (method d), (method e); try discriminate; intros _;
  destruct (Z.compare_spec (distance d) (distance e));
  repeat split; intros; try congruence; try lia.
Qed.

Section OrderProperties.

Context {host : Host}.

(** X1. The verdicts follow one order on guesses: if [a] is closer than
    [b] and [b] closer than [c], then [a] is closer than [c]; [same] is
    transitive too, and a guess at the same distance as [b] is closer than
    whatever [b] is closer than. *)
Theorem compareGuesses_transitive (a b c t : string) :
  b <> "" -> c <> "" ->
  (compareGuesses a (Some b) t = closer ->
   compareGuesses b (Some c) t = closer ->
   compareGuesses a (Some c) t = closer)
  /\ (compareGuesses a (Some b) t = same ->
      compareGuesses b (Some c) t = same ->
      compareGuesses a (Some c) t = same)
  /\ (compareGuesses a (Some b) t = same ->
      compareGuesses b (Some c) t = closer ->
      compareGuesses a (Some c) t = closer).
Proof.
intros Hb Hc.
rewrite (compareGuesses_present a b t Hb), (compareGuesses_present b c t Hc),
        (compareGuesses_present a c t Hc).
split; [apply verdictOf_closer_trans|].
split; [apply verdictOf_same_trans | apply verdictOf_same_closer].
Qed.

(** X2. When the two distances use the same method, the magnitudes
    decide: smaller is [closer], larger is [farther], equal is [same]. *)
Theorem compareGuesses_same_method (newGuess previousGuess target : string) :
  previousGuess <> "" ->
  method (calculateDistance newGuess target)
  = method (calculateDistance previousGuess target) ->
  (compareGuesses newGuess (Some previousGuess) target = closer
   <-> (distance (calculateDistance newGuess target)
        < distance (calculateDistance previousGuess target))%Z)
  /\ (compareGuesses newGuess (Some previousGuess) target = farther
      <-> (distance (calculateDistance newGuess target)
           > distance (calculateDistance previousGuess target))%Z)
  /\ (compareGuesses newGuess (Some previousGuess) target = same
      <-> distance (calculateDistance newGuess target)
          = distance (calculateDistance previousGuess target)).
Proof.
intros Hp Hm. rewrite (compareGuesses_present _ _ _ Hp).
apply verdictOf_same_method. exact Hm.
Qed.

(** X3. The distance is symmetric in its two paths: same method, same
    magnitude. *)
Theorem calculateDistance_symmetric (a b : string) :
  method (calculateDistance a b) = method (calculateDistance b a)
  /\ distance (calculateDistance a b) = distance (calculateDistance b a).
Proof.
unfold calculateDistance, strictEq.
rewrite (String.eqb_sym (toLowerCase (getParentDirectory b))).
destruct (String.eqb _ _); simpl; split; try reflexivity;
  rewrite <- Z.abs_opp; f_equal; lia.
Qed.

End OrderProperties.

Lemma compareGuesses_transitive_witness :
  compareGuesses (host := posix) "/a/b/y.txt" (Some "/x/f.txt") "/a/b/z.txt"
  = closer.
Proof.
refine (proj1 (compareGuesses_transitive (host := posix)
                 "/a/b/y.txt" "/a/b/a.txt" "/x/f.txt" "/a/b/z.txt" _ _) _ _).
- discriminate.
- discriminate.
- vm_compute. reflexivity.
- vm_compute. reflexivity.
Defined.

Lemma compareGuesses_same_method_witness :
  compareGuesses (host := posix) "/home/docs/k.txt" (Some "/home/docs/a.txt")
    "/home/docs/m.txt" = closer.
Proof.
refine (proj2 (proj1 (compareGuesses_same_method (host := posix)
                        "/home/docs/k.txt" "/home/docs/a.txt"
                        "/home/docs/m.txt" _ _)) _).
- discriminate.
- vm_compute. reflexivity.
- vm_compute. reflexivity.
Defined.

(* ------------------------------------------------------------------ *)
(** ** More on [scanDirectory]: what it leaves alone and what it finds *)

Section ScannerCoverage.

Context {host : Host}.
Variable fs : FileSystem.
Variable progressCallback : bool.

Lemma Extends_length maxFiles P st st' :
  Extends maxFiles P st st' -> length (fileList st) <= length (fileList st').
Proof. intros (new & -> & _ & _). rewrite length_app. lia. Qed.

Lemma Extends_In maxFiles P st st' p :
  Extends maxFiles P st st' -> In p (fileList st) -> In p (fileList st').
Proof. intros (new & -> & _ & _) H. apply in_or_app. left. exact H. Qed.

(** Nothing is added when the depth limit or the cap is already reached,
    or when the directory cannot be listed. *)
Lemma scanDirectoryM_unchanged (fuel : nat) (dirPath : string)
    (maxDepth currentDepth maxFiles : nat) (st : ScanState) :
  maxDepth <= currentDepth \/ maxFiles <= length (fileList st)
  \/ (exists e, readdir fs dirPath = inl e) ->
  maxDepth - currentDepth <= fuel ->
  fileList (snd (scanDirectoryM fs progressCallback fuel dirPath maxDepth
                   currentDepth maxFiles st))
  = fileList st.
Proof.
intros Hcase Hfuel.
destruct fuel as [|fuel]; cbn [scanDirectoryM];
  unfold bind at 1, fileListLength at 1;
  destruct ((maxDepth <=? currentDepth) || (maxFiles <=? length (fileList st)))
    eqn:Eguard; try reflexivity.
apply orb_false_iff in Eguard. destruct Eguard as [Ed Ef].
apply Nat.leb_gt in Ed. apply Nat.leb_gt in Ef.
destruct Hcase as [H|[H|[e He]]]; try lia.
unfold bind at 1.
destruct (when_report (progressCallback && (currentDepth =? 0)) dirPath st)
  as [log ->].
unfold bind at 1, tryCatch at 1, bind at 1. rewrite He. reflexivity.
Qed.

(** X4. Whatever list it is given, [scanDirectory] returns that list with
    new paths appended: nothing is removed or reordered, and the result is
    no longer than [maxFiles] unless the list given already was.  Nothing
    at all is appended when the depth limit is reached, when the list
    already holds [maxFiles] paths, or when the directory cannot be
    listed. *)
Theorem scanDirectory_appends (dirPath : string) (maxDepth currentDepth : nat)
    (given : list string) (maxFiles : nat) (log : list ProgressCall) :
  exists new log',
    scanDirectory fs progressCallback dirPath maxDepth currentDepth given
      maxFiles log
    = (Returns (given ++ new), log')
    /\ length (given ++ new) <= Nat.max (length given) maxFiles
    /\ (maxDepth <= currentDepth \/ maxFiles <= length given
        \/ (exists e, readdir fs dirPath = inl e) ->
        new = []).
Proof.
unfold scanDirectory.
destruct (scanDirectoryM_ok fs progressCallback maxDepth maxFiles
            (maxDepth - currentDepth) dirPath currentDepth
            {| fileList := given; calls := log |} (le_n _))
  as (st' & Erun & new & Enew & _ & L).
cbn [fileList] in Enew, L.
exists new, (calls st'). rewrite Erun, Enew.
split; [reflexivity|]. split; [rewrite <- Enew; exact L|].
intros Hcase.
pose proof (scanDirectoryM_unchanged (maxDepth - currentDepth) dirPath maxDepth
              currentDepth maxFiles {| fileList := given; calls := log |}
              Hcase (le_n _)) as Hsame.
rewrite Erun in Hsame. cbn [snd fileList] in Hsame.
rewrite Enew in Hsame. rewrite <- (app_nil_r given) in Hsame at 2.
apply app_inv_head in Hsame. exact Hsame.
Qed.

Section Coverage.

Variables maxDepth maxFiles : nat.

(** [Covers Q st]: unless the list is full, it holds every path of [Q]. *)
Definition Covers (Q : string -> Prop) (st : ScanState) : Prop :=
  length (fileList st) < maxFiles -> forall p, Q p -> In p (fileList st).

(** What the loop body is to find for one entry at depth [currentDepth]:
    the entry itself when it is a file, the files within the depth limit
    below it when it is a directory that is not skip-listed. *)
Definition FromEntry (dirPath : string) (currentDepth : nat) (entry : Dirent)
    (p : string) : Prop :=
  (isFile entry = inr true /\ p = join dirPath (name entry))
  \/ (isFile entry = inr false /\ isDirectory entry = inr true
      /\ includes skipDirs (name entry) = false
      /\ FoundWithin fs maxDepth (join dirPath (name entry))
           (currentDepth + 1) p).

Section OneDirectoryCoverage.

Variables (currentDepth : nat) (dirPath : string).
Variable entries : list Dirent.
Variable recurse : string -> M ScanState unit.

Hypothesis listed : readdir fs dirPath = inr entries.
Hypothesis shallow : currentDepth < maxDepth.

Hypothesis recurse_covers :
  forall entry, In entry entries ->
    isFile entry = inr false -> isDirectory entry = inr true ->
    includes skipDirs (name entry) = false ->
    forall st, exists st',
      recurse (join dirPath (name entry)) st = (Returns tt, st')
      /\ Extends maxFiles
           (FoundWithin fs maxDepth (join dirPath (name entry))
              (currentDepth + 1)) st st'
      /\ Covers (FoundWithin fs maxDepth (join dirPath (name entry))
                   (currentDepth + 1)) st'.

Lemma visitEntry_covers (entry : Dirent) (st : ScanState) :
  In entry entries -> length (fileList st) < maxFiles ->
  exists st',
    visitEntry progressCallback recurse dirPath currentDepth entry st
    = (Returns tt, st')
    /\ Extends maxFiles (FoundWithin fs maxDepth dirPath currentDepth) st st'
    /\ Covers (FromEntry dirPath currentDepth entry) st'.
Proof.
intros Hin Hroom.
assert (Hrec : forall e, In e entries ->
          isFile e = inr false -> isDirectory e = inr true ->
          includes skipDirs (name e) = false ->
          forall st0, exists st1,
            recurse (join dirPath (name e)) st0 = (Returns tt, st1)
            /\ Extends maxFiles
                 (FoundWithin fs maxDepth (join dirPath (name e))
                    (currentDepth + 1)) st0 st1).
{ intros e H1 H2 H3 H4 st0.
  destruct (recurse_covers e H1 H2 H3 H4 st0) as (st1 & E & X & _). eauto. }
destruct (visitEntry_ok fs progressCallback maxDepth maxFiles currentDepth
            dirPath entries recurse listed shallow Hrec entry st Hin Hroom)
  as (st' & Erun & Hext).
exists st'. split; [exact Erun|]. split; [exact Hext|].
intros Hlt p [[EF ->]|(EF & ED & ES & Hp)].
- revert Erun. unfold visitEntry, tryCatch, bind. rewrite EF.
  cbn [liftE throw ret]. unfold push at 1, fileListLength at 1.
  match goal with |- context [when ?b (report ?l) ?s] =>
    destruct (when_report b l s) as [log ->] end.
  intros E. inversion E. cbn [fileList].
  apply in_or_app. right. left. reflexivity.
- revert Erun. unfold visitEntry, tryCatch, bind. rewrite EF, ED.
  cbn [liftE throw ret]. rewrite ES. cbn [negb].
  destruct (recurse_covers entry Hin EF ED ES st) as (st1 & -> & Hx & Hc).
  intros E. inversion E; subst st1.
  apply Hc; [exact Hlt | exact Hp].
Qed.

Lemma forEntries_covers (rest : list Dirent) :
  incl rest entries ->
  forall st, exists st',
    forEntries progressCallback recurse dirPath currentDepth maxFiles rest st
    = (Returns tt, st')
    /\ Extends maxFiles (FoundWithin fs maxDepth dirPath currentDepth) st st'
    /\ Covers (fun p => exists entry,
                 In entry rest /\ FromEntry dirPath currentDepth entry p) st'.
Proof.
induction rest as [|entry rest IH]; intros Hincl st.
- exists st. split; [reflexivity|]. split; [apply Extends_refl|].
  intros _ p (entry & [] & _).
- cbn [forEntries]. unfold bind at 1, fileListLength at 1.
  destruct (maxFiles <=? length (fileList st)) eqn:Efull.
  + apply Nat.leb_le in Efull.
    exists st. split; [reflexivity|]. split; [apply Extends_refl|].
    intros Hlt. lia.
  + apply Nat.leb_gt in Efull. unfold bind at 1.
    destruct (visitEntry_covers entry st) as (st1 & -> & H1 & C1);
      [apply Hincl; left; reflexivity | exact Efull |].
    destruct (IH (fun e He => Hincl e (or_intror He)) st1)
      as (st2 & -> & H2 & C2).
    exists st2. split; [reflexivity|].
    split; [exact (Extends_trans _ _ _ _ _ H1 H2)|].
    intros Hlt p (e & [<-|He] & Hp).
    * apply (Extends_In _ _ _ _ _ H2). apply C1; [|exact Hp].
      pose proof (Extends_length _ _ _ _ H2). lia.
    * apply C2; [exact Hlt|]. exists e. split; assumption.
Qed.

End OneDirectoryCoverage.

Lemma scanDirectoryM_covers :
  forall fuel dirPath currentDepth st,
    maxDepth - currentDepth <= fuel ->
    exists st',
      scanDirectoryM fs progressCallback fuel dirPath maxDepth currentDepth
        maxFiles st
      = (Returns (fileList st'), st')
      /\ Extends maxFiles (FoundWithin fs maxDepth dirPath currentDepth) st st'
      /\ Covers (FoundWithin fs maxDepth dirPath currentDepth) st'.
Proof.
induction fuel as [|fuel IH]; intros dirPath currentDepth st Hfuel.
- cbn [scanDirectoryM]. unfold bind at 1, fileListLength at 1.
  assert (E : (maxDepth <=? currentDepth) = true) by (apply Nat.leb_le; lia).
  rewrite E. cbn [orb]. exists st. split; [reflexivity|].
  split; [apply Extends_refl|].
  intros _ p (dirs & _ & Hd). lia.
- cbn [scanDirectoryM]. unfold bind at 1, fileListLength at 1.
  destruct ((maxDepth <=? currentDepth)
            || (maxFiles <=? length (fileList st))) eqn:Eguard.
  + exists st. split; [reflexivity|]. split; [apply Extends_refl|].
    apply orb_true_iff in Eguard. destruct Eguard as [Ed|Ef].
    * apply Nat.leb_le in Ed. intros _ p (dirs & _ & Hd). lia.
    * apply Nat.leb_le in Ef. intros Hlt. lia.
  + apply orb_false_iff in Eguard. destruct Eguard as [Edepth _].
    apply Nat.leb_gt in Edepth.
    unfold bind at 1.
    destruct (when_report (progressCallback && (currentDepth =? 0))
                dirPath st) as [log ->].
    set (st0 := {| fileList := fileList st; calls := log |}).
    assert (H0 : Extends maxFiles
                   (FoundWithin fs maxDepth dirPath currentDepth) st st0)
      by apply Extends_calls.
    unfold bind at 1, tryCatch at 1, bind at 1.
    destruct (readdir fs dirPath) as [e|entries] eqn:Edir;
      cbn [liftE throw ret].
    * exists st0. split; [reflexivity|]. split; [exact H0|].
      intros _ p (dirs & Hf & _). inversion Hf; congruence.
    * set (recurse := fun fullPath : string =>
                        bind (scanDirectoryM fs progressCallback fuel fullPath
                                maxDepth (currentDepth + 1) maxFiles)
                             (fun _ => ret tt)).
      assert (Hrec : forall entry, In entry entries ->
                isFile entry = inr false -> isDirectory entry = inr true ->
                includes skipDirs (name entry) = false ->
                forall st2, exists st3,
                  recurse (join dirPath (name entry)) st2 = (Returns tt, st3)
                  /\ Extends maxFiles
                       (FoundWithin fs maxDepth (join dirPath (name entry))
                          (currentDepth + 1)) st2 st3
                  /\ Covers (FoundWithin fs maxDepth
                               (join dirPath (name entry)) (currentDepth + 1))
                       st3).
      { intros entry _ _ _ _ st2. unfold recurse, bind.
        destruct (IH (join dirPath (name entry)) (currentDepth + 1) st2)
          as (st3 & -> & H3 & C3); [lia|].
        exists st3. split; [reflexivity|]. split; assumption. }
      destruct (forEntries_covers currentDepth dirPath entries recurse Edir
                  Edepth Hrec entries (incl_refl entries) st0)
        as (st1 & -> & H1 & C1).
      exists st1. split; [reflexivity|].
      split; [exact (Extends_trans _ _ _ _ _ H0 H1)|].
      intros Hlt p (dirs & Hf & Hd). apply C1; [exact Hlt|].
      inversion Hf as [entries0 entry Hd0 Hin HF Hp
                      |entries0 entry dirs0 p0 Hd0 Hin HF HD HS Hsub Hdirs Hp];
        rewrite Edir in Hd0; inversion Hd0; subst entries0;
        exists entry; (split; [exact Hin|]).
      -- left. split; [exact HF | reflexivity].
      -- right. repeat split; try assumption.
         exists dirs0. split; [exact Hsub|]. subst dirs. simpl in Hd. lia.
Qed.

End Coverage.

(** X5. Unless the cap was reached, nothing is missed: when
    [scanDirectory], started on an empty list, returns fewer than
    [maxFiles] paths, every file that lies fewer than [maxDepth]
    directories below the root, inside directories that are not
    skip-listed, is in the result. *)
Theorem scanDirectory_complete (root : string) (maxDepth maxFiles : nat)
    (log log' : list ProgressCall) (files : list string) :
  scanDirectory fs progressCallback root maxDepth 0 [] maxFiles log
  = (Returns files, log') ->
  length files < maxFiles ->
  forall dirs p,
    Found fs root dirs p -> length dirs < maxDepth -> In p files.
Proof.
unfold scanDirectory. intros E Hlt dirs p Hf Hd.
destruct (scanDirectoryM_covers maxDepth maxFiles (maxDepth - 0) root 0
            {| fileList := []; calls := log |} (le_n _))
  as (st' & Erun & _ & Hc).
rewrite Erun in E. inversion E; subst.
apply Hc; [exact Hlt|]. exists dirs. split; [exact Hf | simpl; lia].
Qed.

End ScannerCoverage.

(** X5, on the small file system: the file three levels down is found. *)
Lemma scanDirectory_complete_witness :
  In "/home/u/Documents/sub/deep/c.txt"
     ["/home/u/Documents/a.txt"; "/home/u/Documents/sub/b.txt";
      "/home/u/Documents/sub/deep/c.txt"; "/home/u/Documents/z.txt"].
Proof.
apply (scanDirectory_complete (host := posix) demoFs false
         "/home/u/Documents" 7 10 [] []
         ["/home/u/Documents/a.txt"; "/home/u/Documents/sub/b.txt";
          "/home/u/Documents/sub/deep/c.txt"; "/home/u/Documents/z.txt"])
  with (dirs := ["sub"; "deep"]).
- vm_compute. reflexivity.
- simpl. lia.
- apply (found_below (host := posix) demoFs "/home/u/Documents"
           [fileEntry "a.txt"; dirEntry "sub"; dirEntry ".git";
            brokenEntry "broken"; fileEntry "z.txt"] (dirEntry "sub"));
    try reflexivity; [simpl; auto|].
  apply (found_below (host := posix) demoFs "/home/u/Documents/sub"
           [fileEntry "b.txt"; dirEntry "deep"] (dirEntry "deep"));
    try reflexivity; [simpl; auto|].
  apply (found_here (host := posix) demoFs "/home/u/Documents/sub/deep"
           [fileEntry "c.txt"] (fileEntry "c.txt"));
    try reflexivity. simpl; auto.
- simpl. lia.
Defined.

(* ------------------------------------------------------------------ *)
(** ** The progress callback *)

Section CallbackProperties.

Context {host : Host}.
Variable fs : FileSystem.

(** Two runs agree when, from states with the same [fileList], they end
    the same way in states with the same [fileList]. *)
Definition Agree {A} (m1 m2 : M ScanState A) : Prop :=
  forall st1 st2,
    fileList st1 = fileList st2 ->
    fst (m1 st1) = fst (m2 st2)
    /\ fileList (snd (m1 st1)) = fileList (snd (m2 st2)).

Lemma Agree_ret {A} (a : A) : Agree (ret a) (ret a).
Proof. intros st1 st2 H. split; [reflexivity | exact H]. Qed.

Lemma Agree_bind {A B} (m1 m2 : M ScanState A) (k1 k2 : A -> M ScanState B) :
  Agree m1 m2 -> (forall a, Agree (k1 a) (k2 a)) ->
  Agree (bind m1 k1) (bind m2 k2).
Proof.
intros Hm Hk st1 st2 H. unfold bind.
destruct (Hm st1 st2 H) as [Hr Hs].
destruct (m1 st1) as [r1 s1], (m2 st2) as [r2 s2]. simpl in Hr, Hs. subst r2.
destruct r1; [apply Hk; exact Hs | split; [reflexivity | exact Hs] ..].
Qed.

Lemma Agree_tryCatch {A} (m1 m2 : M ScanState A)
    (h1 h2 : JsError -> M ScanState A) :
  Agree m1 m2 -> (forall e, Agree (h1 e) (h2 e)) ->
  Agree (tryCatch m1 h1) (tryCatch m2 h2).
Proof.
intros Hm Hh st1 st2 H. unfold tryCatch.
destruct (Hm st1 st2 H) as [Hr Hs].
destruct (m1 st1) as [r1 s1], (m2 st2) as [r2 s2]. simpl in Hr, Hs. subst r2.
destruct r1; [split; [reflexivity | exact Hs] | apply Hh; exact Hs
             | split; [reflexivity | exact Hs]].
Qed.

Lemma Agree_liftE {A} (r : JsError + A) : Agree (liftE r) (liftE r).
Proof. intros st1 st2 H. destruct r; (split; [reflexivity | exact H]). Qed.

Lemma Agree_fileListLength : Agree fileListLength fileListLength.
Proof.
intros st1 st2 H. unfold fileListLength. simpl. rewrite H. auto.
Qed.

Lemma Agree_returnFileList : Agree returnFileList returnFileList.
Proof.
intros st1 st2 H. unfold returnFileList. simpl. rewrite H. auto.
Qed.

Lemma Agree_push (p : string) : Agree (push p) (push p).
Proof. intros st1 st2 H. unfold push. simpl. rewrite H. auto. Qed.

Lemma Agree_report (b1 b2 : bool) (l1 l2 : string) :
  Agree (when b1 (report l1)) (when b2 (report l2)).
Proof. intros st1 st2 H. destruct b1, b2; (split; [reflexivity | exact H]). Qed.

Lemma Agree_outOfFuel {A} : Agree (@outOfFuel ScanState A) outOfFuel.
Proof. intros st1 st2 H. split; [reflexivity | exact H]. Qed.

Lemma visitEntry_Agree (cb1 cb2 : bool) (r1 r2 : string -> M ScanState unit)
    (dirPath : string) (currentDepth : nat) (entry : Dirent) :
  (forall p, Agree (r1 p) (r2 p)) ->
  Agree (visitEntry cb1 r1 dirPath currentDepth entry)
        (visitEntry cb2 r2 dirPath currentDepth entry).
Proof.
intros Hr. unfold visitEntry.
apply Agree_tryCatch; [|intros; apply Agree_ret].
apply Agree_bind; [apply Agree_liftE|]. intros [|].
- apply Agree_bind; [apply Agree_push|]. intros _.
  intros st1 st2 H. unfold bind, fileListLength.
  apply Agree_report. exact H.
- apply Agree_bind; [apply Agree_liftE|]. intros [|]; [|apply Agree_ret].
  destruct (negb _); [apply Hr | apply Agree_ret].
Qed.

Lemma forEntries_Agree (cb1 cb2 : bool) (r1 r2 : string -> M ScanState unit)
    (dirPath : string) (currentDepth maxFiles : nat) (entries : list Dirent) :
  (forall p, Agree (r1 p) (r2 p)) ->
  Agree (forEntries cb1 r1 dirPath currentDepth maxFiles entries)
        (forEntries cb2 r2 dirPath currentDepth maxFiles entries).
Proof.
intros Hr. induction entries as [|entry rest IH]; cbn [forEntries].
- apply Agree_ret.
- apply Agree_bind; [apply Agree_fileListLength|]. intros len.
  destruct (maxFiles <=? len); [apply Agree_ret|].
  apply Agree_bind; [apply visitEntry_Agree; exact Hr | intros _; exact IH].
Qed.

Lemma scanDirectoryM_Agree (cb1 cb2 : bool) (maxDepth maxFiles : nat) :
  forall fuel dirPath currentDepth,
    Agree (scanDirectoryM fs cb1 fuel dirPath maxDepth currentDepth maxFiles)
          (scanDirectoryM fs cb2 fuel dirPath maxDepth currentDepth maxFiles).
Proof.
induction fuel as [|fuel IH]; intros dirPath currentDepth;
  cbn [scanDirectoryM];
  (apply Agree_bind; [apply Agree_fileListLength|]); intros len;
  destruct ((maxDepth <=? currentDepth) || (maxFiles <=? len));
  try apply Agree_returnFileList.
- apply Agree_outOfFuel.
- apply Agree_bind; [apply Agree_report|]. intros _.
  apply Agree_bind; [|intros _; apply Agree_returnFileList].
  apply Agree_tryCatch; [|intros; apply Agree_ret].
  apply Agree_bind; [apply Agree_liftE|]. intros entries.
  apply forEntries_Agree. intros p.
  apply Agree_bind; [apply IH | intros _; apply Agree_ret].
Qed.

(** A computation is quiet when it makes no call to the callback. *)
Definition Quiet {A} (m : M ScanState A) : Prop :=
  forall st, calls (snd (m st)) = calls st.

Lemma Quiet_bind {A B} (m : M ScanState A) (k : A -> M ScanState B) :
  Quiet m -> (forall a, Quiet (k a)) -> Quiet (bind m k).
Proof.
intros Hm Hk st. unfold bind. specialize (Hm st).
destruct (m st) as [[a|e|] s]; simpl in *; try exact Hm.
rewrite Hk. exact Hm.
Qed.

Lemma Quiet_tryCatch {A} (m : M ScanState A) (h : JsError -> M ScanState A) :
  Quiet m -> (forall e, Quiet (h e)) -> Quiet (tryCatch m h).
Proof.
intros Hm Hh st. unfold tryCatch. specialize (Hm st).
destruct (m st) as [[a|e|] s]; simpl in *; try exact Hm.
rewrite Hh. exact Hm.
Qed.

Lemma Quiet_ret {A} (a : A) : Quiet (@ret ScanState A a).
Proof. intros st. reflexivity. Qed.

Lemma Quiet_liftE {A} (r : JsError + A) : Quiet (@liftE ScanState A r).
Proof. intros st. destruct r; reflexivity. Qed.

Lemma forEntries_Quiet (r : string -> M ScanState unit)
    (dirPath : string) (currentDepth maxFiles : nat) (entries : list Dirent) :
  (forall p, Quiet (r p)) ->
  Quiet (forEntries false r dirPath currentDepth maxFiles entries).
Proof.
intros Hr. induction entries as [|entry rest IH]; cbn [forEntries].
- apply Quiet_ret.
- apply Quiet_bind; [intros st; reflexivity|]. intros len.
  destruct (maxFiles <=? len); [apply Quiet_ret|].
  apply Quiet_bind; [|intros _; exact IH].
  unfold visitEntry. apply Quiet_tryCatch; [|intros; apply Quiet_ret].
  apply Quiet_bind; [apply Quiet_liftE|]. intros [|].
  + apply Quiet_bind; [intros st; reflexivity|]. intros _.
    apply Quiet_bind; [intros st; reflexivity|]. intros n. apply Quiet_ret.
  + apply Quiet_bind; [apply Quiet_liftE|]. intros [|]; [|apply Quiet_ret].
    destruct (negb _); [apply Hr | apply Quiet_ret].
Qed.

Lemma scanDirectoryM_Quiet (maxDepth maxFiles : nat) :
  forall fuel dirPath currentDepth,
    Quiet (scanDirectoryM fs false fuel dirPath maxDepth currentDepth maxFiles).
Proof.
induction fuel as [|fuel IH]; intros dirPath currentDepth;
  cbn [scanDirectoryM];
  (apply Quiet_bind; [intros st; reflexivity|]); intros len;
  destruct ((maxDepth <=? currentDepth) || (maxFiles <=? len));
  try (intros st; reflexivity).
apply Quiet_bind; [apply Quiet_ret|]. intros _.
apply Quiet_bind; [|intros _ st; reflexivity].
apply Quiet_tryCatch; [|intros; apply Quiet_ret].
apply Quiet_bind; [apply Quiet_liftE|]. intros entries.
apply forEntries_Quiet. intros p.
apply Quiet_bind; [apply IH | intros _; apply Quiet_ret].
Qed.

(** X6. The progress callback is an observer only: the list returned is
    the same with or without a callback and whatever was reported before;
    and without a callback nothing is reported. *)
Theorem scanDirectory_callback_observer (dirPath : string)
    (maxDepth currentDepth : nat) (given : list string) (maxFiles : nat)
    (log1 log2 : list ProgressCall) :
  fst (scanDirectory fs true dirPath maxDepth currentDepth given maxFiles log1)
  = fst (scanDirectory fs false dirPath maxDepth currentDepth given maxFiles log2)
  /\ snd (scanDirectory fs false dirPath maxDepth currentDepth given maxFiles log2)
     = log2.
Proof.
unfold scanDirectory. split.
- destruct (scanDirectoryM_Agree true false maxDepth maxFiles
              (maxDepth - currentDepth) dirPath currentDepth
              {| fileList := given; calls := log1 |}
              {| fileList := given; calls := log2 |} eq_refl) as [Hr _].
  destruct (scanDirectoryM fs true _ _ _ _ _ _) as [r1 s1].
  destruct (scanDirectoryM fs false _ _ _ _ _ _) as [r2 s2].
  exact Hr.
- pose proof (scanDirectoryM_Quiet maxDepth maxFiles (maxDepth - currentDepth)
                dirPath currentDepth {| fileList := given; calls := log2 |})
    as Hq.
  destruct (scanDirectoryM fs false _ _ _ _ _ _) as [r2 s2]. exact Hq.
Qed.

End CallbackProperties.

Section ProgressReports.

Context {host : Host}.
Variable fs : FileSystem.
Variable progressCallback : bool.
Variable root : string.

Fixpoint nondecreasing (l : list nat) : Prop :=
  match l with
  | [] => True
  | x :: l' => Forall (le x) l' /\ nondecreasing l'
  end.

Lemma nondecreasing_snoc (l : list nat) (y : nat) :
  nondecreasing l -> Forall (fun x => x <= y) l -> nondecreasing (l ++ [y]).
Proof.
induction l as [|x l IH]; simpl; intros H F.
- split; constructor.
- destruct H as [Hx Hl]. inversion F; subst. split.
  + apply Forall_app. split; [exact Hx | constructor; [assumption | constructor]].
  + apply IH; assumption.
Qed.

(** What holds of the calls made so far: each reported the root or a file
    now in the list, with a count the list has reached; counts never go
    down. *)
Definition Reported (st : ScanState) : Prop :=
  Forall (fun c : ProgressCall =>
            (fst c = root \/ In (fst c) (fileList st))
            /\ snd c <= length (fileList st)) (calls st)
  /\ nondecreasing (map snd (calls st)).

Definition Keeps {A} (m : M ScanState A) : Prop :=
  forall st, Reported st -> Reported (snd (m st)).

Lemma Keeps_ret {A} (a : A) : Keeps (@ret ScanState A a).
Proof. intros st H. exact H. Qed.

Lemma Keeps_liftE {A} (r : JsError + A) : Keeps (@liftE ScanState A r).
Proof. intros st H. destruct r; exact H. Qed.

Lemma Keeps_bind {A B} (m : M ScanState A) (k : A -> M ScanState B) :
  Keeps m -> (forall a, Keeps (k a)) -> Keeps (bind m k).
Proof.
intros Hm Hk st H. unfold bind. specialize (Hm st H).
destruct (m st) as [[a|e|] s]; simpl in *; try exact Hm.
apply Hk. exact Hm.
Qed.

Lemma Keeps_tryCatch {A} (m : M ScanState A) (h : JsError -> M ScanState A) :
  Keeps m -> (forall e, Keeps (h e)) -> Keeps (tryCatch m h).
Proof.
intros Hm Hh st H. unfold tryCatch. specialize (Hm st H).
destruct (m st) as [[a|e|] s]; simpl in *; try exact Hm.
apply Hh. exact Hm.
Qed.

Lemma Keeps_push (p : string) : Keeps (push p).
Proof.
intros st [F S]. unfold push. cbn [snd fileList calls]. split; [|exact S].
eapply Forall_impl; [|exact F]. cbv beta.
intros c [[Hc|Hc] Hn]; cbn [fileList];
  (split; [|rewrite length_app; lia]).
- left. exact Hc.
- right. apply in_or_app. left. exact Hc.
Qed.

(** Reporting a path that is the root or in the list. *)
Lemma Keeps_report (b : bool) (label : string) :
  (forall st, b = true -> label = root \/ In label (fileList st)) ->
  Keeps (when b (report label)).
Proof.
intros Hl st [F S]. destruct b; [|split; assumption].
specialize (Hl st eq_refl). unfold when, report, Reported. cbn [snd fileList calls]. split.
- apply Forall_app. split; [exact F|].
  constructor; [simpl; split; [exact Hl | lia] | constructor].
- rewrite map_app. simpl. apply nondecreasing_snoc; [exact S|].
  apply Forall_forall. intros x Hx. apply in_map_iff in Hx.
  destruct Hx as (c & <- & Hc). rewrite Forall_forall in F.
  apply (F c Hc).
Qed.

Lemma visitEntry_Keeps (r : string -> M ScanState unit)
    (dirPath : string) (currentDepth : nat) (entry : Dirent) :
  (forall p, Keeps (r p)) ->
  Keeps (visitEntry progressCallback r dirPath currentDepth entry).
Proof.
intros Hr. unfold visitEntry.
apply Keeps_tryCatch; [|intros; apply Keeps_ret].
apply Keeps_bind; [apply Keeps_liftE|]. intros [|].
- intros st H. unfold bind at 1. unfold push at 1.
  unfold bind, fileListLength.
  set (st1 := {| fileList := fileList st ++ [join dirPath (name entry)];
                 calls := calls st |}).
  assert (H1 : Reported st1) by (apply (Keeps_push _ st H)).
  match goal with |- context [when ?b (report ?l) st1] =>
    destruct b eqn:Eb end; [|exact H1].
  unfold when, report, Reported. cbn [snd fileList calls].
  destruct H1 as [F S]. unfold st1 in F, S. cbn [fileList calls] in F, S. split.
  + apply Forall_app. split; [exact F|].
    constructor; [|constructor]. simpl. split; [|lia].
    right. apply in_or_app. right. left. reflexivity.
  + rewrite map_app. simpl. apply nondecreasing_snoc; [exact S|].
    apply Forall_forall. intros x Hx. apply in_map_iff in Hx.
    destruct Hx as (c & <- & Hc). rewrite Forall_forall in F.
    apply (F c Hc).
- apply Keeps_bind; [apply Keeps_liftE|]. intros [|]; [|apply Keeps_ret].
  destruct (negb _); [apply Hr | apply Keeps_ret].
Qed.

Lemma forEntries_Keeps (r : string -> M ScanState unit)
    (dirPath : string) (currentDepth maxFiles : nat) (entries : list Dirent) :
  (forall p, Keeps (r p)) ->
  Keeps (forEntries progressCallback r dirPath currentDepth maxFiles entries).
Proof.
intros Hr. induction entries as [|entry rest IH]; cbn [forEntries].
- apply Keeps_ret.
- apply Keeps_bind; [intros st H; exact H|]. intros len.
  destruct (maxFiles <=? len); [apply Keeps_ret|].
  apply Keeps_bind; [apply visitEntry_Keeps; exact Hr | intros _; exact IH].
Qed.

Lemma scanDirectoryM_Keeps (maxDepth maxFiles : nat) :
  forall fuel dirPath currentDepth,
    (currentDepth = 0 -> dirPath = root) ->
    Keeps (scanDirectoryM fs progressCallback fuel dirPath maxDepth
             currentDepth maxFiles).
Proof.
induction fuel as [|fuel IH]; intros dirPath currentDepth Hroot;
  cbn [scanDirectoryM];
  (apply Keeps_bind; [intros st H; exact H|]); intros len;
  destruct ((maxDepth <=? currentDepth) || (maxFiles <=? len));
  try (intros st H; exact H).
apply Keeps_bind.
- apply Keeps_report. intros st Hb. left. apply Hroot.
  apply andb_prop in Hb. destruct Hb as [_ Hb]. apply Nat.eqb_eq. exact Hb.
- intros _. apply Keeps_bind; [|intros _ st H; exact H].
  apply Keeps_tryCatch; [|intros; apply Keeps_ret].
  apply Keeps_bind; [apply Keeps_liftE|]. intros entries.
  apply forEntries_Keeps. intros p.
  apply Keeps_bind; [apply IH; lia | intros _; apply Keeps_ret].
Qed.

End ProgressReports.

Section ProgressTheorem.

Context {host : Host}.
Variable fs : FileSystem.

(** X7. A top-level scan reports honestly: every call to the progress
    callback names the root directory or a file that is in the returned
    list, its count is no more than the number of files returned, and the
    counts never decrease from one call to the next. *)
Theorem scanDirectory_progress (progressCallback : bool) (root : string)
    (maxDepth : nat) (maxFiles : nat) (files : list string)
    (log : list ProgressCall) :
  scanDirectory fs progressCallback root maxDepth 0 [] maxFiles []
  = (Returns files, log) ->
  Forall (fun c : ProgressCall =>
            (fst c = root \/ In (fst c) files) /\ snd c <= length files) log
  /\ nondecreasing (map snd log).
Proof.
unfold scanDirectory. intros E.
pose proof (scanDirectoryM_Keeps fs progressCallback root maxDepth maxFiles
              (maxDepth - 0) root 0 (fun _ => eq_refl)
              {| fileList := []; calls := [] |}) as H.
destruct (scanDirectoryM_ok fs progressCallback maxDepth maxFiles (maxDepth - 0)
            root 0 {| fileList := []; calls := [] |} (le_n _))
  as (st' & Erun & _).
rewrite Erun in E, H. inversion E; subst. cbn [snd] in H.
apply H. split; constructor.
Qed.

End ProgressTheorem.

(** X7, on the small file system. *)
Lemma scanDirectory_progress_witness :
  nondecreasing (map snd [("/home/u/Documents", 0); ("/home/u/Documents/a.txt", 1);
                          ("/home/u/Documents/z.txt", 2)]).
Proof.
exact (proj2 (scanDirectory_progress (host := posix) demoFs true
                "/home/u/Documents" 1 5
                ["/home/u/Documents/a.txt"; "/home/u/Documents/z.txt"]
                [("/home/u/Documents", 0); ("/home/u/Documents/a.txt", 1);
                 ("/home/u/Documents/z.txt", 2)] eq_refl)).
Defined.

(* ------------------------------------------------------------------ *)
(** ** Where the files of [scanCommonDirectories] come from *)

Section RootSetSources.

Context {host : Host}.
Variable fs : FileSystem.
Variable env : Env.
Variable progressCallback : bool.

Lemma ScansInOrder_sources (cap : nat) (roots collected aggregated : list string) :
  ScansInOrder fs progressCallback cap roots collected aggregated ->
  exists new,
    aggregated = collected ++ new
    /\ Forall (fun p => exists root,
                 In root roots /\ FoundWithin fs 7 root 0 p) new.
Proof.
induction 1 as [collected|root roots collected Hfull
               |root roots collected files aggregated log log' Hlt E _ IH].
- exists []. rewrite app_nil_r. split; [reflexivity | constructor].
- exists []. rewrite app_nil_r. split; [reflexivity | constructor].
- destruct IH as (new & -> & Hnew).
  destruct (scanDirectory_ok fs progressCallback root 7 0 []
              (cap - length collected) log)
    as (files0 & log0 & E0 & new0 & -> & F0 & _).
  rewrite E0 in E. inversion E; subst. cbn [app].
  exists (files ++ new). split; [rewrite app_assoc; reflexivity|].
  apply Forall_app. split.
  + eapply Forall_impl; [|exact F0]. intros p Hp.
    exists root. split; [left; reflexivity | exact Hp].
  + eapply Forall_impl; [|exact Hnew]. intros p (r & Hr & Hp).
    exists r. split; [right; exact Hr | exact Hp].
Qed.

(** X8. Every path [scanCommonDirectories] returns is a file found under
    one of the six well-known directories, one that exists, fewer than 7
    directories below it and inside no skip-listed directory. *)
Theorem scanCommonDirectories_sources (log log' : list ProgressCall)
    (files : list string) (p : string) :
  scanCommonDirectories fs env progressCallback log = (Returns files, log') ->
  In p files ->
  exists root dirs,
    In root (commonDirs env) /\ existsSync fs root = true
    /\ Found fs root dirs p /\ length dirs < 7
    /\ forall d, In d dirs -> ~ In d skipDirs.
Proof.
intros E Hp.
destruct (scanCommonDirectories_cases fs env progressCallback log)
  as [[_ Ethrow]|(_ & agg & log1 & _ & Hs & _ & Eret)].
- rewrite Ethrow in E. discriminate.
- rewrite Eret in E. destruct agg as [|x agg]; inversion E; subst.
  destruct (ScansInOrder_sources _ _ _ _ Hs) as (new & Hnew & F).
  cbn [app] in Hnew. rewrite <- Hnew in F. rewrite Forall_forall in F.
  destruct (F p Hp) as (root & Hroot & dirs & Hf & Hd).
  unfold existingDirs in Hroot. apply filter_In in Hroot.
  destruct Hroot as [Hc He].
  exists root, dirs. repeat split; try assumption.
  apply (Found_Inside fs root dirs p Hf).
Qed.

End RootSetSources.

(** X8, on the small file system. *)
Lemma scanCommonDirectories_sources_witness :
  exists root dirs,
    In root (commonDirs (host := posix) demoEnv)
    /\ existsSync demoFs root = true
    /\ Found (host := posix) demoFs root dirs "/home/u/Documents/sub/b.txt"
    /\ length dirs < 7
    /\ forall d, In d dirs -> ~ In d skipDirs.
Proof.
apply (scanCommonDirectories_sources (host := posix) demoFs demoEnv false [] []
         ["/home/u/Documents/a.txt"; "/home/u/Documents/sub/b.txt";
          "/home/u/Documents/sub/deep/c.txt"; "/home/u/Documents/z.txt"]).
- vm_compute. reflexivity.
- simpl. auto.
Defined.

(* ------------------------------------------------------------------ *)
(** ** [selectTargetFile] and the range of the random number *)

Section SelectionRange.

Local Open Scope Q_scope.

(** X9. On a list that is not empty [selectTargetFile] never throws: it
    returns an element of the list when the random number is in [[0, 1)],
    and [undefined] when it is negative or at least 1. *)
Theorem selectTargetFile_range (random : Q) (fileList : list string) :
  fileList <> [] ->
  (0 <= random -> random < 1 ->
   exists x, In x fileList /\ selectTargetFile random fileList = Returns (Some x))
  /\ (random < 0 \/ 1 <= random ->
      selectTargetFile random fileList = Returns None).
Proof.
intros Hne.
assert (Hn : (0 < length fileList)%nat).
{ destruct fileList; [congruence | simpl; lia]. }
pose proof (inject_Z_pos _ Hn) as Hpos.
assert (E0 : (length fileList =? 0)%nat = false) by (apply Nat.eqb_neq; lia).
unfold selectTargetFile. rewrite E0. split.
- intros H0 H1.
  destruct (at_index_nth fileList (randomIndexOf random (length fileList))
              (randomIndexOf_range random _ Hn H0 H1)) as (x & -> & Hx).
  exists x. split; [eapply nth_error_In; exact Hx | reflexivity].
- intros [Hneg|Hbig]; unfold at_index, randomIndexOf.
  + assert (Hlt : (Qfloor (random * inject_Z (Z.of_nat (length fileList))) < 0)%Z).
    { rewrite Zlt_Qlt. eapply Qle_lt_trans; [apply Qfloor_le|].
      setoid_replace 0 with (0 * inject_Z (Z.of_nat (length fileList)))
        by (rewrite Qmult_0_l; reflexivity).
      apply Qmult_lt_compat_r; assumption. }
    apply Z.ltb_lt in Hlt. rewrite Hlt. reflexivity.
  + assert (Hge : (Z.of_nat (length fileList)
                   <= Qfloor (random * inject_Z (Z.of_nat (length fileList))))%Z).
    { rewrite <- (Qfloor_Z (Z.of_nat (length fileList))) at 1.
      apply Qfloor_resp_le.
      rewrite <- (Qmult_1_l (inject_Z (Z.of_nat (length fileList)))) at 1.
      apply Qmult_le_compat_r; [exact Hbig | apply Qlt_le_weak; exact Hpos]. }
    destruct (_ <? 0)%Z eqn:El; [reflexivity|].
    f_equal. apply nth_error_None. lia.
Qed.

End SelectionRange.

Lemma selectTargetFile_range_witness :
  (exists x, In x ["a"; "b"; "c"]
             /\ selectTargetFile (1 # 2)%Q ["a"; "b"; "c"] = Returns (Some x))
  /\ selectTargetFile 1%Q ["a"; "b"; "c"] = Returns None.
Proof.
split.
- refine (proj1 (selectTargetFile_range (1 # 2)%Q ["a"; "b"; "c"] _) _ _);
    [discriminate | discriminate | reflexivity].
- refine (proj2 (selectTargetFile_range 1%Q ["a"; "b"; "c"] _) _);
    [discriminate | right; discriminate].
Defined.

(* ================================================================== *)
(** * The main process ([main.js])

    The handlers registered with [ipcMain.handle], over the two variables
    of the module, [fileList] and [targetFile], and the messages sent to
    the window.  A handler is taken as one step: the only thing
    [initialize-game] does before it waits for the scan is to send
    ['scanning-started'].  The window exists ([mainWindow] is set). *)

Module MainProcess.

(** [mainWindow.webContents.send(channel, { fileCount })] *)
Inductive Message : Type :=
| scanningStarted
| scanningComplete (fileCount : nat).

(** [targetFile] is [None] for [null] (and for [undefined]). *)
Record State : Type := {
  fileList : list string;
  targetFile : option string;
  sent : list Message
}.

(** [let fileList = []; let targetFile = null;] *)
Definition initialState : State :=
  {| fileList := []; targetFile := None; sent := [] |}.

(** [{ success: true, fileCount }] or [{ success: false, error }] *)
Inductive InitResult : Type :=
| initOk (fileCount : nat)
| initFailed (error : string).

(** [{ success: true }] or [{ success: false, error }] *)
Inductive ResetResult : Type :=
| resetOk
| resetFailed (error : string).

(** What [check-guess] answers: [{ valid: false, error }],
    [{ valid: true, correct: true, message }] or
    [{ valid: true, correct: false, comparison, distanceInfo }]. *)
Inductive GuessResult : Type :=
| invalid (error : string)
| correct (message : string)
| wrong (comparison : Verdict) (distanceInfo : Distance).

(** [error.message] *)
Definition errorMessage (e : JsError) : string :=
  match e with Error m => m end.

Definition send (m : Message) : M State unit :=
  fun st =>
    (Returns tt,
     {| fileList := fileList st; targetFile := targetFile st;
        sent := sent st ++ [m] |}).

Definition getFileList : M State (list string) :=
  fun st => (Returns (fileList st), st).

Definition setFileList (l : list string) : M State unit :=
  fun st =>
    (Returns tt,
     {| fileList := l; targetFile := targetFile st; sent := sent st |}).

Definition getTargetFile : M State (option string) :=
  fun st => (Returns (targetFile st), st).

Definition setTargetFile (t : option string) : M State unit :=
  fun st =>
    (Returns tt, {| fileList := fileList st; targetFile := t; sent := sent st |}).

(** A call that returns or throws and does not touch the state. *)
Definition liftO {A} (r : Outcome A) : M State A := fun st => (r, st).

Section Handlers.

Context {host : Host}.
Variable fs : FileSystem.
Variable env : Env.

(** [fs.statSync(p).isFile()], or what [statSync] throws. *)
Variable statSync : string -> JsError + bool.

(** The [TypeError] of [path.dirname] on a value that is not a string. *)
Variable typeError : JsError.

(** [await gameLogic.scanCommonDirectories()], called without callback. *)
Definition scan : M State (list string) :=
  liftO (fst (scanCommonDirectories fs env false [])).

(** [ipcMain.handle('initialize-game', ...)]; [random] is what
    [Math.random()] answers inside [selectTargetFile]. *)
Definition initializeGame (random : Q) : M State InitResult :=
  tryCatch
    (send scanningStarted ;;
     files <- scan ;;
     setFileList files ;;
     files <- getFileList ;;
     if length files =? 0 then
       throw (Error "No files found. Please ensure you have accessible files.")
     else
       target <- liftO (selectTargetFile random files) ;;
       setTargetFile target ;;
       files <- getFileList ;;
       send (scanningComplete (length files)) ;;
       ret (initOk (length files)))
    (fun error =>
       send (scanningComplete 0) ;;
       ret (initFailed (errorMessage error))).

(** [ipcMain.handle('get-target-file', ...)] *)
Definition getTarget : M State (option string) := getTargetFile.

(** [gameLogic.calculateDistance(guessPath, targetFile)] where
    [targetFile] may be [null]: [path.dirname(null)] throws. *)
Definition calculateDistanceOn (guessPath : string) (target : option string)
  : JsError + Distance :=
  match target with
  | Some targetPath => inr (calculateDistance guessPath targetPath)
  | None => inl typeError
  end.

(** [gameLogic.compareGuesses(guessPath, previousGuessPath, targetFile)]
    where [targetFile] may be [null]: the guard on the previous guess comes
    first, then [calculateDistance] throws. *)
Definition compareGuessesOn (guessPath : string)
    (previousGuessPath target : option string) : JsError + Verdict :=
  match target with
  | Some targetPath =>
      inr (compareGuesses guessPath previousGuessPath targetPath)
  | None =>
      match truthy previousGuessPath with
      | None => inr first
      | Some _ => inl typeError
      end
  end.

(** [guessPath === targetFile] *)
Definition isTarget (guessPath : string) (target : option string) : bool :=
  match target with
  | Some targetPath => String.eqb guessPath targetPath
  | None => false
  end.

(** [ipcMain.handle('check-guess', ...)] *)
Definition checkGuess (guessPath : string) (previousGuessPath : option string)
  : M State GuessResult :=
  tryCatch
    (if negb (existsSync fs guessPath) then ret (invalid "File does not exist")
     else
       statsIsFile <- liftE (statSync guessPath) ;;
       if negb statsIsFile then ret (invalid "Path is not a file")
       else
         target <- getTargetFile ;;
         if isTarget guessPath target then ret (correct "You found it!")
         else
           comparison <-
             liftE (compareGuessesOn guessPath previousGuessPath target) ;;
           distanceInfo <- liftE (calculateDistanceOn guessPath target) ;;
           ret (wrong comparison distanceInfo))
    (fun error => ret (invalid (errorMessage error))).

(** [ipcMain.handle('reset-game', ...)] *)
Definition resetGame (random : Q) : M State ResetResult :=
  tryCatch
    (files <- getFileList ;;
     if 0 <? length files then
       target <- liftO (selectTargetFile random files) ;;
       setTargetFile target ;;
       ret resetOk
     else
       files <- scan ;;
       setFileList files ;;
       files <- getFileList ;;
       if 0 <? length files then
         target <- liftO (selectTargetFile random files) ;;
         setTargetFile target ;;
         ret resetOk
       else ret (resetFailed "No files available"))
    (fun error => ret (resetFailed (errorMessage error))).

End Handlers.

(** ** Properties of the handlers *)

Section HandlerProperties.

Context {host : Host}.
Variable fs : FileSystem.
Variable env : Env.
Variable statSync : string -> JsError + bool.
Variable typeError : JsError.

#[local] Opaque totalMaxFiles.

(** How the scan of [initialize-game] and [reset-game] can end. *)
Lemma scan_cases :
  fst (scanCommonDirectories fs env false []) = Throws noAccessibleDirectories
  \/ fst (scanCommonDirectories fs env false []) = Throws noFilesFound
  \/ exists x files,
       fst (scanCommonDirectories fs env false []) = Returns (x :: files)
       /\ length (x :: files) <= totalMaxFiles.
Proof.
destruct (scanCommonDirectories_cases fs env false [])
  as [[_ E]|(_ & agg & log' & _ & _ & Ha & E)]; rewrite E.
- left. reflexivity.
- destruct agg as [|x agg]; [right; left; reflexivity|].
  right. right. exists x, agg. split; [reflexivity | exact Ha].
Qed.

#[local] Opaque scanCommonDirectories.

Lemma selectTargetFile_cons (random : Q) (x : string) (files : list string) :
  selectTargetFile random (x :: files)
  = Returns (at_index (x :: files) (randomIndexOf random (length (x :: files)))).
Proof. reflexivity. Qed.

Lemma at_index_member (random : Q) (files : list string) :
  files <> [] -> (0 <= random)%Q -> (random < 1)%Q ->
  exists t, at_index files (randomIndexOf random (length files)) = Some t
            /\ In t files.
Proof.
intros Hne H0 H1.
assert (Hn : 0 < length files) by (destruct files; [congruence | simpl; lia]).
destruct (at_index_nth files _ (randomIndexOf_range random _ Hn H0 H1))
  as (t & Ht & Hnth).
exists t. split; [exact Ht | eapply nth_error_In; exact Hnth].
Qed.

(** What [initialize-game] does, by the way the scan ends. *)
Lemma initializeGame_cases (random : Q) (st : State) :
  (exists e,
      (e = noAccessibleDirectories \/ e = noFilesFound)
      /\ fst (scanCommonDirectories fs env false []) = Throws e
      /\ initializeGame fs env random st
         = (Returns (initFailed (errorMessage e)),
            {| fileList := fileList st; targetFile := targetFile st;
               sent := sent st ++ [scanningStarted] ++ [scanningComplete 0] |}))
  \/ (exists x files,
        fst (scanCommonDirectories fs env false []) = Returns (x :: files)
        /\ length (x :: files) <= totalMaxFiles
        /\ initializeGame fs env random st
           = (Returns (initOk (length (x :: files))),
              {| fileList := x :: files;
                 targetFile :=
                   at_index (x :: files)
                     (randomIndexOf random (length (x :: files)));
                 sent := sent st ++ [scanningStarted]
                         ++ [scanningComplete (length (x :: files))] |})).
Proof.
unfold initializeGame, tryCatch, bind, send, scan, liftO.
destruct scan_cases as [E|[E|(x & files & E & Hlen)]]; rewrite E.
- left. exists noAccessibleDirectories. cbn [fileList targetFile sent].
  rewrite <- app_assoc. auto.
- left. exists noFilesFound. cbn [fileList targetFile sent].
  rewrite <- app_assoc. auto.
- right. exists x, files. split; [reflexivity|]. split; [exact Hlen|].
  unfold setFileList, getFileList, setTargetFile, ret.
  cbn [fileList targetFile sent length Nat.eqb].
  rewrite selectTargetFile_cons. cbn [fileList targetFile sent length].
  rewrite <- app_assoc. reflexivity.
Qed.

(** X10. When [initialize-game] succeeds, the candidate list is what the
    scan returned, between 1 and 20000 files, [fileCount] is its length,
    the target is one of its files, and the window was told
    ['scanning-started'] and then ['scanning-complete'] with that count. *)
Theorem initializeGame_success (random : Q) (st st' : State) (n : nat) :
  (0 <= random)%Q -> (random < 1)%Q ->
  initializeGame fs env random st = (Returns (initOk n), st') ->
  fst (scanCommonDirectories fs env false []) = Returns (fileList st')
  /\ n = length (fileList st') /\ 1 <= n /\ n <= totalMaxFiles
  /\ (exists t, targetFile st' = Some t /\ In t (fileList st'))
  /\ sent st' = sent st ++ [scanningStarted; scanningComplete n].
Proof.
intros H0 H1 E.
destruct (initializeGame_cases random st)
  as [(e & _ & _ & E')|(x & files & Escan & Hlen & E')];
  rewrite E' in E; inversion E; subst; clear E.
cbn [fileList targetFile sent].
split; [exact Escan|]. split; [reflexivity|].
split; [simpl; lia|]. split; [exact Hlen|].
split; [|reflexivity].
apply at_index_member; [discriminate | exact H0 | exact H1].
Qed.

(** X11. [initialize-game] always answers.  When it fails it has changed
    neither the candidate list nor the target, it has sent
    ['scanning-started'] and ['scanning-complete'] with count 0, and the
    error is one of the two of [scanCommonDirectories]: the handler's own
    "No files found. Please ensure you have accessible files." never
    occurs. *)
Theorem initializeGame_failure (random : Q) (st : State) :
  exists result st',
    initializeGame fs env random st = (Returns result, st')
    /\ forall error,
         result = initFailed error ->
         fileList st' = fileList st /\ targetFile st' = targetFile st
         /\ sent st' = sent st ++ [scanningStarted; scanningComplete 0]
         /\ (error = "No accessible directories found"
             \/ error = "No files found in any accessible directories").
Proof.
destruct (initializeGame_cases random st)
  as [(e & He & _ & E')|(x & files & _ & _ & E')];
  rewrite E'; eexists; eexists; (split; [reflexivity|]);
  intros error Herr; inversion Herr; subst.
cbn [fileList targetFile sent]. repeat split.
destruct He as [->| ->]; [left | right]; reflexivity.
Qed.

(** What [check-guess] answers, test by test. *)
Lemma checkGuess_cases (guessPath : string) (previous : option string)
    (st : State) :
  checkGuess fs statSync typeError guessPath previous st
  = (Returns
       (if negb (existsSync fs guessPath) then invalid "File does not exist"
        else
          match statSync guessPath with
          | inl e => invalid (errorMessage e)
          | inr false => invalid "Path is not a file"
          | inr true =>
              match targetFile st with
              | None => invalid (errorMessage typeError)
              | Some t =>
                  if String.eqb guessPath t then correct "You found it!"
                  else wrong (compareGuesses guessPath previous t)
                             (calculateDistance guessPath t)
              end
          end), st).
Proof.
unfold checkGuess, tryCatch, bind.
destruct (existsSync fs guessPath); cbn [negb]; [|reflexivity].
destruct (statSync guessPath) as [e|[|]]; cbn [liftE throw ret negb];
  try reflexivity.
unfold getTargetFile.
destruct (targetFile st) as [t|]; cbn [isTarget].
- destruct (String.eqb guessPath t); reflexivity.
- unfold compareGuessesOn, calculateDistanceOn.
  destruct (truthy previous); reflexivity.
Qed.

(** X12. [check-guess] always answers and changes nothing.  It answers
    [correct] exactly when the path exists, is a regular file and is, as a
    string, the target. *)
Theorem checkGuess_correct (guessPath : string) (previous : option string)
    (st : State) :
  exists result,
    checkGuess fs statSync typeError guessPath previous st = (Returns result, st)
    /\ ((exists message, result = correct message)
        <-> existsSync fs guessPath = true /\ statSync guessPath = inr true
            /\ targetFile st = Some guessPath).
Proof.
rewrite checkGuess_cases. eexists. split; [reflexivity|].
destruct (existsSync fs guessPath); cbn [negb].
2:{ split; [intros [m H]; discriminate | intros [H _]; discriminate]. }
destruct (statSync guessPath) as [e|[|]].
1,3: split; [intros [m H]; discriminate|intros (_ & H & _); discriminate].
destruct (targetFile st) as [t|].
2:{ split; [intros [m H]; discriminate|intros (_ & _ & H); discriminate]. }
destruct (String.eqb_spec guessPath t) as [->|Hne].
- split; [auto | intros _; eexists; reflexivity].
- split; [intros [m H]; discriminate|].
  intros (_ & _ & H). inversion H. congruence.
Qed.

(** X13. As long as no target has been chosen, no guess is compared:
    [check-guess] answers [valid: false]. *)
Theorem checkGuess_without_target (guessPath : string)
    (previous : option string) (st : State) :
  targetFile st = None ->
  exists error,
    checkGuess fs statSync typeError guessPath previous st
    = (Returns (invalid error), st).
Proof.
intros Ht. rewrite checkGuess_cases, Ht.
destruct (existsSync fs guessPath); cbn [negb]; [|eexists; reflexivity].
destruct (statSync guessPath) as [e|[|]]; eexists; reflexivity.
Qed.

(** X14. A comparison is answered only for an existing regular file
    that is not the target, and it carries the verdict of
    [compareGuesses] and the distance of [calculateDistance] to the
    target; the verdict is [first] exactly when no previous guess was
    passed. *)
Theorem checkGuess_wrong (guessPath : string) (previous : option string)
    (st st' : State) (comparison : Verdict) (distanceInfo : Distance) :
  checkGuess fs statSync typeError guessPath previous st
  = (Returns (wrong comparison distanceInfo), st') ->
  exists target,
    targetFile st = Some target /\ guessPath <> target
    /\ existsSync fs guessPath = true /\ statSync guessPath = inr true
    /\ comparison = compareGuesses guessPath previous target
    /\ distanceInfo = calculateDistance guessPath target
    /\ (comparison = first <-> truthy previous = None).
Proof.
rewrite checkGuess_cases. intros E.
destruct (existsSync fs guessPath); cbn [negb] in E; [|discriminate].
destruct (statSync guessPath) as [e|[|]]; try discriminate.
destruct (targetFile st) as [t|]; [|discriminate].
destruct (String.eqb_spec guessPath t) as [->|Hne]; [discriminate|].
inversion E; subst. exists t.
repeat split; try assumption; try reflexivity;
  apply compareGuesses_first_iff.
Qed.

(** What [reset-game] does. *)
Lemma resetGame_cases (random : Q) (st : State) :
  (exists x files,
      fileList st = x :: files
      /\ resetGame fs env random st
         = (Returns resetOk,
            {| fileList := fileList st;
               targetFile :=
                 at_index (fileList st)
                   (randomIndexOf random (length (fileList st)));
               sent := sent st |}))
  \/ (fileList st = []
      /\ exists e,
           (e = noAccessibleDirectories \/ e = noFilesFound)
           /\ resetGame fs env random st
              = (Returns (resetFailed (errorMessage e)), st))
  \/ (fileList st = []
      /\ exists x files,
           fst (scanCommonDirectories fs env false []) = Returns (x :: files)
           /\ length (x :: files) <= totalMaxFiles
           /\ resetGame fs env random st
              = (Returns resetOk,
                 {| fileList := x :: files;
                    targetFile :=
                      at_index (x :: files)
                        (randomIndexOf random (length (x :: files)));
                    sent := sent st |})).
Proof.
unfold resetGame, tryCatch, bind, getFileList.
destruct (fileList st) as [|y l] eqn:El.
- right. cbn [length Nat.ltb Nat.leb]. unfold scan, liftO.
  destruct scan_cases as [E|[E|(x & files & E & Hlen)]]; rewrite E.
  + left. split; [reflexivity|]. exists noAccessibleDirectories. auto.
  + left. split; [reflexivity|]. exists noFilesFound. auto.
  + right. split; [reflexivity|]. exists x, files.
    split; [reflexivity|]. split; [exact Hlen|].
    unfold setFileList, setTargetFile, ret.
    cbn [fileList targetFile sent length Nat.ltb Nat.leb].
    rewrite selectTargetFile_cons. reflexivity.
- left. exists y, l. split; [reflexivity|].
  cbn [length Nat.ltb Nat.leb]. unfold liftO.
  rewrite selectTargetFile_cons. unfold setTargetFile, ret.
  rewrite El. reflexivity.
Qed.

(** X15. With candidates in hand [reset-game] does not scan again: it
    keeps the list and the messages as they are, whatever the file system
    holds by now, and picks the new target from the list. *)
Theorem resetGame_keeps_list (random : Q) (st : State) :
  fileList st <> [] -> (0 <= random)%Q -> (random < 1)%Q ->
  exists t,
    In t (fileList st)
    /\ resetGame fs env random st
       = (Returns resetOk,
          {| fileList := fileList st; targetFile := Some t; sent := sent st |}).
Proof.
intros Hne H0 H1.
destruct (resetGame_cases random st)
  as [(x & files & El & E)|[[El _]|[El _]]]; try contradiction.
destruct (at_index_member random (fileList st) Hne H0 H1) as (t & Ht & Hin).
exists t. split; [exact Hin|]. rewrite E, Ht. reflexivity.
Qed.

(** X16. [reset-game] always answers.  It fails only when there was no
    candidate and the new scan threw; then nothing has changed and the
    error is one of the two of [scanCommonDirectories]: "No files
    available" never occurs. *)
Theorem resetGame_failure (random : Q) (st : State) :
  exists result st',
    resetGame fs env random st = (Returns result, st')
    /\ forall error,
         result = resetFailed error ->
         fileList st = [] /\ st' = st
         /\ (error = "No accessible directories found"
             \/ error = "No files found in any accessible directories").
Proof.
destruct (resetGame_cases random st)
  as [(x & files & El & E)|[[El (e & He & E)]|[El (x & files & _ & _ & E)]]];
  rewrite E; eexists; eexists; (split; [reflexivity|]);
  intros error Herr; inversion Herr; subst.
repeat split; [exact El|].
destruct He as [->| ->]; [left | right]; reflexivity.
Qed.

(** One handler run to completion, the random number within [[0, 1)]. *)
Inductive Step : State -> State -> Prop :=
| step_initialize random st result st' :
    (0 <= random)%Q -> (random < 1)%Q ->
    initializeGame fs env random st = (Returns result, st') -> Step st st'
| step_reset random st result st' :
    (0 <= random)%Q -> (random < 1)%Q ->
    resetGame fs env random st = (Returns result, st') -> Step st st'
| step_check guessPath previous st result st' :
    checkGuess fs statSync typeError guessPath previous st
    = (Returns result, st') -> Step st st'
| step_target st result st' :
    getTarget st = (Returns result, st') -> Step st st'.

Inductive Reachable : State -> Prop :=
| reach_initial : Reachable initialState
| reach_step st st' : Reachable st -> Step st st' -> Reachable st'.

(** X17. In every state the handlers can reach, the target is [null] or
    one of the candidate files, and the candidate list is empty or what a
    scan returned, hence never longer than 20000. *)
Theorem reachable_target_is_candidate (st : State) :
  Reachable st ->
  (forall t, targetFile st = Some t -> In t (fileList st))
  /\ (fileList st = []
      \/ fst (scanCommonDirectories fs env false []) = Returns (fileList st))
  /\ length (fileList st) <= totalMaxFiles.
Proof.
induction 1 as [|st st' _ (IHt & IHl & IHn) Hstep].
- cbn [initialState fileList targetFile length].
  split; [discriminate|]. split; [left; reflexivity | apply Nat.le_0_l].
- destruct Hstep as [random st result st' H0 H1 E
                    |random st result st' H0 H1 E
                    |guessPath previous st result st' E
                    |st result st' E].
  + destruct (initializeGame_cases random st)
      as [(e & _ & _ & E')|(x & files & Escan & Hlen & E')].
    * rewrite E' in E. inversion E; subst. cbn [fileList targetFile]. auto.
    * destruct (at_index_member random (x :: files)) as (t & Ht & Hin);
        [discriminate | exact H0 | exact H1 |].
      rewrite Ht in E'. rewrite E' in E. inversion E; subst.
      cbn [fileList targetFile].
      split; [|split; [right; exact Escan | exact Hlen]].
      intros t' Et. inversion Et; subst. exact Hin.
  + destruct (resetGame_cases random st)
      as [(x & files & El & E')|[[El (e & _ & E')]
                                |[El (x & files & Escan & Hlen & E')]]].
    * destruct (at_index_member random (fileList st)) as (t & Ht & Hin);
        [rewrite El; discriminate | exact H0 | exact H1 |].
      rewrite Ht in E'. rewrite E' in E. inversion E; subst.
      cbn [fileList targetFile].
      split; [|split; assumption].
      intros t' Et. inversion Et; subst. exact Hin.
    * rewrite E' in E. inversion E; subst. auto.
    * destruct (at_index_member random (x :: files)) as (t & Ht & Hin);
        [discriminate | exact H0 | exact H1 |].
      rewrite Ht in E'. rewrite E' in E. inversion E; subst.
      cbn [fileList targetFile].
      split; [|split; [right; exact Escan | exact Hlen]].
      intros t' Et. inversion Et; subst. exact Hin.
  + rewrite checkGuess_cases in E. inversion E; subst. auto.
  + inversion E; subst. auto.
Qed.

#[local] Transparent scanCommonDirectories.
#[local] Transparent totalMaxFiles.

End HandlerProperties.

End MainProcess.

Definition demoStat (p : string) : JsError + bool :=
  if String.eqb p "/home/u/Documents" then inr false
  else if String.eqb p "/home/u/Music" then inr false
  else inr true.

Definition demoExists : FileSystem :=
  {| readdir := readdir demoFs; existsSync := fun _ => true |}.


(** The main process after [initialize-game] on the small file system,
    [Math.random()] having answered one half. *)
Definition demoGame : MainProcess.State :=
  snd (MainProcess.initializeGame (host := posix) demoFs demoEnv (1 # 2)%Q
         MainProcess.initialState).

Example demoGame_target :
  MainProcess.targetFile demoGame = Some "/home/u/Documents/sub/deep/c.txt".
Proof. vm_compute. reflexivity. Qed.

(** X10, on the small file system. *)
Lemma initializeGame_success_witness :
  exists t,
    MainProcess.targetFile demoGame = Some t
    /\ In t (MainProcess.fileList demoGame).
Proof.
refine (proj1 (proj2 (proj2 (proj2 (proj2
          (MainProcess.initializeGame_success (host := posix) demoFs demoEnv
             (1 # 2)%Q MainProcess.initialState demoGame 4 _ _ _)))))).
- discriminate.
- reflexivity.
- vm_compute. reflexivity.
Defined.

(** X13, in the initial state. *)
Lemma checkGuess_without_target_witness :
  exists error,
    MainProcess.checkGuess (host := posix) demoExists demoStat
      (Error "TypeError") "/home/u/Documents/a.txt" None
      MainProcess.initialState
    = (Returns (MainProcess.invalid error), MainProcess.initialState).
Proof.
apply (MainProcess.checkGuess_without_target (host := posix)).
reflexivity.
Defined.

(** X14, on the small file system: a second guess. *)
Lemma checkGuess_wrong_witness :
  exists target,
    MainProcess.targetFile demoGame = Some target
    /\ "/home/u/Documents/sub/b.txt" <> target
    /\ existsSync demoExists "/home/u/Documents/sub/b.txt" = true
    /\ demoStat "/home/u/Documents/sub/b.txt" = inr true
    /\ closer = compareGuesses (host := posix) "/home/u/Documents/sub/b.txt"
                  (Some "/home/u/Documents/a.txt") target
    /\ ByDepth 1 4 5 = calculateDistance (host := posix)
                         "/home/u/Documents/sub/b.txt" target
    /\ (closer = first <-> truthy (Some "/home/u/Documents/a.txt") = None).
Proof.
apply (MainProcess.checkGuess_wrong (host := posix) demoExists demoStat
         (Error "TypeError") "/home/u/Documents/sub/b.txt"
         (Some "/home/u/Documents/a.txt") demoGame demoGame).
vm_compute. reflexivity.
Defined.

(** X15, on the small file system: the list is kept although the file
    system now lists nothing. *)
Lemma resetGame_keeps_list_witness :
  exists t,
    In t (MainProcess.fileList demoGame)
    /\ MainProcess.resetGame (host := posix)
         {| readdir := fun _ => inl (Error "ENOENT");
            existsSync := fun _ => false |} demoEnv (1 # 4)%Q demoGame
       = (Returns MainProcess.resetOk,
          {| MainProcess.fileList := MainProcess.fileList demoGame;
             MainProcess.targetFile := Some t;
             MainProcess.sent := MainProcess.sent demoGame |}).
Proof.
apply (MainProcess.resetGame_keeps_list (host := posix)).
- vm_compute. discriminate.
- discriminate.
- reflexivity.
Defined.

(** X17, on the small file system: after [initialize-game] and a guess. *)
Lemma reachable_target_is_candidate_witness :
  MainProcess.fileList demoGame = []
  \/ fst (scanCommonDirectories (host := posix) demoExists demoEnv false [])
     = Returns (MainProcess.fileList demoGame).
Proof.
refine (proj1 (proj2 (MainProcess.reachable_target_is_candidate (host := posix)
                 demoExists demoEnv demoStat (Error "TypeError") demoGame _))).
apply (MainProcess.reach_step (host := posix) demoExists demoEnv demoStat
         (Error "TypeError") demoGame demoGame).
- apply (MainProcess.reach_step (host := posix) demoExists demoEnv demoStat
           (Error "TypeError") MainProcess.initialState demoGame).
  + apply MainProcess.reach_initial.
  + apply (MainProcess.step_initialize (host := posix) demoExists demoEnv demoStat
             (Error "TypeError") (1 # 2)%Q MainProcess.initialState
             (MainProcess.initOk 4) demoGame).
    * discriminate.
    * reflexivity.
    * vm_compute. reflexivity.
- apply (MainProcess.step_check (host := posix) demoExists demoEnv demoStat
           (Error "TypeError") "/home/u/Documents/a.txt" None demoGame
           (MainProcess.wrong first (ByDepth 2 3 5)) demoGame).
  vm_compute. reflexivity.
Defined.

(* ================================================================== *)
(** * The renderer ([renderer.js])

    The game state of the window and the functions that change it.  What
    a function does to the page is kept as the list of its writes, in
    order; the one thing read from the page is the value of the input
    field.  The answers of the main process are parameters.  A function is
    taken as one step, from its call to its end: no other handler runs
    while it waits for an answer. *)

Module Renderer.

(** One entry of [gameState.guesses]: [{ path, feedback }]. *)
Record Guess : Type := {
  path : string;
  feedback : Verdict
}.

Record GameState : Type := {
  guessesRemaining : Z;
  previousGuess : option string;
  guesses : list Guess;
  gameActive : bool;
  targetFile : option string
}.

(** The elements the functions write to; [guessesRemainingLabel] is the
    element the source calls [guessesRemaining]. *)
Inductive Element : Type :=
| fileInput | guessBtn | browseBtn | feedbackMessage | guessesRemainingLabel
| gameStatus | guessList | winMessage | loseMessage | loadingOverlay
| targetReveal.

Inductive DomWrite : Type :=
| setTextContent (e : Element) (text : string)
| setClassName (e : Element) (className : string)
| setInnerHTML (e : Element) (html : string)
| setValue (e : Element) (value : string)
| setDisabled (e : Element) (disabled : bool)
| classListAdd (e : Element) (className : string)
| classListRemove (e : Element) (className : string)
| appendGuessItem (pathText feedbackClassName feedbackText : string)
| alert (message : string).

Record Window : Type := {
  gameState : GameState;
  writes : list DomWrite
}.

Definition write (w : DomWrite) (r : Window) : Window :=
  {| gameState := gameState r; writes := writes r ++ [w] |}.

Definition setGame (g : GameState) (r : Window) : Window :=
  {| gameState := g; writes := writes r |}.

(** The string a verdict is in the source. *)
Definition verdictName (v : Verdict) : string :=
  match v with
  | first => "first"
  | closer => "closer"
  | farther => "farther"
  | same => "same"
  end.

(** [String(n)] for an integer. *)
Definition numberText (n : Z) : string := NilZero.string_of_int (Z.to_int n).

(** [`${target}`] *)
Definition targetText (target : option string) : string :=
  match target with
  | Some t => t
  | None => "null"
  end.

Definition showLoading (r : Window) : Window :=
  write (classListRemove loadingOverlay "hidden") r.

Definition hideLoading (r : Window) : Window :=
  write (classListAdd loadingOverlay "hidden") r.

Definition showFeedback (message type : string) (r : Window) : Window :=
  write (setClassName feedbackMessage ("feedback-message " ++ type)%string)
    (write (setTextContent feedbackMessage message) r).

(** The rows [updateUI] appends, [index] being the index of the first. *)
Fixpoint guessItems (index : nat) (l : list Guess) : list DomWrite :=
  match l with
  | [] => []
  | guess :: l' =>
      appendGuessItem (path guess)
        ("guess-feedback " ++ verdictName (feedback guess))%string
        (if index =? 0 then "First guess"
         else match feedback guess with
              | closer => "Closer!"
              | farther => "Farther!"
              | _ => "Same distance"
              end)
      :: guessItems (S index) l'
  end.

Definition updateUI (r : Window) : Window :=
  let g := gameState r in
  {| gameState := g;
     writes :=
       writes r
       ++ [setTextContent guessesRemainingLabel (numberText (guessesRemaining g));
           setTextContent gameStatus
             (if gameActive g then "Playing" else "Game Over");
           setInnerHTML guessList ""]
       ++ guessItems 0 (guesses g) |}.

Definition disableControls (r : Window) : Window :=
  write (setDisabled browseBtn true)
    (write (setDisabled fileInput true) (write (setDisabled guessBtn true) r)).

Section Functions.

(** [String.prototype.trim] *)
Variable trim : string -> string.

(** What [ipcRenderer.invoke('check-guess', guessPath, previousGuess)] and
    [ipcRenderer.invoke('get-target-file')] resolve to. *)
Variable checkGuess : string -> option string -> MainProcess.GuessResult.
Variable getTargetFile : option string.

(** [handleGuess()], [value] being [fileInput.value]. *)
Definition handleGuess (value : string) (r : Window) : Window :=
  let g := gameState r in
  if negb (gameActive g) then r
  else
    let guessPath := trim value in
    if negb (nonEmpty guessPath) then
      showFeedback "Please enter a file path" "first" r
    else
      match checkGuess guessPath (previousGuess g) with
      | MainProcess.invalid error =>
          showFeedback ("Error: " ++ error)%string "first" r
      | MainProcess.correct _ =>
          let g := {| guessesRemaining := 0;
                      previousGuess := previousGuess g;
                      guesses := guesses g;
                      gameActive := false;
                      targetFile := targetFile g |} in
          disableControls
            (write (classListRemove winMessage "hidden")
               (showFeedback "🎉 You found it! 🎉" "closer" (setGame g r)))
      | MainProcess.wrong comparison _ =>
          let g := {| guessesRemaining := guessesRemaining g - 1;
                      previousGuess := Some guessPath;
                      guesses := guesses g
                                 ++ [{| path := guessPath;
                                        feedback := comparison |}];
                      gameActive := gameActive g;
                      targetFile := targetFile g |} in
          let feedbackText :=
            match comparison with
            | first => "First guess! Keep going..."
            | closer => "🔥 Closer! 🔥"
            | farther => "❄️ Farther! ❄️"
            | same => "Same distance"
            end in
          let r := showFeedback feedbackText (verdictName comparison)
                     (setGame g r) in
          let r :=
            if (guessesRemaining g <=? 0)%Z then
              let g := {| guessesRemaining := guessesRemaining g;
                          previousGuess := previousGuess g;
                          guesses := guesses g;
                          gameActive := false;
                          targetFile := targetFile g |} in
              disableControls
                (write (classListRemove loseMessage "hidden")
                   (write (setTextContent targetReveal
                             ("Target file was: "
                              ++ targetText getTargetFile)%string)
                      (setGame g r)))
            else r in
          write (setValue fileInput "") (updateUI r)
      end.

(** [initializeGame()], [result] being what
    [ipcRenderer.invoke('initialize-game')] resolves to. *)
Definition initializeGame (result : MainProcess.InitResult) (r : Window)
  : Window :=
  let g := gameState r in
  let g := {| guessesRemaining := guessesRemaining g;
              previousGuess := previousGuess g;
              guesses := guesses g;
              gameActive := false;
              targetFile := targetFile g |} in
  let r := write (setDisabled guessBtn true) (setGame g (showLoading r)) in
  match result with
  | MainProcess.initOk _ =>
      let g := {| guessesRemaining := 10;
                  previousGuess := None;
                  guesses := [];
                  gameActive := true;
                  targetFile := getTargetFile |} in
      write (setDisabled guessBtn false) (hideLoading (updateUI (setGame g r)))
  | MainProcess.initFailed error =>
      write (alert ("Failed to initialize game: " ++ error)%string)
        (hideLoading r)
  end.

(** [resetGame()] *)
Definition resetGame (result : MainProcess.InitResult) (r : Window) : Window :=
  initializeGame result
    (write (setDisabled browseBtn false)
       (write (setDisabled fileInput false)
          (write (setValue fileInput "")
             (write (setClassName feedbackMessage "feedback-message")
                (write (setTextContent feedbackMessage "")
                   (write (classListAdd loseMessage "hidden")
                      (write (classListAdd winMessage "hidden") r))))))).

(** A run of guesses, one input value after the other. *)
Definition play (values : list string) (r : Window) : Window :=
  fold_left (fun r value => handleGuess value r) values r.

End Functions.

(** [let gameState = { guessesRemaining: 10, previousGuess: null,
    guesses: [], gameActive: false, targetFile: null }] *)
Definition initialWindow : Window :=
  {| gameState := {| guessesRemaining := 10; previousGuess := None;
                     guesses := []; gameActive := false; targetFile := None |};
     writes := [] |}.

(** ** Properties of the game state *)

Section GameProperties.

Variable trim : string -> string.
Variable checkGuess : string -> option string -> MainProcess.GuessResult.
Variable getTargetFile : option string.

(** What [handleGuess] does to [gameState], the writes left aside. *)
Definition afterGuess (value : string) (g : GameState) : GameState :=
  if negb (gameActive g) then g
  else if negb (nonEmpty (trim value)) then g
  else
    match checkGuess (trim value) (previousGuess g) with
    | MainProcess.invalid _ => g
    | MainProcess.correct _ =>
        {| guessesRemaining := 0; previousGuess := previousGuess g;
           guesses := guesses g; gameActive := false;
           targetFile := targetFile g |}
    | MainProcess.wrong comparison _ =>
        {| guessesRemaining := guessesRemaining g - 1;
           previousGuess := Some (trim value);
           guesses := guesses g
                      ++ [{| path := trim value; feedback := comparison |}];
           gameActive := if (guessesRemaining g - 1 <=? 0)%Z then false
                         else gameActive g;
           targetFile := targetFile g |}
    end.

Lemma handleGuess_gameState (value : string) (r : Window) :
  gameState (handleGuess trim checkGuess getTargetFile value r)
  = afterGuess value (gameState r).
Proof.
unfold handleGuess, afterGuess.
destruct (gameActive (gameState r)); cbn [negb]; [|reflexivity].
destruct (nonEmpty (trim value)); cbn [negb]; [|reflexivity].
destruct (checkGuess (trim value) (previousGuess (gameState r)))
  as [error|message|comparison distanceInfo]; try reflexivity.
cbn [guessesRemaining].
destruct (guessesRemaining (gameState r) - 1 <=? 0)%Z; reflexivity.
Qed.

Lemma play_gameState (values : list string) (r : Window) :
  gameState (play trim checkGuess getTargetFile values r)
  = fold_left (fun g value => afterGuess value g) values (gameState r).
Proof.
unfold play. revert r.
induction values as [|value values IH]; intros r; [reflexivity|].
cbn [fold_left]. rewrite IH, handleGuess_gameState. reflexivity.
Qed.

(** X18. A guess that is not accepted costs nothing: when the game is not
    active, when the input is empty once trimmed, or when the main process
    answers [valid: false], [handleGuess] leaves the game state as it
    is. *)
Theorem handleGuess_rejected (value : string) (r : Window) :
  gameActive (gameState r) = false
  \/ trim value = ""
  \/ (exists error,
        checkGuess (trim value) (previousGuess (gameState r))
        = MainProcess.invalid error) ->
  gameState (handleGuess trim checkGuess getTargetFile value r) = gameState r.
Proof.
intros H. rewrite handleGuess_gameState. unfold afterGuess.
destruct (gameActive (gameState r)); cbn [negb]; [|reflexivity].
destruct H as [H|[H|[error H]]]; [discriminate| |].
- rewrite H. reflexivity.
- destruct (nonEmpty (trim value)); cbn [negb]; [|reflexivity].
  rewrite H. reflexivity.
Qed.

(** X19. Once the game is not active, guesses are ignored altogether:
    neither the game state nor the page is touched, whatever is entered
    and however often. *)
Theorem play_inactive (values : list string) (r : Window) :
  gameActive (gameState r) = false ->
  play trim checkGuess getTargetFile values r = r.
Proof.
intros H. unfold play.
induction values as [|value values IH]; [reflexivity|].
cbn [fold_left]. unfold handleGuess at 2. rewrite H. cbn [negb]. exact IH.
Qed.

(** The path of the guess recorded last. *)
Definition lastPath (l : list Guess) : option string :=
  match rev l with
  | [] => None
  | guess :: _ => Some (path guess)
  end.

Lemma lastPath_snoc (l : list Guess) (guess : Guess) :
  lastPath (l ++ [guess]) = Some (path guess).
Proof. unfold lastPath. rewrite rev_app_distr. reflexivity. Qed.

(** What holds of the game state all through a game. *)
Definition Sound (g : GameState) : Prop :=
  (0 <= guessesRemaining g)%Z
  /\ length (guesses g) <= 10
  /\ (gameActive g = true ->
      (guessesRemaining g + Z.of_nat (length (guesses g)) = 10)%Z)
  /\ (gameActive g = false <-> guessesRemaining g = 0%Z)
  /\ previousGuess g = lastPath (guesses g)
  /\ Forall (fun guess => path guess <> "") (guesses g).

Lemma afterGuess_Sound (value : string) (g : GameState) :
  Sound g -> Sound (afterGuess value g).
Proof.
intros HS. pose proof HS as (H0 & Hlen & Hsum & Hover & Hprev & Hpaths).
unfold afterGuess.
destruct (gameActive g) eqn:Ea; cbn [negb]; [|exact HS].
destruct (nonEmpty (trim value)) eqn:Ene; cbn [negb]; [|exact HS].
specialize (Hsum eq_refl).
assert (Hpos : (guessesRemaining g <> 0)%Z).
{ intros H. apply Hover in H. congruence. }
assert (Hne : trim value <> "").
{ destruct (trim value); [discriminate Ene | discriminate]. }
destruct (checkGuess (trim value) (previousGuess g))
  as [error|message|comparison distanceInfo]; [exact HS| |].
- unfold Sound. cbn [guessesRemaining guesses gameActive previousGuess].
  split; [lia|]. split; [exact Hlen|]. split; [discriminate|].
  split; [split; reflexivity|]. split; assumption.
- unfold Sound. cbn [guessesRemaining guesses gameActive previousGuess].
  rewrite length_app, lastPath_snoc. cbn [length path].
  assert (Hall : Forall (fun guess => path guess <> "")
                   (guesses g ++ [{| path := trim value;
                                     feedback := comparison |}])).
  { apply Forall_app. split; [exact Hpaths|].
    constructor; [exact Hne | constructor]. }
  destruct (guessesRemaining g - 1 <=? 0)%Z eqn:El;
    [apply Z.leb_le in El | apply Z.leb_gt in El].
  + split; [lia|]. split; [lia|]. split; [discriminate|].
    split; [split; intros; [lia | reflexivity]|]. split; [reflexivity | exact Hall].
  + split; [lia|]. split; [lia|]. split; [intros _; lia|].
    split; [split; intros; [congruence | lia]|]. split; [reflexivity | exact Hall].
Qed.

(** X20. All through a game, from a successful [initializeGame] on and
    whatever is entered: at most 10 guesses are recorded, while the game
    is active [guessesRemaining] and the number of recorded guesses add up
    to 10, the game is over exactly when [guessesRemaining] is 0,
    [previousGuess] is the path recorded last, and no recorded path is
    empty. *)
Theorem play_sound (fileCount : nat) (values : list string) (r : Window) :
  let g := gameState
             (play trim checkGuess getTargetFile values
                (initializeGame getTargetFile (MainProcess.initOk fileCount) r)) in
  (0 <= guessesRemaining g)%Z
  /\ length (guesses g) <= 10
  /\ (gameActive g = true ->
      (guessesRemaining g + Z.of_nat (length (guesses g)) = 10)%Z)
  /\ (gameActive g = false <-> guessesRemaining g = 0%Z)
  /\ previousGuess g = lastPath (guesses g)
  /\ Forall (fun guess => path guess <> "") (guesses g).
Proof.
cbv zeta. rewrite play_gameState.
change (Sound (fold_left (fun g value => afterGuess value g) values
                 (gameState (initializeGame getTargetFile
                               (MainProcess.initOk fileCount) r)))).
assert (H : Sound (gameState (initializeGame getTargetFile
                                (MainProcess.initOk fileCount) r))).
{ unfold Sound. cbn [initializeGame gameState write hideLoading updateUI
                       setGame showLoading guessesRemaining guesses
                       gameActive previousGuess length lastPath rev].
  split; [lia|]. split; [lia|]. split; [reflexivity|].
  split; [split; discriminate|]. split; [reflexivity | constructor]. }
revert H. generalize (gameState (initializeGame getTargetFile
                                   (MainProcess.initOk fileCount) r)).
induction values as [|value values IH]; intros g H; [exact H|].
cbn [fold_left]. apply IH. apply afterGuess_Sound. exact H.
Qed.

(** X21. After a failed [initializeGame] the game is not active and what
    was recorded stays; every guess is ignored until an initialisation
    succeeds. *)
Theorem initializeGame_failed (error : string) (values : list string)
    (r : Window) :
  let r' := initializeGame getTargetFile (MainProcess.initFailed error) r in
  gameActive (gameState r') = false
  /\ guesses (gameState r') = guesses (gameState r)
  /\ guessesRemaining (gameState r') = guessesRemaining (gameState r)
  /\ play trim checkGuess getTargetFile values r' = r'.
Proof.
cbv zeta. repeat split. apply play_inactive. reflexivity.
Qed.

End GameProperties.

End Renderer.

(* ================================================================== *)
(** * A game: the renderer against the main process *)

Section Game.

Context {host : Host}.
Variable fs : FileSystem.
Variable statSync : string -> JsError + bool.
Variable typeError : JsError.
Variable trim : string -> string.

(** The state of the main process during the game: no initialisation or
    reset runs in between. *)
Variable main : MainProcess.State.

(** What [ipcRenderer.invoke('check-guess', ...)] resolves to.  The
    handler always returns, the last case never applies. *)
Definition answer (guessPath : string) (previous : option string)
  : MainProcess.GuessResult :=
  match fst (MainProcess.checkGuess fs statSync typeError guessPath previous
               main) with
  | Returns result => result
  | _ => MainProcess.invalid ""
  end.

(** [Compared previous l]: each guess of [l] exists, is not the target,
    and carries the verdict of [compareGuesses] against the guess just
    before it, [previous] for the first. *)
Fixpoint Compared (previous : option string) (l : list Renderer.Guess) : Prop :=
  match l with
  | [] => True
  | guess :: l' =>
      (exists target,
          MainProcess.targetFile main = Some target
          /\ Renderer.path guess <> target
          /\ existsSync fs (Renderer.path guess) = true
          /\ Renderer.feedback guess
             = compareGuesses (Renderer.path guess) previous target)
      /\ Compared (Some (Renderer.path guess)) l'
  end.

Definition lastOr (previous : option string) (l : list Renderer.Guess)
  : option string :=
  match Renderer.lastPath l with
  | Some p => Some p
  | None => previous
  end.

Lemma lastOr_cons (previous : option string) (guess : Renderer.Guess)
    (l : list Renderer.Guess) :
  lastOr previous (guess :: l) = lastOr (Some (Renderer.path guess)) l.
Proof.
unfold lastOr, Renderer.lastPath. cbn [rev].
destruct (rev l) as [|x xs] eqn:E; reflexivity.
Qed.

Lemma Compared_snoc (l : list Renderer.Guess) :
  forall previous guess,
    Compared previous l ->
    Compared (lastOr previous l) [guess] ->
    Compared previous (l ++ [guess]).
Proof.
induction l as [|x l IH]; intros previous guess Hl Hg.
- exact Hg.
- destruct Hl as [Hx Hl]. cbn [app Compared]. split; [exact Hx|].
  apply IH; [exact Hl|]. rewrite <- (lastOr_cons previous). exact Hg.
Qed.

Lemma Compared_first (l : list Renderer.Guess) :
  forall previous,
    Compared previous l ->
    Forall (fun guess => Renderer.path guess <> "") l ->
    forall i guess,
      nth_error l i = Some guess ->
      (Renderer.feedback guess = first <-> i = 0 /\ truthy previous = None).
Proof.
induction l as [|x l IH]; intros previous Hc Hp i guess Hn.
- destruct i; discriminate.
- destruct Hc as [(target & _ & _ & _ & Hf) Hc]. inversion Hp; subst.
  destruct i as [|i]; cbn [nth_error] in Hn.
  + inversion Hn; subst. rewrite Hf, compareGuesses_first_iff. tauto.
  + rewrite (IH _ Hc H2 i guess Hn), (truthy_nonempty _ H1).
    split; [intros [_ H]; discriminate | intros [H _]; discriminate].
Qed.

Lemma answer_wrong (guessPath : string) (previous : option string)
    (comparison : Verdict) (distanceInfo : Distance) :
  answer guessPath previous = MainProcess.wrong comparison distanceInfo ->
  exists target,
    MainProcess.targetFile main = Some target
    /\ guessPath <> target
    /\ existsSync fs guessPath = true
    /\ comparison = compareGuesses guessPath previous target.
Proof.
unfold answer. rewrite MainProcess.checkGuess_cases. cbn [fst].
destruct (existsSync fs guessPath); cbn [negb]; [|discriminate].
destruct (statSync guessPath) as [e|[|]]; try discriminate.
destruct (MainProcess.targetFile main) as [t|]; [|discriminate].
destruct (String.eqb_spec guessPath t) as [->|Hne]; [discriminate|].
intros E. inversion E; subst. exists t. auto.
Qed.

Lemma afterGuess_Compared (value : string) (g : Renderer.GameState) :
  Renderer.previousGuess g = Renderer.lastPath (Renderer.guesses g) ->
  Compared None (Renderer.guesses g) ->
  Compared None (Renderer.guesses (Renderer.afterGuess trim answer value g)).
Proof.
intros Hprev Hc. unfold Renderer.afterGuess.
destruct (Renderer.gameActive g); cbn [negb]; [|exact Hc].
destruct (nonEmpty (trim value)); cbn [negb]; [|exact Hc].
destruct (answer (trim value) (Renderer.previousGuess g))
  as [error|message|comparison distanceInfo] eqn:Ea; try exact Hc.
cbn [Renderer.guesses]. apply Compared_snoc; [exact Hc|].
destruct (answer_wrong _ _ _ _ Ea) as (target & Ht & Hne & Hex & Hcmp).
cbn [Compared Renderer.path Renderer.feedback]. split; [|exact I].
exists target. repeat split; try assumption.
rewrite Hcmp. f_equal. rewrite Hprev. unfold lastOr.
destruct (Renderer.lastPath (Renderer.guesses g)); reflexivity.
Qed.

(** X22. In a game played against the main process, from a successful
    initialisation on and whatever is entered, every recorded guess is an
    existing path other than the target and its recorded feedback is the
    verdict of [compareGuesses] against the guess recorded just before it
    (none for the first); so the feedback recorded first is [first], and
    no later one is. *)
Theorem game_feedback (fileCount : nat) (values : list string)
    (r : Renderer.Window) :
  let g := Renderer.gameState
             (Renderer.play trim answer (MainProcess.targetFile main) values
                (Renderer.initializeGame (MainProcess.targetFile main)
                   (MainProcess.initOk fileCount) r)) in
  Compared None (Renderer.guesses g)
  /\ forall i guess,
       nth_error (Renderer.guesses g) i = Some guess ->
       (Renderer.feedback guess = first <-> i = 0).
Proof.
cbv zeta. rewrite Renderer.play_gameState.
set (g0 := Renderer.gameState
             (Renderer.initializeGame (MainProcess.targetFile main)
                (MainProcess.initOk fileCount) r)).
assert (H : Renderer.Sound g0 /\ Compared None (Renderer.guesses g0)).
{ split; [|exact I]. unfold Renderer.Sound, g0.
  cbn [Renderer.initializeGame Renderer.gameState Renderer.write
       Renderer.hideLoading Renderer.updateUI Renderer.setGame
       Renderer.showLoading Renderer.guessesRemaining Renderer.guesses
       Renderer.gameActive Renderer.previousGuess length Renderer.lastPath rev].
  split; [lia|]. split; [lia|]. split; [reflexivity|].
  split; [split; discriminate|]. split; [reflexivity | constructor]. }
clearbody g0. revert g0 H.
induction values as [|value values IH]; intros g [Hs Hc].
- cbn [fold_left]. split; [exact Hc|].
  intros i guess Hn.
  destruct Hs as (_ & _ & _ & _ & _ & Hp).
  rewrite (Compared_first _ _ Hc Hp i guess Hn). tauto.
- cbn [fold_left]. apply IH. split.
  + apply Renderer.afterGuess_Sound. exact Hs.
  + apply afterGuess_Compared; [apply Hs | exact Hc].
Qed.

End Game.

(** A game on the small file system: the window after a successful
    initialisation, input taken as typed. *)
Definition demoAnswer : string -> option string -> MainProcess.GuessResult :=
  answer (host := posix) demoExists demoStat (Error "TypeError") demoGame.

Definition demoWindow : Renderer.Window :=
  Renderer.initializeGame (MainProcess.targetFile demoGame)
    (MainProcess.initOk 4) Renderer.initialWindow.

Example demo_play :
  Renderer.guesses
    (Renderer.gameState
       (Renderer.play (fun s => s) demoAnswer (MainProcess.targetFile demoGame)
          ["/home/u/Documents/a.txt"; ""; "/home/u/Documents/sub/b.txt";
           "/home/u/Documents"; "/home/u/Documents/sub/deep/c.txt";
           "/home/u/Documents/z.txt"]
          demoWindow))
  = [ {| Renderer.path := "/home/u/Documents/a.txt";
         Renderer.feedback := first |};
      {| Renderer.path := "/home/u/Documents/sub/b.txt";
         Renderer.feedback := closer |} ].
Proof. vm_compute. reflexivity. Qed.

(** X18, on the small file system: a directory is no valid guess. *)
Lemma handleGuess_rejected_witness :
  Renderer.gameState
    (Renderer.handleGuess (fun s => s) demoAnswer
       (MainProcess.targetFile demoGame) "/home/u/Documents" demoWindow)
  = Renderer.gameState demoWindow.
Proof.
apply Renderer.handleGuess_rejected.
right. right. exists "Path is not a file". vm_compute. reflexivity.
Defined.

(** X19, before any initialisation. *)
Lemma play_inactive_witness :
  Renderer.play (fun s => s) demoAnswer (MainProcess.targetFile demoGame)
    ["/home/u/Documents/a.txt"; "/home/u/Documents/z.txt"]
    Renderer.initialWindow
  = Renderer.initialWindow.
Proof.
apply Renderer.play_inactive. reflexivity.
Defined.

(* ------------------------------------------------------------------ *)
(** ** More on [scanCommonDirectories] *)

Section RootSetObserver.

Context {host : Host}.
Variable fs : FileSystem.
Variable env : Env.

#[local] Opaque totalMaxFiles.

Lemma scanDirectory_fst (cb1 cb2 : bool) (dirPath : string)
    (maxDepth currentDepth : nat) (given : list string) (maxFiles : nat)
    (log1 log2 : list ProgressCall) :
  fst (scanDirectory fs cb1 dirPath maxDepth currentDepth given maxFiles log1)
  = fst (scanDirectory fs cb2 dirPath maxDepth currentDepth given maxFiles log2).
Proof.
unfold scanDirectory.
destruct (scanDirectoryM_Agree fs cb1 cb2 maxDepth maxFiles
            (maxDepth - currentDepth) dirPath currentDepth
            {| fileList := given; calls := log1 |}
            {| fileList := given; calls := log2 |} eq_refl) as [Hr _].
destruct (scanDirectoryM fs cb1 _ _ _ _ _ _) as [r1 s1].
destruct (scanDirectoryM fs cb2 _ _ _ _ _ _) as [r2 s2].
exact Hr.
Qed.

(** What the loop over the roots aggregates, as a function of the file
    system alone. *)
Fixpoint rootsFiles (dirs : list string) (allFiles : list string)
  : list string :=
  match dirs with
  | [] => allFiles
  | dir :: rest =>
      if totalMaxFiles <=? length allFiles then allFiles
      else
        match fst (scanDirectory fs false dir 7 0 []
                     (totalMaxFiles - length allFiles) []) with
        | Returns files => rootsFiles rest (allFiles ++ files)
        | _ => rootsFiles rest allFiles
        end
  end.

Lemma scanRoots_fst (cb : bool) (dirs : list string) :
  forall total i allFiles log,
    fst (scanRoots fs cb dirs total i allFiles log)
    = Returns (rootsFiles dirs allFiles).
Proof.
induction dirs as [|dir rest IH]; intros total i allFiles log;
  [reflexivity|].
cbn [scanRoots rootsFiles]. unfold bind at 1.
match goal with |- context [when ?b (notify ?l ?c) ?s] =>
  destruct (when_notify b l c s) as [lg ->] end.
destruct (totalMaxFiles <=? length allFiles); [reflexivity|].
unfold bind at 1, tryCatch at 1, bind at 1.
destruct (scanDirectory_ok fs cb dir 7 0 []
            (totalMaxFiles - length allFiles) lg)
  as (files & l1 & E1 & _).
rewrite <- (scanDirectory_fst cb false dir 7 0 []
              (totalMaxFiles - length allFiles) lg []).
rewrite E1. cbn [fst]. unfold bind at 1.
match goal with |- context [when ?b (notify ?l ?c) ?s] =>
  destruct (when_notify b l c s) as [lg' ->] end.
cbn [ret]. apply IH.
Qed.

(** X23. The progress callback of [scanCommonDirectories] is an observer
    only: with or without a callback, and whatever was reported before,
    the call ends the same way with the same files. *)
Theorem scanCommonDirectories_callback_observer (log1 log2 : list ProgressCall) :
  fst (scanCommonDirectories fs env true log1)
  = fst (scanCommonDirectories fs env false log2).
Proof.
unfold scanCommonDirectories.
destruct (length (existingDirs fs env) =? 0); [reflexivity|].
unfold bind.
pose proof (scanRoots_fst true (existingDirs fs env)
              (length (existingDirs fs env)) 0 [] log1) as H1.
pose proof (scanRoots_fst false (existingDirs fs env)
              (length (existingDirs fs env)) 0 [] log2) as H2.
destruct (scanRoots fs true _ _ _ _ log1) as [r1 s1].
destruct (scanRoots fs false _ _ _ _ log2) as [r2 s2].
cbn [fst] in H1, H2. subst r1 r2.
destruct (length _ =? 0); reflexivity.
Qed.

Variable progressCallback : bool.

Lemma ScansInOrder_complete (cap : nat)
    (roots collected aggregated : list string) :
  ScansInOrder fs progressCallback cap roots collected aggregated ->
  length aggregated < cap ->
  forall root dirs p,
    In root roots -> Found fs root dirs p -> length dirs < 7 ->
    In p aggregated.
Proof.
induction 1 as [collected|root0 roots collected Hfull
               |root0 roots collected files aggregated log log' Hlt E Hrest IH];
  intros Hagg root dirs p Hroot Hf Hd.
- destruct Hroot.
- lia.
- destruct (ScansInOrder_sources fs progressCallback _ _ _ _ Hrest)
    as (new & Hnew & _).
  destruct Hroot as [<-|Hroot]; [|exact (IH Hagg root dirs p Hroot Hf Hd)].
  rewrite Hnew. apply in_or_app. left. apply in_or_app. right.
  unfold scanDirectory in E.
  destruct (scanDirectoryM_covers fs progressCallback 7
              (cap - length collected) (7 - 0) root0 0
              {| fileList := []; calls := log |} (le_n _))
    as (st' & Erun & _ & Hc).
  rewrite Erun in E. inversion E; subst files.
  apply Hc; [|exists dirs; split; [exact Hf | simpl; lia]].
  rewrite Hnew in Hagg. rewrite !length_app in Hagg. lia.
Qed.

(** X24. Unless the global cap was reached, nothing is missed: when
    [scanCommonDirectories] returns fewer than 20000 paths, every file
    lying fewer than 7 directories below an existing well-known directory,
    inside directories that are not skip-listed, is among them. *)
Theorem scanCommonDirectories_complete (log log' : list ProgressCall)
    (files : list string) :
  scanCommonDirectories fs env progressCallback log = (Returns files, log') ->
  length files < totalMaxFiles ->
  forall root dirs p,
    In root (commonDirs env) -> existsSync fs root = true ->
    Found fs root dirs p -> length dirs < 7 ->
    In p files.
Proof.
intros E Hlt root dirs p Hroot Hex Hf Hd.
destruct (scanCommonDirectories_cases fs env progressCallback log)
  as [[_ Ethrow]|(_ & agg & log1 & _ & Hs & _ & Eret)].
- rewrite Ethrow in E. discriminate.
- rewrite Eret in E. destruct agg as [|x agg]; inversion E; subst.
  apply (ScansInOrder_complete _ _ _ _ Hs Hlt root dirs p); try assumption.
  unfold existingDirs. apply filter_In. split; assumption.
Qed.

#[local] Transparent totalMaxFiles.

End RootSetObserver.

(** X24, on the small file system. *)
Lemma scanCommonDirectories_complete_witness :
  In "/home/u/Documents/sub/b.txt"
     ["/home/u/Documents/a.txt"; "/home/u/Documents/sub/b.txt";
      "/home/u/Documents/sub/deep/c.txt"; "/home/u/Documents/z.txt"].
Proof.
apply (scanCommonDirectories_complete (host := posix) demoFs demoEnv false
         [] []
         ["/home/u/Documents/a.txt"; "/home/u/Documents/sub/b.txt";
          "/home/u/Documents/sub/deep/c.txt"; "/home/u/Documents/z.txt"])
  with (root := "/home/u/Documents") (dirs := ["sub"]).
- vm_compute. reflexivity.
- apply Nat.ltb_lt. vm_compute. reflexivity.
- vm_compute. auto.
- reflexivity.
- apply (found_below (host := posix) demoFs "/home/u/Documents"
           [fileEntry "a.txt"; dirEntry "sub"; dirEntry ".git";
            brokenEntry "broken"; fileEntry "z.txt"] (dirEntry "sub"));
    try reflexivity; [simpl; auto|].
  apply (found_here (host := posix) demoFs "/home/u/Documents/sub"
           [fileEntry "b.txt"; dirEntry "deep"] (fileEntry "b.txt"));
    try reflexivity. simpl; auto.
- simpl. lia.
Defined.

(* ------------------------------------------------------------------ *)
(** ** No path twice *)

Lemma string_app_inv_head (s t u : string) :
  (s ++ t)%string = (s ++ u)%string -> t = u.
Proof.
induction s as [|a s IH]; simpl; intros H; [exact H|].
inversion H. apply IH. assumption.
Qed.

Section Distinct.

Context {host : Host}.
Variable fs : FileSystem.
Variable progressCallback : bool.

Hypothesis plainListings : PlainListings fs.

(** A directory lists no name twice. *)
Hypothesis distinctNames :
  forall dir entries,
    readdir fs dir = inr entries -> NoDup (map name entries).

(** The path [names] leads to from [dir]. *)
Definition pathAt (dir : string) (names : list string) : string :=
  (dir ++ below names)%string.

Lemma pathAt_inj (dir : string) (a b : list string) :
  Forall plain a -> Forall plain b -> pathAt dir a = pathAt dir b -> a = b.
Proof.
intros Ha Hb H. unfold pathAt in H. apply string_app_inv_head in H.
rewrite <- (split_below a Ha), <- (split_below b Hb), H. reflexivity.
Qed.

(** [Chains dir st st' chains]: the list grew by the paths the name lists
    [chains] lead to from [dir], no name list twice, all of plain names. *)
Definition Chains (dir : string) (st st' : ScanState)
    (chains : list (list string)) : Prop :=
  fileList st' = fileList st ++ map (pathAt dir) chains
  /\ NoDup chains
  /\ Forall (Forall plain) chains.

Lemma Chains_nil (dir : string) (st : ScanState) : Chains dir st st [].
Proof.
split; [simpl; rewrite app_nil_r; reflexivity|].
split; constructor.
Qed.

Section OneDirectoryDistinct.

Variables (maxFiles currentDepth : nat) (dirPath : string).
Variable entries : list Dirent.
Variable recurse : string -> M ScanState unit.

Hypothesis listed : readdir fs dirPath = inr entries.

Hypothesis recurse_chains :
  forall entry, In entry entries ->
    forall st, exists st' chains,
      recurse (join dirPath (name entry)) st = (Returns tt, st')
      /\ Chains (join dirPath (name entry)) st st' chains.

Lemma visitEntry_chains (entry : Dirent) (st : ScanState) :
  In entry entries ->
  exists st' chains,
    visitEntry progressCallback recurse dirPath currentDepth entry st
    = (Returns tt, st')
    /\ Chains dirPath st st' chains
    /\ Forall (fun c => hd_error c = Some (name entry)) chains.
Proof.
intros Hin.
destruct (plainListings dirPath entries entry listed Hin) as [Hname Hjoin].
unfold visitEntry, tryCatch, bind.
destruct (isFile entry) as [e|[|]] eqn:EF; cbn [liftE throw ret].
- exists st, []. split; [reflexivity|]. split; [apply Chains_nil | constructor].
- unfold push at 1, fileListLength at 1.
  match goal with |- context [when ?b (report ?l) ?s] =>
    destruct (when_report b l s) as [log ->] end.
  eexists. exists [[name entry]]. split; [reflexivity|]. split.
  + split; [|split].
    * cbn [fileList map]. unfold pathAt. cbn [below].
      rewrite string_app_nil_r, Hjoin. reflexivity.
    * constructor; [intros [] | constructor].
    * constructor; [|constructor]. constructor; [exact Hname | constructor].
  + constructor; [reflexivity | constructor].
- destruct (isDirectory entry) as [e|[|]] eqn:ED; cbn [liftE throw ret].
  + exists st, []. split; [reflexivity|].
    split; [apply Chains_nil | constructor].
  + destruct (negb (includes skipDirs (name entry))).
    * destruct (recurse_chains entry Hin st) as (st' & sub & -> & Hs & Hn & Hp).
      exists st', (map (cons (name entry)) sub). split; [reflexivity|]. split.
      -- split; [|split].
         ++ rewrite Hs, map_map. f_equal. apply map_ext. intros c.
            unfold pathAt. rewrite Hjoin. cbn [below].
            rewrite string_app_assoc. reflexivity.
         ++ apply NoDup_map_NoDup_ForallPairs; [|exact Hn].
            intros a b _ _ H. inversion H. reflexivity.
         ++ apply Forall_map. eapply Forall_impl; [|exact Hp].
            intros c Hc. constructor; assumption.
      -- apply Forall_map. apply Forall_forall. intros c _. reflexivity.
    * exists st, []. split; [reflexivity|].
      split; [apply Chains_nil | constructor].
  + exists st, []. split; [reflexivity|].
    split; [apply Chains_nil | constructor].
Qed.

Lemma forEntries_chains (rest : list Dirent) :
  incl rest entries -> NoDup (map name rest) ->
  forall st, exists st' chains,
    forEntries progressCallback recurse dirPath currentDepth maxFiles rest st
    = (Returns tt, st')
    /\ Chains dirPath st st' chains
    /\ Forall (fun c => exists e, In e rest /\ hd_error c = Some (name e)) chains.
Proof.
induction rest as [|entry rest IH]; intros Hincl Hnd st.
- exists st, []. split; [reflexivity|]. split; [apply Chains_nil | constructor].
- cbn [forEntries]. unfold bind at 1, fileListLength at 1.
  destruct (maxFiles <=? length (fileList st)).
  + exists st, []. split; [reflexivity|].
    split; [apply Chains_nil | constructor].
  + unfold bind at 1.
    destruct (visitEntry_chains entry st (Hincl entry (or_introl eq_refl)))
      as (st1 & ch1 & -> & (E1 & N1 & P1) & H1).
    inversion Hnd as [|x l Hnotin Hnd']; subst.
    destruct (IH (fun e He => Hincl e (or_intror He)) Hnd' st1)
      as (st2 & ch2 & -> & (E2 & N2 & P2) & H2).
    exists st2, (ch1 ++ ch2). split; [reflexivity|]. split.
    * split; [|split].
      -- rewrite E2, E1, map_app, app_assoc. reflexivity.
      -- apply NoDup_app; [exact N1 | exact N2|].
         intros c Hc1 Hc2. rewrite Forall_forall in H1, H2.
         specialize (H1 c Hc1). destruct (H2 c Hc2) as (e & He & Hhd).
         rewrite H1 in Hhd. inversion Hhd as [Hname].
         apply Hnotin. rewrite Hname. apply in_map. exact He.
      -- apply Forall_app. split; assumption.
    * apply Forall_app. split.
      -- eapply Forall_impl; [|exact H1]. intros c Hc.
         exists entry. split; [left; reflexivity | exact Hc].
      -- eapply Forall_impl; [|exact H2]. intros c (e & He & Hc).
         exists e. split; [right; exact He | exact Hc].
Qed.

End OneDirectoryDistinct.

Lemma scanDirectoryM_chains (maxDepth maxFiles : nat) :
  forall fuel dirPath currentDepth st,
    maxDepth - currentDepth <= fuel ->
    exists st' chains,
      scanDirectoryM fs progressCallback fuel dirPath maxDepth currentDepth
        maxFiles st
      = (Returns (fileList st'), st')
      /\ Chains dirPath st st' chains.
Proof.
induction fuel as [|fuel IH]; intros dirPath currentDepth st Hfuel.
- cbn [scanDirectoryM]. unfold bind at 1, fileListLength at 1.
  assert (E : (maxDepth <=? currentDepth) = true) by (apply Nat.leb_le; lia).
  rewrite E. cbn [orb]. exists st, []. split; [reflexivity | apply Chains_nil].
- cbn [scanDirectoryM]. unfold bind at 1, fileListLength at 1.
  destruct ((maxDepth <=? currentDepth)
            || (maxFiles <=? length (fileList st))) eqn:Eguard.
  + exists st, []. split; [reflexivity | apply Chains_nil].
  + apply orb_false_iff in Eguard. destruct Eguard as [Edepth _].
    apply Nat.leb_gt in Edepth.
    unfold bind at 1.
    destruct (when_report (progressCallback && (currentDepth =? 0))
                dirPath st) as [log ->].
    set (st0 := {| fileList := fileList st; calls := log |}).
    unfold bind at 1, tryCatch at 1, bind at 1.
    destruct (readdir fs dirPath) as [e|entries] eqn:Edir;
      cbn [liftE throw ret].
    * exists st0, []. split; [reflexivity|]. apply (Chains_nil dirPath st0).
    * set (recurse := fun fullPath : string =>
                        bind (scanDirectoryM fs progressCallback fuel fullPath
                                maxDepth (currentDepth + 1) maxFiles)
                             (fun _ => ret tt)).
      assert (Hrec : forall entry, In entry entries ->
                forall st2, exists st3 chains,
                  recurse (join dirPath (name entry)) st2 = (Returns tt, st3)
                  /\ Chains (join dirPath (name entry)) st2 st3 chains).
      { intros entry _ st2. unfold recurse, bind.
        destruct (IH (join dirPath (name entry)) (currentDepth + 1) st2)
          as (st3 & chains & -> & H3); [lia|].
        exists st3, chains. split; [reflexivity | exact H3]. }
      destruct (forEntries_chains maxFiles currentDepth dirPath entries recurse
                  Edir Hrec entries (incl_refl entries)
                  (distinctNames dirPath entries Edir) st0)
        as (st1 & chains & -> & H1 & _).
      exists st1, chains. split; [reflexivity | exact H1].
Qed.

(** X25. Where directory listings hold plain names, each name once, and
    joining a directory with a name appends it after a separator, a scan
    started on an empty list returns no path twice. *)
Theorem scanDirectory_NoDup (root : string) (maxDepth maxFiles : nat)
    (log log' : list ProgressCall) (files : list string) :
  scanDirectory fs progressCallback root maxDepth 0 [] maxFiles log
  = (Returns files, log') ->
  NoDup files.
Proof.
unfold scanDirectory. intros E.
destruct (scanDirectoryM_chains maxDepth maxFiles (maxDepth - 0) root 0
            {| fileList := []; calls := log |} (le_n _))
  as (st' & chains & Erun & Hf & Hn & Hp).
rewrite Erun in E. inversion E; subst. rewrite Hf. cbn [fileList app].
apply NoDup_map_NoDup_ForallPairs; [|exact Hn].
intros a b Ha Hb. rewrite Forall_forall in Hp.
apply pathAt_inj; [apply Hp; exact Ha | apply Hp; exact Hb].
Qed.

End Distinct.

Lemma demoFs_distinct (dir : string) (entries : list Dirent) :
  readdir demoFs dir = inr entries -> NoDup (map name entries).
Proof.
unfold demoFs, readdir.
repeat match goal with
       | |- context [String.eqb dir ?s] =>
           destruct (String.eqb_spec dir s) as [->|_]
       end;
  intros E; inversion E; subst; clear E; cbn [map name fileEntry dirEntry
                                               brokenEntry];
  repeat (constructor; [cbn [In]; intuition discriminate|]); constructor.
Qed.

(** X25, on the small file system. *)
Lemma scanDirectory_NoDup_witness :
  NoDup ["/home/u/Documents/a.txt"; "/home/u/Documents/sub/b.txt";
         "/home/u/Documents/sub/deep/c.txt"; "/home/u/Documents/z.txt"].
Proof.
apply (scanDirectory_NoDup (host := posix) demoFs false demoFs_plain
         demoFs_distinct "/home/u/Documents" 7 10 [] []).
vm_compute. reflexivity.
Defined.
